(** * Desktop listener ([desktop-listener/main.py]): frame receiver, hand-off
    queue, statistics and control channel.

    The Python program is embedded shallowly.  The methods of [VideoServer]
    and the methods of [ViewerApp] that touch the statistics become functions
    in a small state-and-exception monad over a [world] record.  The world
    holds the objects the program shares between its two threads: the server
    object, the frame queue, the [FrameStats] object and the sockets (a store
    indexed by descriptor, so that [_client_socket], [_client_output_stream]
    and the local [client_socket] alias one object), together with what the
    program only observes: the clock, the stream of each connection, the
    outcome of [bind] and [accept].

    Python [float] is IEEE-754 binary64 and is modelled by Rocq's primitive
    floats; Python [int] is [Z]; [bytes] is [list byte]; [str] is the list of
    its code points.  A call is one step on the world: the interleaving of
    the server thread with the display thread is a sequence of calls.  The
    two [while] loops take a bound on their number of turns; widgets, image
    decoding and socket options are left out. *)

From Stdlib Require Import ZArith List Lia Bool Floats.
From Stdlib Require Import Strings.Byte.
From stdpp Require Import base option list sorting.
Import ListNotations.

Local Open Scope Z_scope.

(** ** Exceptions and outcomes *)

(** The exception classes the program can meet.  [SocketTimeout] is
    [socket.timeout]; [ConnectionError] stands for its subclasses (reset,
    broken pipe); [OSError] for any other [OSError]. *)
Inductive exn : Type :=
| SocketTimeout
| ConnectionError
| OSError
| StructError
| QueueEmpty
| QueueFull
| OverflowError
| ZeroDivisionError
| UnicodeEncodeError.

(** What a call does: it returns a value, raises, would block its caller, or
    does not finish within the fuel given to a loop. *)
Inductive outcome (A : Type) : Type :=
| Ok (a : A)
| Raise (e : exn)
| Blocks
| OutOfFuel.
Arguments Ok {A} a.
Arguments Raise {A} e.
Arguments Blocks {A}.
Arguments OutOfFuel {A}.

Definition bytes := list byte.

(** ** Sockets *)

(** What the next [recv] on a connection meets.  A chunk is never empty (it is
    [b :: bs]); an exhausted list is the peer having closed: [recv] returns
    [b''] from then on. *)
Inductive recv_event : Type :=
| Chunk (b : byte) (bs : bytes)
| Timeout
| Reset.

(** A client socket: what is still to arrive, the argument of every
    [sendall] call made on it (oldest first), whether writes fail, and
    whether the descriptor has been closed. *)
Record socket : Type := mkSocket {
  incoming : list recv_event;
  sent : list bytes;
  write_fails : bool;
  closed : bool
}.

Definition set_incoming (s : socket) (evs : list recv_event) : socket :=
  mkSocket evs (sent s) (write_fails s) (closed s).

(** [sock.recv(bufsize)] on the pending events: the bytes returned (or the
    exception raised) and the events left.  A chunk longer than [bufsize] is
    split and its tail stays at the head of the stream. *)
Definition recv (evs : list recv_event) (bufsize : Z)
  : outcome bytes * list recv_event :=
  match evs with
  | [] => (Ok [], [])
  | Timeout :: rest => (Raise SocketTimeout, rest)
  | Reset :: rest => (Raise ConnectionError, rest)
  | Chunk b bs :: rest =>
      let n := Z.to_nat bufsize in
      match skipn n (b :: bs) with
      | [] => (Ok (b :: bs), rest)
      | b' :: bs' => (Ok (firstn n (b :: bs)), Chunk b' bs' :: rest)
      end
  end.

(** The [while len(data) < length] loop of [_recvall].  [Ok None] is the
    Python [None]. *)
Fixpoint recvall_loop (fuel : nat) (evs : list recv_event) (length : Z)
    (data : bytes) : outcome (option bytes) * list recv_event :=
  if Z.of_nat (List.length data) <? length then
    match fuel with
    | O => (OutOfFuel, evs)
    | S fuel' =>
        match recv evs (length - Z.of_nat (List.length data)) with
        | (Raise SocketTimeout, evs') => (Ok None, evs')
        | (Ok [], evs') => (Ok None, evs')
        | (Ok chunk, evs') => recvall_loop fuel' evs' length (data ++ chunk)
        | (Raise e, evs') => (Raise e, evs')
        | (Blocks, evs') => (Blocks, evs')
        | (OutOfFuel, evs') => (OutOfFuel, evs')
        end
    end
  else (Ok (Some data), evs).

(** [VideoServer._recvall] on the event list of the socket.  Every turn of
    the loop that goes on has taken a whole event off the stream, so one more
    turn than there are events is enough ([recvall_loop_spec]). *)
Definition _recvall (evs : list recv_event) (length : Z)
  : outcome (option bytes) * list recv_event :=
  recvall_loop (S (List.length evs)) evs length [].

(** The bytes that arrive before the stream first times out, resets or
    ends. *)
Fixpoint leading_bytes (evs : list recv_event) : bytes :=
  match evs with
  | Chunk b bs :: rest => (b :: bs) ++ leading_bytes rest
  | _ => []
  end.

(** What ends the run of leading chunks: [None] is the end of the stream
    (EOF). *)
Fixpoint terminator (evs : list recv_event) : option recv_event :=
  match evs with
  | Chunk _ _ :: rest => terminator rest
  | [] => None
  | e :: _ => Some e
  end.

(** ** The shared objects *)

(** [FrameStats]: the dataclass read by the display and written by the
    receive loop. *)
Record FrameStats : Type := mkFrameStats {
  fps : float;
  latency_ms : float;
  last_updated : float
}.

(** [queue.Queue(maxsize)] holding [(frame_data, timestamp)] pairs, oldest
    first.  [maxsize <= 0] is an unbounded queue. *)
Record Queue : Type := mkQueue {
  maxsize : Z;
  items : list (bytes * float)
}.

(** The life of the [threading.Thread] held in [_server_thread]. *)
Inductive thread_status : Type :=
| Alive
| Finished
| Crashed (e : exn).

Definition is_alive (t : thread_status) : bool :=
  match t with Alive => true | _ => false end.

(** The fields of a [VideoServer] object.  The two socket fields hold
    descriptors into the socket store of the world. *)
Record VideoServer : Type := mkVideoServer {
  host : list Z;
  port : Z;
  _should_run : bool;
  _server_thread : option thread_status;
  _client_socket : option nat;
  _client_output_stream : option nat
}.

(** What [accept] on the listening socket meets. *)
Inductive accept_event : Type :=
| AcceptTimeout
| AcceptError
| AcceptConn (s : socket).

(** A line printed on standard output. *)
Inductive printed : Type :=
| FailedToSend (e : exn).

(** The texts of the three [StringVar]s of the status bar.  [FpsValue v] is
    [f"FPS: {v:.1f}"] and [FpsIdle] is ["FPS: --"]; [LatencyValue v] is
    [f"Latency: {v:.0f}ms"] and [LatencyIdle] is ["Latency: --ms"]. *)
Inductive fps_text : Type :=
| FpsIdle
| FpsValue (v : float).

Inductive latency_text : Type :=
| LatencyIdle
| LatencyValue (v : float).

Inductive status_text : Type :=
| WaitingForConnection
| StreamingActive
| WaitingForStream
| ServerStopped.

(** The fields of [ViewerApp] that the statistics touch. *)
Record ViewerApp : Type := mkViewerApp {
  fps_var : fps_text;
  latency_var : latency_text;
  status_var : status_text;
  _current_image_ts : float;
  shown : option bytes
}.

(** Everything the program's methods read or change.  [sockets] is the store
    of client sockets, a descriptor being an index into it; [clock] gives the
    successive readings of [time.time()], [ticks] counts the readings taken;
    [bind_error] is what [bind((host, port))] raises, if anything;
    [image_ok] tells whether Pillow and Tk manage to show a payload. *)
Record world : Type := mkWorld {
  server : VideoServer;
  frame_queue : Queue;
  stats : FrameStats;
  sockets : list socket;
  viewer : ViewerApp;
  clock : nat -> float;
  ticks : nat;
  bind_error : option exn;
  accepts : list accept_event;
  stdout : list printed;
  stderr : list exn;
  image_ok : bytes -> bool
}.

Definition set_server (f : VideoServer -> VideoServer) (w : world) : world :=
  mkWorld (f (server w)) (frame_queue w) (stats w) (sockets w) (viewer w)
    (clock w) (ticks w) (bind_error w) (accepts w) (stdout w) (stderr w)
    (image_ok w).
Definition set_frame_queue (q : Queue) (w : world) : world :=
  mkWorld (server w) q (stats w) (sockets w) (viewer w)
    (clock w) (ticks w) (bind_error w) (accepts w) (stdout w) (stderr w)
    (image_ok w).
Definition set_stats (s : FrameStats) (w : world) : world :=
  mkWorld (server w) (frame_queue w) s (sockets w) (viewer w)
    (clock w) (ticks w) (bind_error w) (accepts w) (stdout w) (stderr w)
    (image_ok w).
Definition set_sockets (m : list socket) (w : world) : world :=
  mkWorld (server w) (frame_queue w) (stats w) m (viewer w)
    (clock w) (ticks w) (bind_error w) (accepts w) (stdout w) (stderr w)
    (image_ok w).
Definition set_viewer (v : ViewerApp) (w : world) : world :=
  mkWorld (server w) (frame_queue w) (stats w) (sockets w) v
    (clock w) (ticks w) (bind_error w) (accepts w) (stdout w) (stderr w)
    (image_ok w).
Definition set_ticks (n : nat) (w : world) : world :=
  mkWorld (server w) (frame_queue w) (stats w) (sockets w) (viewer w)
    (clock w) n (bind_error w) (accepts w) (stdout w) (stderr w)
    (image_ok w).
Definition set_accepts (l : list accept_event) (w : world) : world :=
  mkWorld (server w) (frame_queue w) (stats w) (sockets w) (viewer w)
    (clock w) (ticks w) (bind_error w) l (stdout w) (stderr w)
    (image_ok w).
Definition set_stdout (l : list printed) (w : world) : world :=
  mkWorld (server w) (frame_queue w) (stats w) (sockets w) (viewer w)
    (clock w) (ticks w) (bind_error w) (accepts w) l (stderr w)
    (image_ok w).
Definition set_stderr (l : list exn) (w : world) : world :=
  mkWorld (server w) (frame_queue w) (stats w) (sockets w) (viewer w)
    (clock w) (ticks w) (bind_error w) (accepts w) (stdout w) l
    (image_ok w).

Definition with_should_run (b : bool) (s : VideoServer) : VideoServer :=
  mkVideoServer (host s) (port s) b (_server_thread s) (_client_socket s)
    (_client_output_stream s).
Definition with_server_thread (t : option thread_status) (s : VideoServer)
  : VideoServer :=
  mkVideoServer (host s) (port s) (_should_run s) t (_client_socket s)
    (_client_output_stream s).
Definition with_client_socket (c : option nat) (s : VideoServer)
  : VideoServer :=
  mkVideoServer (host s) (port s) (_should_run s) (_server_thread s) c
    (_client_output_stream s).
Definition with_client_output_stream (c : option nat) (s : VideoServer)
  : VideoServer :=
  mkVideoServer (host s) (port s) (_should_run s) (_server_thread s)
    (_client_socket s) c.

(** ** The monad of methods: state passing with exceptions *)

Definition M (A : Type) : Type := world -> outcome A * world.

Definition ret {A} (a : A) : M A := fun w => (Ok a, w).
Definition raise {A} (e : exn) : M A := fun w => (Raise e, w).

Definition bind {A B} (m : M A) (k : A -> M B) : M B :=
  fun w =>
    match m w with
    | (Ok a, w') => k a w'
    | (Raise e, w') => (Raise e, w')
    | (Blocks, w') => (Blocks, w')
    | (OutOfFuel, w') => (OutOfFuel, w')
    end.

Notation "x <- m ;; k" := (bind m (fun x => k))
  (at level 100, m at next level, right associativity).
Notation "m ;;; k" := (bind m (fun _ => k))
  (at level 100, right associativity).

(** [try: m  except <the classes accepted by catches> as e: handler e]. *)
Definition try_except {A} (m : M A) (catches : exn -> bool)
    (handler : exn -> M A) : M A :=
  fun w =>
    match m w with
    | (Raise e, w') => if catches e then handler e w' else (Raise e, w')
    | r => r
    end.

(** [try: m  finally: cleanup]. *)
Definition try_finally {A} (m : M A) (cleanup : world -> world) : M A :=
  fun w => let '(r, w') := m w in (r, cleanup w').

Definition get_world : M world := fun w => (Ok w, w).
Definition modify (f : world -> world) : M unit := fun w => (Ok tt, f w).

(** [time.time()]. *)
Definition time_time : M float :=
  fun w => (Ok (clock w (ticks w)), set_ticks (S (ticks w)) w).

(** ** [queue.Queue] *)

Definition qsize (q : Queue) : Z := Z.of_nat (List.length (items q)).

(** [Queue.full()]: [0 < maxsize <= qsize]. *)
Definition queue_full (q : Queue) : bool :=
  (0 <? maxsize q) && (maxsize q <=? qsize q).

(** [Queue.get(block)]: a blocking [get] on an empty queue waits for a
    producer; a non-blocking one raises [queue.Empty]. *)
Definition queue_get (block : bool) : M (bytes * float) :=
  fun w =>
    match items (frame_queue w) with
    | [] => if block then (Blocks, w) else (Raise QueueEmpty, w)
    | item :: rest =>
        (Ok item, set_frame_queue (mkQueue (maxsize (frame_queue w)) rest) w)
    end.

(** [Queue.put(item, block)]: a blocking [put] on a full queue waits for a
    consumer; a non-blocking one raises [queue.Full]. *)
Definition queue_put (item : bytes * float) (block : bool) : M unit :=
  fun w =>
    if queue_full (frame_queue w) then
      if block then (Blocks, w) else (Raise QueueFull, w)
    else
      (Ok tt,
       set_frame_queue
         (mkQueue (maxsize (frame_queue w)) (items (frame_queue w) ++ [item]))
         w).

Definition get_nowait : M (bytes * float) := queue_get false.
Definition put_nowait (item : bytes * float) : M unit := queue_put item false.

Definition is_exn (e0 e : exn) : bool :=
  match e0, e with
  | SocketTimeout, SocketTimeout | ConnectionError, ConnectionError
  | OSError, OSError | StructError, StructError | QueueEmpty, QueueEmpty
  | QueueFull, QueueFull | OverflowError, OverflowError
  | ZeroDivisionError, ZeroDivisionError
  | UnicodeEncodeError, UnicodeEncodeError => true
  | _, _ => false
  end.

(** [isinstance(e, OSError)]: [socket.timeout] and [ConnectionError] are
    subclasses of [OSError]. *)
Definition is_OSError (e : exn) : bool :=
  match e with
  | SocketTimeout | ConnectionError | OSError => true
  | _ => false
  end.

(** ** [VideoServer._push_frame] *)

Definition _push_frame (frame_data : bytes) (timestamp : float) : M unit :=
  w <- get_world ;;
  (if queue_full (frame_queue w) then
     try_except (get_nowait ;;; ret tt) (is_exn QueueEmpty) (fun _ => ret tt)
   else ret tt) ;;;
  try_except (put_nowait (frame_data, timestamp)) (is_exn QueueFull)
    (fun _ => ret tt) ;;;
  modify (fun w =>
    set_stats (mkFrameStats (fps (stats w)) (latency_ms (stats w)) timestamp)
      w).

(** ** The framing codec: [struct.unpack('>I', header)] *)

Definition byte_to_Z (b : byte) : Z := Z.of_N (Byte.to_N b).

Definition struct_unpack_I (header : bytes) : outcome Z :=
  match header with
  | [b0; b1; b2; b3] =>
      Ok (Z.lor (Z.shiftl (byte_to_Z b0) 24)
           (Z.lor (Z.shiftl (byte_to_Z b1) 16)
              (Z.lor (Z.shiftl (byte_to_Z b2) 8) (byte_to_Z b3))))
  | _ => Raise StructError
  end.

Definition lift {A} (o : outcome A) : M A := fun w => (o, w).

(** ** Python arithmetic on [float] *)

(** [float(n)] for an [int]: round to nearest, ties to even;
    [OverflowError] when the integer is too large for a finite double. *)
Definition float_of_int (n : Z) : outcome float :=
  let x := SF2Prim (binary_normalize prec emax n 0 false) in
  if is_infinity x then Raise OverflowError else Ok x.

(** [n / y] with [n : int] and [y : float]. *)
Definition truediv_int_float (n : Z) (y : float) : outcome float :=
  match float_of_int n with
  | Ok x => if PrimFloat.eqb y 0 then Raise ZeroDivisionError else Ok (x / y)%float
  | r => r
  end.

(** [max(x, y)]: the first argument unless the second is greater. *)
Definition py_max (x y : float) : float :=
  if PrimFloat.ltb x y then y else x.

(** [not v] for [v : Optional[bytes]]. *)
Definition falsy (v : option bytes) : bool :=
  match v with
  | None | Some [] => true
  | Some (_ :: _) => false
  end.

(** ** [VideoServer._handle_client] *)

(** A method of the socket [fd] acting on its pending input; a descriptor
    that is closed (or was never opened) raises [OSError]. *)
Definition on_socket {A} (fd : nat)
    (f : list recv_event -> outcome A * list recv_event) : M A :=
  fun w =>
    match sockets w !! fd with
    | Some s =>
        if closed s then (Raise OSError, w)
        else
          let '(r, evs') := f (incoming s) in
          (r, set_sockets (<[fd := set_incoming s evs']> (sockets w)) w)
    | None => (Raise OSError, w)
    end.

(** The local variables of the receive loop. *)
Record window : Type := mkWindow {
  frame_count : Z;
  window_start : float
}.

Inductive loop_ctl : Type :=
| Continue (l : window)
| Break.

Definition MAX_FRAME_LENGTH : Z := 5 * 1024 * 1024.

(** The [try] block inside the [while] loop. *)
Definition receive_frame (fd : nat) (l : window) : M loop_ctl :=
  header <- on_socket fd (fun evs => _recvall evs 4) ;;
  if falsy header then ret Break else
  frame_length <- lift (struct_unpack_I (default [] header)) ;;
  if (frame_length <=? 0) || (MAX_FRAME_LENGTH <? frame_length)
  then ret (Continue l) else
  frame_data <- on_socket fd (fun evs => _recvall evs frame_length) ;;
  if falsy frame_data then ret Break else
  now <- time_time ;;
  _push_frame (default [] frame_data) now ;;;
  let frame_count := frame_count l + 1 in
  let elapsed := (now - window_start l)%float in
  if PrimFloat.leb 1 elapsed then
    q <- lift (truediv_int_float frame_count elapsed) ;;
    modify (fun w =>
      set_stats
        (mkFrameStats q (latency_ms (stats w)) (last_updated (stats w))) w) ;;;
    ret (Continue (mkWindow 0 now))
  else ret (Continue (mkWindow frame_count (window_start l))).

(** One turn of the [while] loop: the [try] block with its two [except]
    clauses, both of which [break]. *)
Definition loop_body (fd : nat) (l : window) : M loop_ctl :=
  try_except (receive_frame fd l)
    (fun e => is_exn SocketTimeout e || is_exn ConnectionError e
              || is_exn StructError e || is_OSError e)
    (fun _ => ret Break).

(** [while self._should_run.is_set(): ...]. *)
Fixpoint client_loop (fuel : nat) (fd : nat) (l : window) : M unit :=
  w <- get_world ;;
  if _should_run (server w) then
    match fuel with
    | O => fun w => (OutOfFuel, w)
    | S fuel' =>
        c <- loop_body fd l ;;
        match c with
        | Continue l' => client_loop fuel' fd l'
        | Break => ret tt
        end
    end
  else ret tt.

(** [with client_socket:] closes the socket however the block is left. *)
Definition close_socket (fd : nat) (w : world) : world :=
  match sockets w !! fd with
  | Some s =>
      set_sockets
        (<[fd := mkSocket (incoming s) (sent s) (write_fails s) true]>
           (sockets w)) w
  | None => w
  end.

(** [_handle_client].  The [setsockopt] and [settimeout] calls only tune the
    connection: timeouts are events of the stream here. *)
Definition _handle_client (fuel : nat) (client_socket : nat) : M unit :=
  try_finally
    (modify (set_server (with_client_output_stream (Some client_socket))) ;;;
     window_start <- time_time ;;
     client_loop fuel client_socket (mkWindow 0 window_start) ;;;
     modify (set_server (with_client_output_stream None)))
    (close_socket client_socket).

(** ** [VideoServer._run_server] and [VideoServer.start] *)

(** [server_socket.accept()]: a connection is given the next descriptor.
    With nothing left to come, every call times out. *)
Definition accept : M nat :=
  fun w =>
    match accepts w with
    | [] => (Raise SocketTimeout, w)
    | AcceptTimeout :: rest => (Raise SocketTimeout, set_accepts rest w)
    | AcceptError :: rest => (Raise OSError, set_accepts rest w)
    | AcceptConn s :: rest =>
        (Ok (List.length (sockets w)),
         set_sockets (sockets w ++ [s]) (set_accepts rest w))
    end.

(** The accept loop.  The [try] block yields [true] when the loop is to
    [break] and [false] when it goes on ([continue], or the end of the
    block). *)
Fixpoint accept_loop (fuel : nat) (client_fuel : nat) : M unit :=
  w <- get_world ;;
  if _should_run (server w) then
    match fuel with
    | O => fun w => (OutOfFuel, w)
    | S fuel' =>
        brk <- try_except
                 (client_socket <- accept ;;
                  modify (set_server (with_client_socket (Some client_socket))) ;;;
                  _handle_client client_fuel client_socket ;;;
                  ret false)
                 is_OSError
                 (fun e => ret (negb (is_exn SocketTimeout e))) ;;
        if brk : bool then ret tt else accept_loop fuel' client_fuel
    end
  else ret tt.

(** [server_socket.bind((self.host, self.port))]. *)
Definition bind_listener : M unit :=
  fun w =>
    match bind_error w with
    | Some e => (Raise e, w)
    | None => (Ok tt, w)
    end.

Definition _run_server (fuel client_fuel : nat) : M unit :=
  bind_listener ;;;
  accept_loop fuel client_fuel.

(** [Thread(target=self._run_server, daemon=True).start()]: the new thread is
    alive, and [start] returns without waiting for anything it does. *)
Definition spawn_server_thread : M unit :=
  modify (set_server (with_server_thread (Some Alive))).

Definition start : M unit :=
  w <- get_world ;;
  match _server_thread (server w) with
  | Some t => if is_alive t then ret tt
              else
                modify (set_server (with_should_run true)) ;;;
                spawn_server_thread
  | None =>
      modify (set_server (with_should_run true)) ;;;
      spawn_server_thread
  end.

(** [VideoServer.stop].  Shutting the socket down ends its stream and its
    writes; an [OSError] from [shutdown] or [close] (the socket being closed
    already) is passed over. *)
Definition shutdown_and_close (fd : nat) (w : world) : world :=
  match sockets w !! fd with
  | Some s =>
      if closed s then w
      else set_sockets (<[fd := mkSocket [] (sent s) true true]> (sockets w)) w
  | None => w
  end.

Definition stop : M unit :=
  modify (set_server (with_should_run false)) ;;;
  w <- get_world ;;
  match _client_socket (server w) with
  | Some fd =>
      modify (shutdown_and_close fd) ;;;
      modify (set_server (with_client_socket None))
  | None => ret tt
  end.

(** What the server thread does once it runs: the body of [_run_server]; an
    exception that leaves it ends the thread and is reported by the
    threading machinery on standard error; nobody is handed it. *)
Definition server_thread_main (fuel client_fuel : nat) (w : world) : world :=
  match _run_server fuel client_fuel w with
  | (Ok _, w') => set_server (with_server_thread (Some Finished)) w'
  | (Raise e, w') =>
      set_stderr (stderr w' ++ [e])
        (set_server (with_server_thread (Some (Crashed e))) w')
  | (_, w') => w'
  end.

(** ** The control channel: [VideoServer.send_control_command] *)

Definition byte_of_Z (z : Z) : byte :=
  default x00 (Byte.of_N (Z.to_N (z mod 256))).

(** The UTF-8 form of one code point; lone surrogates (and numbers that are
    no code point) cannot be encoded. *)
Definition utf8_encode_char (c : Z) : outcome bytes :=
  if (c <? 0) || (1114111 <? c) then Raise UnicodeEncodeError
  else if (55296 <=? c) && (c <=? 57343) then Raise UnicodeEncodeError
  else if c <? 128 then Ok [byte_of_Z c]
  else if c <? 2048 then
    Ok [byte_of_Z (Z.lor 192 (Z.shiftr c 6));
        byte_of_Z (Z.lor 128 (Z.land c 63))]
  else if c <? 65536 then
    Ok [byte_of_Z (Z.lor 224 (Z.shiftr c 12));
        byte_of_Z (Z.lor 128 (Z.land (Z.shiftr c 6) 63));
        byte_of_Z (Z.lor 128 (Z.land c 63))]
  else
    Ok [byte_of_Z (Z.lor 240 (Z.shiftr c 18));
        byte_of_Z (Z.lor 128 (Z.land (Z.shiftr c 12) 63));
        byte_of_Z (Z.lor 128 (Z.land (Z.shiftr c 6) 63));
        byte_of_Z (Z.lor 128 (Z.land c 63))].

(** [command.encode('utf-8')] for a [str] given by its code points. *)
Fixpoint encode_utf8 (command : list Z) : outcome bytes :=
  match command with
  | [] => Ok []
  | c :: rest =>
      match utf8_encode_char c, encode_utf8 rest with
      | Ok bs, Ok bs' => Ok (bs ++ bs')
      | Ok _, r => r
      | r, _ => r
      end
  end.

(** [sock.sendall(data)]: one call, recorded whole on the socket when it
    succeeds. *)
Definition sendall (fd : nat) (data : bytes) : M unit :=
  fun w =>
    match sockets w !! fd with
    | Some s =>
        if closed s then (Raise OSError, w)
        else if write_fails s then (Raise ConnectionError, w)
        else
          (Ok tt,
           set_sockets
             (<[fd := mkSocket (incoming s) (sent s ++ [data]) (write_fails s)
                        (closed s)]> (sockets w)) w)
    | None => (Raise OSError, w)
    end.

Definition print (p : printed) : M unit :=
  modify (fun w => set_stdout (stdout w ++ [p]) w).

Definition send_control_command (command : list Z) : M unit :=
  w <- get_world ;;
  match _client_output_stream (server w) with
  | Some fd =>
      try_except
        (data <- lift (encode_utf8 command) ;;
         sendall fd (data ++ [x0a]))
        (fun _ => true)
        (fun e => print (FailedToSend e))
  | None => ret tt
  end.

(** ** The display side: [ViewerApp] *)

(** [_display_frame]: if decoding or showing the image raises, the method
    returns at once; otherwise the latency is recorded. *)
Definition _display_frame (frame_data : bytes) (timestamp : float) : M unit :=
  w <- get_world ;;
  if image_ok w frame_data then
    now <- time_time ;;
    modify (fun w =>
      set_viewer
        (mkViewerApp (fps_var (viewer w)) (latency_var (viewer w))
           (status_var (viewer w)) now (Some frame_data))
        (set_stats
           (mkFrameStats (fps (stats w))
              (py_max ((now - timestamp) * 1000) 0)
              (last_updated (stats w))) w))
  else ret tt.

(** [_poll_frames], without the rescheduling [self.after(17, ...)]. *)
Definition _poll_frames : M unit :=
  try_except
    (item <- get_nowait ;;
     _display_frame (fst item) (snd item))
    (is_exn QueueEmpty)
    (fun _ => ret tt).

(** [_refresh_stats], without the rescheduling [self.after(500, ...)]. *)
Definition _refresh_stats : M unit :=
  now <- time_time ;;
  w <- get_world ;;
  let elapsed := (now - last_updated (stats w))%float in
  if PrimFloat.ltb elapsed 2 && PrimFloat.ltb 0 (fps (stats w)) then
    modify (set_viewer
      (mkViewerApp (FpsValue (fps (stats w)))
         (LatencyValue (latency_ms (stats w))) StreamingActive
         (_current_image_ts (viewer w)) (shown (viewer w))))
  else
    modify (set_viewer
      (mkViewerApp FpsIdle LatencyIdle WaitingForStream
         (_current_image_ts (viewer w)) (shown (viewer w)))).

(** ** The state [ViewerApp.__init__] builds *)

(** [FrameStats()]: the default of [last_updated] was evaluated when the
    class was defined. *)
Definition new_FrameStats (import_time : float) : FrameStats :=
  mkFrameStats 0 0 import_time.

Definition new_VideoServer (host : list Z) (port : Z) : VideoServer :=
  mkVideoServer host port false None None None.

Definition initial_world (host : list Z) (port : Z) (import_time : float)
    (clock : nat -> float) (bind_error : option exn)
    (accepts : list accept_event) (image_ok : bytes -> bool) : world :=
  mkWorld (new_VideoServer host port) (mkQueue 1 []) (new_FrameStats import_time)
    [] (mkViewerApp FpsIdle LatencyIdle WaitingForConnection 0 None)
    clock 0 bind_error accepts [] [] image_ok.

(** ** [ViewerApp._stop_server] *)

Definition _stop_server : M unit :=
  stop ;;;
  modify (fun w =>
    set_viewer
      (mkViewerApp (fps_var (viewer w)) (latency_var (viewer w)) ServerStopped
         (_current_image_ts (viewer w)) (shown (viewer w))) w).

(** ** [get_local_ip_addresses] *)

(** [s.startswith(prefix)] on code points. *)
Fixpoint startswith (s prefix : list Z) : bool :=
  match prefix, s with
  | [], _ => true
  | _ :: _, [] => false
  | p :: prefix', c :: s' => (c =? p) && startswith s' prefix'
  end.

(** [s <= t] for two [str]: the order of their code points, a proper prefix
    coming first. *)
Fixpoint str_leb (s t : list Z) : bool :=
  match s, t with
  | [], _ => true
  | _ :: _, [] => false
  | c :: s', d :: t' =>
      if c <? d then true else if d <? c then false else str_leb s' t'
  end.

Definition str_le (s t : list Z) : Prop := str_leb s t = true.

#[global] Instance str_le_dec (s t : list Z) : Decision (str_le s t).
Proof. unfold str_le. apply _. Defined.

(** The strings ["127."] and ["127.0.0.1"]. *)
Definition LOOPBACK_PREFIX : list Z := [49; 50; 55; 46].
Definition LOCALHOST : list Z := [49; 50; 55; 46; 48; 46; 48; 46; 49].

(** [get_local_ip_addresses()].  [resolved] is the address list that
    [gethostbyname_ex(gethostname())] returns, [None] when the lookup raises
    [socket.gaierror]; [outbound] is the local address of a datagram socket
    connected to 8.8.8.8, [None] when that raises [OSError].
    [sorted(set(ips))] is the sorted list of the distinct elements. *)
Definition get_local_ip_addresses (resolved : option (list (list Z)))
    (outbound : option (list Z)) : list (list Z) :=
  let ips :=
    match resolved with
    | Some addrs =>
        List.filter (fun addr => negb (startswith addr LOOPBACK_PREFIX)) addrs
    | None => []
    end in
  let ips :=
    match outbound with
    | Some addr => ips ++ [addr]
    | None => ips
    end in
  match merge_sort str_le (remove_dups ips) with
  | [] => [LOCALHOST]
  | sorted => sorted
  end.

(** ** [ViewerApp._compute_display_size] *)

(** The exceptions of the arithmetic of [_compute_display_size]. *)
Inductive size_error : Type :=
| SizeZeroDivision
| SizeOverflow
| SizeValueError.

(** The two fields of [ViewerApp] that cache the display size. *)
Record display_cache : Type := mkDisplayCache {
  _cached_display_size : option (Z * Z);
  _last_label_size : Z * Z
}.

(** An integer as an (unnormalised) binary number [m * 2^0]. *)
Definition Z2SF (z : Z) : spec_float :=
  match z with
  | 0 => S754_zero false
  | Z.pos m => S754_finite false m 0
  | Z.neg m => S754_finite true m 0
  end.

(** [a / b] for two [int]: the quotient rounded once to the nearest
    double. *)
Definition truediv_int_int (a b : Z) : size_error + float :=
  if b =? 0 then inl SizeZeroDivision
  else
    let q := SF2Prim (SFdiv prec emax (Z2SF a) (Z2SF b)) in
    if is_infinity q then inl SizeOverflow else inr q.

(** [a * y] for an [int] and a [float]. *)
Definition mul_int_float (a : Z) (y : float) : size_error + float :=
  match float_of_int a with
  | Ok x => inr (x * y)%float
  | _ => inl SizeOverflow
  end.

(** [int(x)]: truncation towards zero. *)
Definition int_of_float (x : float) : size_error + Z :=
  match Prim2SF x with
  | S754_zero _ => inr 0
  | S754_infinity _ => inl SizeOverflow
  | S754_nan => inl SizeValueError
  | S754_finite s m e =>
      let v := match e with
               | Z.neg p => Z.shiftr (Z.pos m) (Z.pos p)
               | _ => Z.shiftl (Z.pos m) e
               end in
      inr (if s then - v else v)
  end.

(** [min(x, y)] on floats and [max(a, b)] on integers: the first argument
    unless the second is smaller (greater). *)
Definition py_min (x y : float) : float :=
  if PrimFloat.ltb y x then y else x.

Definition int_max (a b : Z) : Z := if a <? b then b else a.

Definition size_eqb (a b : Z * Z) : bool :=
  (fst a =? fst b) && (snd a =? snd b).

(** [_compute_display_size(image_size)], [winfo_width] and [winfo_height]
    being what the label reports.  The label size is written to the cache
    before the two [int(...)] conversions are made. *)
Definition _compute_display_size (winfo_width winfo_height : Z)
    (image_size : Z * Z) (c : display_cache)
  : (size_error + Z * Z) * display_cache :=
  let label_width := int_max winfo_width 320 in
  let label_height := int_max winfo_height 240 in
  let current_label_size := (label_width, label_height) in
  let miss :=
    let '(image_width, image_height) := image_size in
    match truediv_int_int label_width image_width with
    | inl e => (inl e, c)
    | inr width_ratio =>
        match truediv_int_int label_height image_height with
        | inl e => (inl e, c)
        | inr height_ratio =>
            let scale := py_min width_ratio height_ratio in
            let c1 := mkDisplayCache (_cached_display_size c)
                        current_label_size in
            match mul_int_float image_width scale with
            | inl e => (inl e, c1)
            | inr fw =>
                match int_of_float fw with
                | inl e => (inl e, c1)
                | inr w =>
                    match mul_int_float image_height scale with
                    | inl e => (inl e, c1)
                    | inr fh =>
                        match int_of_float fh with
                        | inl e => (inl e, c1)
                        | inr h =>
                            (inr (w, h),
                             mkDisplayCache (Some (w, h)) current_label_size)
                        end
                    end
                end
            end
        end
    end in
  match _cached_display_size c with
  | Some cached =>
      if size_eqb (_last_label_size c) current_label_size
      then (inr cached, c)
      else miss
  | None => miss
  end.

(** The cache [ViewerApp.__init__] builds. *)
Definition new_display_cache : display_cache := mkDisplayCache None (0, 0).

(** ** Vocabulary of the statements and example worlds *)

(** The queue [_push_frame] leaves behind: the oldest item goes if the queue
    was full, and the new one is appended unless the queue is full even
    then. *)
Definition pushed (q : Queue) (item : bytes * float) : Queue :=
  let q1 := if queue_full q then mkQueue (maxsize q) (tl (items q)) else q in
  if queue_full q1 then q1 else mkQueue (maxsize q1) (items q1 ++ [item]).

(** The world after a frame has been read from [fd] and pushed: the stream
    is at [evs'], the clock has been read once, the queue has received the
    pair and [last_updated] is the reading. *)
Definition after_frame (fd : nat) (s : socket) (evs' : list recv_event)
    (payload : bytes) (w : world) : world :=
  let now := clock w (ticks w) in
  set_stats (mkFrameStats (fps (stats w)) (latency_ms (stats w)) now)
    (set_frame_queue (pushed (frame_queue w) (payload, now))
       (set_ticks (S (ticks w))
          (set_sockets (<[fd := set_incoming s evs']> (sockets w)) w))).

(** The part of the loop body that follows [_push_frame]: the window
    arithmetic, on the world [w3] the push has left. *)
Definition window_step (l : window) (now : float) (w3 : world)
  : outcome loop_ctl * world :=
  let elapsed := (now - window_start l)%float in
  if PrimFloat.leb 1 elapsed then
    match truediv_int_float (frame_count l + 1) elapsed with
    | Ok q =>
        (Ok (Continue (mkWindow 0 now)),
         set_stats
           (mkFrameStats q (latency_ms (stats w3)) (last_updated (stats w3)))
           w3)
    | Raise e => (Raise e, w3)
    | Blocks => (Blocks, w3)
    | OutOfFuel => (OutOfFuel, w3)
    end
  else (Ok (Continue (mkWindow (frame_count l + 1) (window_start l))), w3).

(** A world with one open client socket, descriptor 0, on which [evs] is
    still to arrive, the queue of the application being in state [q]. *)
Definition world_with_client (evs : list recv_event) (q : Queue)
    (clock : nat -> float) : world :=
  set_frame_queue q
    (set_sockets [mkSocket evs [] false false]
       (set_server (with_should_run true)
          (initial_world [] 5000 0 clock None [] (fun _ => true)))).

(** The reading of an out-of-bounds unit under which the declared payload is
    read and discarded: after the turn, the connection is past the header and
    past the [n] bytes it declared. *)
Definition discards_declared_payload (fd : nat) (l : window) (w : world)
  : Prop :=
  forall (s : socket) (header rest : bytes) (n : Z),
    sockets w !! fd = Some s ->
    closed s = false ->
    leading_bytes (incoming s) = header ++ rest ->
    struct_unpack_I header = Ok n ->
    n <= 0 \/ 5 * 1024 * 1024 < n ->
    exists s',
      sockets (snd (loop_body fd l w)) !! fd = Some s'
      /\ leading_bytes (incoming s') = skipn (Z.to_nat n) rest.

(** A connection on which a header declaring 5242881 bytes (one more than
    the bound) is followed by the five bytes [00 00 00 01 cc]. *)
Definition oversized_unit : list recv_event :=
  [Chunk x00 [x50; x00; x01; x00; x00; x00; x01; xcc]].

(** [x] is a number (not NaN) whose sign bit is [sx]. *)
Definition sf_signed (sx : bool) (x : spec_float) : Prop :=
  match x with
  | S754_zero s | S754_infinity s | S754_finite s _ _ => s = sx
  | S754_nan => False
  end.

Definition sf_finite (x : spec_float) : Prop :=
  match x with
  | S754_zero _ | S754_finite _ _ _ => True
  | _ => False
  end.

Definition sf_number (x : spec_float) : Prop :=
  match x with S754_nan => False | _ => True end.

(** Thirty one-byte frames, and a clock whose reading number [k] is
    [1000 + k/30] seconds: the window opens at 1000.0 and the thirtieth frame
    is received at 1001.0 exactly. *)
Definition thirty_frames : list recv_event :=
  repeat (Chunk x00 [x00; x00; x01; xaa]) 30.

Definition thirtieths (k : nat) : float :=
  (1000 + of_uint63 (Uint63.of_Z (Z.of_nat k)) / 30)%float.

(** A world in which a frame was last received at time 100.0, the rate then
    being 25.0, and the clock now reads 102.0. *)
Definition stale_world : world :=
  set_stats (mkFrameStats 25 40 100)
    (world_with_client [] (mkQueue 1 []) (fun _ => 102%float)).

(** [fps >= 0] and [latency_ms >= 0]. *)
Definition stats_ok (st : FrameStats) : Prop :=
  PrimFloat.leb 0 (fps st) = true /\ PrimFloat.leb 0 (latency_ms st) = true.

(** The code points of the string ["ZOOM:2.50"]. *)
Definition ZOOM_2_50 : list Z := [90; 79; 79; 77; 58; 50; 46; 53; 48].

(** A producer is connected on descriptor 0. *)
Definition connected_world : world :=
  set_server (with_client_output_stream (Some 0%nat))
    (world_with_client [] (mkQueue 1 []) (fun _ => 0%float)).

(** The reading under which [start] surfaces a failure to bind: some call of
    [start], in a world where the address cannot be bound, does not return
    normally. *)
Definition start_reports_bind_failure : Prop :=
  exists (w : world) (e : exn),
    bind_error w = Some e /\ fst (start w) <> Ok tt.

(** Port 5000 is taken: binding raises [OSError]. *)
Definition unbindable_world : world :=
  initial_world [] 5000 0 (fun _ => 0%float) (Some OSError) [] (fun _ => true).

(** The size of what is pending on a connection: one for each event and one
    for each byte. *)
Fixpoint stream_size (evs : list recv_event) : nat :=
  match evs with
  | [] => 0
  | Chunk _ bs :: rest => S (S (List.length bs)) + stream_size rest
  | _ :: rest => S (stream_size rest)
  end.

Definition sock_size (fd : nat) (w : world) : nat :=
  match sockets w !! fd with
  | Some s => stream_size (incoming s)
  | None => 0
  end.

(** What is left of a stream once its leading chunks and the event that
    ends them have been consumed. *)
Fixpoint after_terminator (evs : list recv_event) : list recv_event :=
  match evs with
  | Chunk _ _ :: rest => after_terminator rest
  | [] => []
  | _ :: rest => rest
  end.

(** The four bytes of [n], most significant first: what
    [struct.pack('>I', n)] produces on the sending side. *)
Definition be32 (n : Z) : bytes :=
  [byte_of_Z (Z.shiftr n 24); byte_of_Z (Z.shiftr n 16);
   byte_of_Z (Z.shiftr n 8); byte_of_Z n].

(** The bytes a producer puts on the wire for a list of payloads: each one
    behind the big-endian header of its length. *)
Fixpoint wire (payloads : list bytes) : bytes :=
  match payloads with
  | [] => []
  | p :: rest => be32 (Z.of_nat (List.length p)) ++ p ++ wire rest
  end.

(** The payloads with the readings of the clock they are received at, the
    first one at reading number [t]. *)
Fixpoint stamp (clock : nat -> float) (t : nat) (payloads : list bytes)
  : list (bytes * float) :=
  match payloads with
  | [] => []
  | p :: rest => (p, clock t) :: stamp clock (S t) rest
  end.

(** A payload of a valid size. *)
Definition valid_payload (p : bytes) : Prop :=
  1 <= Z.of_nat (List.length p) <= 5 * 1024 * 1024.

(** What the receive loop has no business with: the server object, the
    connections still to come on the listening socket, the display and the
    two output streams. *)
Definition outside_receive_loop (w : world)
  : VideoServer * list accept_event * ViewerApp * list printed * list exn :=
  (server w, accepts w, viewer w, stdout w, stderr w).

(** The addresses [get_local_ip_addresses] collects before it sorts them:
    those of the host name that do not start with ["127."], and the local
    address of the outbound socket. *)
Definition collected (resolved : option (list (list Z)))
    (outbound : option (list Z)) (a : list Z) : Prop :=
  (exists addrs, resolved = Some addrs /\ In a addrs
                 /\ startswith a LOOPBACK_PREFIX = false)
  \/ outbound = Some a.

(** The strings ["10.0.0.5"], ["192.168.1.7"] and ["127.0.1.1"]. *)
Definition ADDR_10_0_0_5 : list Z := [49; 48; 46; 48; 46; 48; 46; 53].
Definition ADDR_192_168_1_7 : list Z :=
  [49; 57; 50; 46; 49; 54; 56; 46; 49; 46; 55].
Definition ADDR_127_0_1_1 : list Z := [49; 50; 55; 46; 48; 46; 49; 46; 49].

(** The size of the label as [_compute_display_size] takes it, and the
    condition under which the method computes a size anew. *)
Definition label_size (winfo_width winfo_height : Z) : Z * Z :=
  (int_max winfo_width 320, int_max winfo_height 240).

Definition cache_miss (winfo_width winfo_height : Z) (c : display_cache)
  : Prop :=
  _cached_display_size c = None
  \/ _last_label_size c <> label_size winfo_width winfo_height.

(** * Properties *)

(** ** Facts on binary64 arithmetic *)

Section FloatFacts.

Lemma shr_1_nonneg (r : shr_record) : 0 <= shr_m r -> 0 <= shr_m (shr_1 r).
Proof.
  destruct r as [m r s]. cbn [shr_m].
  destruct m as [|[p|p|]|p]; cbn; lia.
Qed.

Lemma iter_pos_shr_1_nonneg (p : positive) : forall r : shr_record,
  0 <= shr_m r -> 0 <= shr_m (SpecFloat.iter_pos shr_1 p r).
Proof.
  induction p as [p IH|p IH|]; intros r Hr; cbn [SpecFloat.iter_pos].
  - apply IH, IH, shr_1_nonneg, Hr.
  - apply IH, IH, Hr.
  - apply shr_1_nonneg, Hr.
Qed.

Lemma shr_fexp_nonneg (m e : Z) (l : location) :
  0 <= m -> 0 <= shr_m (fst (shr_fexp prec emax m e l)).
Proof.
  intros Hm. unfold shr_fexp, shr.
  assert (H0 : 0 <= shr_m (shr_record_of_loc m l))
    by (destruct l as [|[]]; exact Hm).
  destruct (_ - e) as [|p|p]; cbn [fst]; auto.
  apply iter_pos_shr_1_nonneg, H0.
Qed.

Lemma round_nearest_even_nonneg (m : Z) (l : location) :
  0 <= m -> 0 <= round_nearest_even m l.
Proof.
  intros Hm. destruct l as [|[]]; cbn; try lia.
  destruct (Z.even m); lia.
Qed.

(** Rounding a non-negative mantissa gives a number with the sign asked
    for. *)
Lemma binary_round_aux_signed (sx : bool) (mx ex : Z) (lx : location) :
  0 <= mx -> sf_signed sx (binary_round_aux prec emax sx mx ex lx).
Proof.
  intros Hm. unfold binary_round_aux.
  pose proof (shr_fexp_nonneg mx ex lx Hm) as H1.
  destruct (shr_fexp prec emax mx ex lx) as [mrs' e']. cbn [fst] in H1.
  pose proof (shr_fexp_nonneg
                (round_nearest_even (shr_m mrs') (loc_of_shr_record mrs'))
                e' loc_Exact
                (round_nearest_even_nonneg _ _ H1)) as H2.
  destruct (shr_fexp prec emax _ e' loc_Exact) as [mrs'' e''].
  cbn [fst] in H2.
  destruct (shr_m mrs'') as [|m|m]; [reflexivity| |lia].
  destruct (e'' <=? emax - prec); reflexivity.
Qed.

Lemma binary_round_signed (sx : bool) (m : positive) (e : Z) :
  sf_signed sx (binary_round prec emax sx m e).
Proof.
  unfold binary_round. destruct (shl_align _ _ _) as [mz ez].
  apply binary_round_aux_signed. lia.
Qed.

Lemma binary_normalize_number (m e : Z) :
  sf_number (binary_normalize prec emax m e false).
Proof.
  destruct m as [|m|m]; cbn [binary_normalize]; [exact I| |].
  - pose proof (binary_round_signed false m e) as H.
    destruct (binary_round prec emax false m e); exact I || exact H.
  - pose proof (binary_round_signed true m e) as H.
    destruct (binary_round prec emax true m e); exact I || exact H.
Qed.

Lemma binary_normalize_nonneg (m e : Z) :
  0 <= m -> sf_signed false (binary_normalize prec emax m e false).
Proof.
  destruct m as [|m|m]; cbn [binary_normalize]; intros Hm;
    [reflexivity| |lia].
  apply binary_round_signed.
Qed.

(** A non-negative number that is not infinite, divided by a positive
    number, is a non-negative number. *)
Lemma SFdiv_nonneg (x y : spec_float) :
  sf_signed false x -> sf_finite x ->
  sf_signed false y -> (forall s, y <> S754_zero s) ->
  sf_signed false (SFdiv prec emax x y).
Proof.
  destruct x as [sx|sx| |sx mx ex], y as [sy|sy| |sy my ey]; cbn;
    intros Hx Hfx Hy Hnz; subst; try contradiction; try reflexivity;
    try (exfalso; eapply Hnz; reflexivity).
  unfold SFdiv_core_binary.
  set (m' := match _ - _ - _ with
             | 0 => Z.pos mx
             | Z.pos _ => Z.shiftl (Z.pos mx) _
             | Z.neg _ => 0
             end).
  assert (Hm' : 0 <= m').
  { subst m'. destruct (_ - _ - _); try lia.
    apply Z.shiftl_nonneg. lia. }
  pose proof (Z_div_mod m' (Z.pos my) ltac:(lia)) as Hdiv.
  destruct (Z.div_eucl m' (Z.pos my)) as [q r].
  apply (binary_round_aux_signed false). nia.
Qed.

Lemma Prim2SF_zero : Prim2SF 0 = S754_zero false.
Proof. reflexivity. Qed.

Lemma Prim2SF_one : Prim2SF 1 = S754_finite false 4503599627370496 (-52).
Proof. reflexivity. Qed.

Lemma Prim2SF_thousand :
  Prim2SF 1000 = S754_finite false 8796093022208000 (-43).
Proof. reflexivity. Qed.

Lemma Prim2SF_infinity : Prim2SF infinity = S754_infinity false.
Proof. reflexivity. Qed.

(** [1.0 <= y] makes [y] a positive number. *)
Lemma leb_one_positive (y : float) :
  PrimFloat.leb 1 y = true ->
  sf_signed false (Prim2SF y) /\ (forall s, Prim2SF y <> S754_zero s).
Proof.
  rewrite FloatAxioms.leb_spec, Prim2SF_one.
  destruct (Prim2SF y) as [s|[]| |[] m e]; cbn; intros H;
    try discriminate; split; try reflexivity; intros s0; discriminate.
Qed.

Lemma leb_one_nonzero (y : float) :
  PrimFloat.leb 1 y = true -> PrimFloat.eqb y 0 = false.
Proof.
  intros H. destruct (leb_one_positive y H) as [Hs Hnz].
  rewrite FloatAxioms.eqb_spec, Prim2SF_zero.
  destruct (Prim2SF y) as [s|[]| |[] m e]; cbn in *; try reflexivity;
    try discriminate; try contradiction.
  exfalso. eapply Hnz; reflexivity.
Qed.

(** A number with a clear sign bit is [>= 0.0]. *)
Lemma signed_leb_zero (x : float) :
  sf_signed false (Prim2SF x) -> PrimFloat.leb 0 x = true.
Proof.
  rewrite FloatAxioms.leb_spec, Prim2SF_zero.
  destruct (Prim2SF x) as [s|s| |s m e]; cbn; intros H; subst;
    try contradiction; reflexivity.
Qed.

Lemma is_infinity_false (x : float) :
  is_infinity x = false -> forall s, Prim2SF x <> S754_infinity s.
Proof.
  unfold is_infinity. rewrite FloatAxioms.eqb_spec, FloatAxioms.abs_spec, Prim2SF_infinity.
  intros H s E. rewrite E in H. discriminate H.
Qed.

Lemma is_finite_spec (x : float) :
  is_finite x = true -> sf_finite (Prim2SF x).
Proof.
  unfold is_finite, is_nan, is_infinity.
  rewrite !FloatAxioms.eqb_spec, FloatAxioms.abs_spec, Prim2SF_infinity.
  destruct (Prim2SF x) as [s|s| |s m e]; cbn; try reflexivity;
    try discriminate; auto.
  destruct s; cbn; discriminate.
Qed.

(** The number of binary digits of a mantissa, against powers of two. *)
Lemma digits2_pos_bound (p : positive) : forall k : Z,
  Z.pos p < 2 ^ k -> 0 <= k -> Z.pos (digits2_pos p) <= k.
Proof.
  induction p as [p IH|p IH|]; intros k Hlt Hk; cbn [digits2_pos].
  - assert (Hk1 : 1 <= k).
    { destruct (Z.eq_dec k 0) as [->|]; [cbn in Hlt; lia|lia]. }
    replace k with (Z.succ (k - 1)) in Hlt by lia.
    rewrite Z.pow_succ_r in Hlt by lia.
    specialize (IH (k - 1) ltac:(lia) ltac:(lia)). lia.
  - assert (Hk1 : 1 <= k).
    { destruct (Z.eq_dec k 0) as [->|]; [cbn in Hlt; lia|lia]. }
    replace k with (Z.succ (k - 1)) in Hlt by lia.
    rewrite Z.pow_succ_r in Hlt by lia.
    specialize (IH (k - 1) ltac:(lia) ltac:(lia)). lia.
  - destruct (Z.eq_dec k 0) as [->|]; [cbn in Hlt; lia|lia].
Qed.

Lemma digits2_pos_lt (p : positive) : Z.pos p < 2 ^ Z.pos (digits2_pos p).
Proof.
  induction p as [p IH|p IH|]; cbn [digits2_pos]; [| |reflexivity].
  - rewrite Pos2Z.inj_succ, Z.pow_succ_r by lia. lia.
  - rewrite Pos2Z.inj_succ, Z.pow_succ_r by lia. lia.
Qed.

Lemma digits2_pos_iter_xO (p d : positive) :
  digits2_pos (Pos.iter xO p d) = (digits2_pos p + d)%positive.
Proof.
  induction d as [|d IH] using Pos.peano_ind.
  - cbn. lia.
  - rewrite Pos.iter_succ. cbn [digits2_pos]. rewrite IH. lia.
Qed.

(** Shifting right never grows a non-negative mantissa. *)
Lemma shr_1_bounds (r : shr_record) :
  0 <= shr_m r -> 0 <= shr_m (shr_1 r) <= shr_m r.
Proof.
  destruct r as [m r s]. cbn [shr_m].
  destruct m as [|[p|p|]|p]; cbn; lia.
Qed.

Lemma iter_pos_shr_1_bounds (p : positive) : forall r : shr_record,
  0 <= shr_m r -> 0 <= shr_m (SpecFloat.iter_pos shr_1 p r) <= shr_m r.
Proof.
  induction p as [p IH|p IH|]; intros r Hr; cbn [SpecFloat.iter_pos].
  - pose proof (shr_1_bounds r Hr) as H1.
    pose proof (IH _ (proj1 H1)) as H2.
    pose proof (IH _ (proj1 H2)) as H3. lia.
  - pose proof (IH _ Hr) as H2.
    pose proof (IH _ (proj1 H2)) as H3. lia.
  - apply shr_1_bounds, Hr.
Qed.

Lemma shr_fexp_bounds (m e : Z) (l : location) :
  0 <= m ->
  0 <= shr_m (fst (shr_fexp prec emax m e l)) <= m
  /\ snd (shr_fexp prec emax m e l)
     <= Z.max e (fexp prec emax (Zdigits2 m + e)).
Proof.
  intros Hm. unfold shr_fexp, shr.
  assert (H0 : shr_m (shr_record_of_loc m l) = m)
    by (destruct l as [|[]]; reflexivity).
  destruct (fexp prec emax (Zdigits2 m + e) - e) as [|p|p] eqn:E;
    cbn [fst snd]; rewrite ?H0; try lia.
  pose proof (iter_pos_shr_1_bounds p (shr_record_of_loc m l) ltac:(lia)) as H.
  rewrite H0 in H. lia.
Qed.

Lemma Zdigits2_bound (m k : Z) :
  0 <= m < 2 ^ k -> 0 <= k -> Zdigits2 m <= k.
Proof.
  intros [Hm Hlt] Hk. destruct m as [|p|p]; cbn; try lia.
  apply digits2_pos_bound; assumption.
Qed.

Lemma round_nearest_even_le (m : Z) (l : location) :
  round_nearest_even m l <= m + 1.
Proof. destruct l as [|[]]; cbn; try lia. destruct (Z.even m); lia. Qed.

(** Rounding a mantissa below [2^63] with a small exponent does not
    overflow. *)
Lemma binary_round_aux_no_overflow (sx : bool) (mx ex : Z) (lx : location) :
  0 <= mx < 2 ^ 63 -> ex <= 10 ->
  forall s, binary_round_aux prec emax sx mx ex lx <> S754_infinity s.
Proof.
  intros Hm He s. unfold binary_round_aux.
  pose proof (shr_fexp_bounds mx ex lx ltac:(lia)) as [H1 H1e].
  pose proof (Zdigits2_bound mx 63 Hm ltac:(lia)) as Hd.
  destruct (shr_fexp prec emax mx ex lx) as [mrs' e']. cbn [fst snd] in *.
  set (m2 := round_nearest_even (shr_m mrs') (loc_of_shr_record mrs')).
  assert (Hm2 : m2 <= shr_m mrs' + 1) by apply round_nearest_even_le.
  assert (Hm2' : 0 <= m2 < 2 ^ 64).
  { split; [|lia]. subst m2. destruct (loc_of_shr_record mrs') as [|[]]; cbn; try lia.
    destruct (Z.even _); lia. }
  pose proof (shr_fexp_bounds m2 e' loc_Exact ltac:(lia)) as [H2 H2e].
  pose proof (Zdigits2_bound m2 64 Hm2' ltac:(lia)) as Hd2.
  destruct (shr_fexp prec emax m2 e' loc_Exact) as [mrs'' e'']. cbn [fst snd] in *.
  unfold fexp, emin, prec, emax in *.
  destruct (shr_m mrs'') as [|m|m]; try discriminate.
  destruct (Z.leb_spec e'' (1024 - 53)); [discriminate|lia].
Qed.

Lemma binary_normalize_no_overflow (n : Z) :
  0 <= n < 2 ^ 63 ->
  forall s, binary_normalize prec emax n 0 false <> S754_infinity s.
Proof.
  intros Hn s. destruct n as [|m|m]; cbn [binary_normalize]; try discriminate; [|lia].
  unfold binary_round, shl_align.
  pose proof (digits2_pos_bound m 63 ltac:(lia) ltac:(lia)) as Hd.
  pose proof (digits2_pos_lt m) as Hlt.
  assert (Hf : fexp prec emax (Z.pos (digits2_pos m) + 0) = Z.pos (digits2_pos m) - 53).
  { unfold fexp, emin, prec, emax. lia. }
  rewrite Hf.
  destruct (Z.pos (digits2_pos m) - 53 - 0) as [|d|d] eqn:E.
  - apply binary_round_aux_no_overflow; lia.
  - apply binary_round_aux_no_overflow; lia.
  - apply binary_round_aux_no_overflow; [|lia].
    split; [lia|].
    pose proof (digits2_pos_lt (Pos.iter xO m d)) as H.
    rewrite digits2_pos_iter_xO in H.
    eapply Z.lt_le_trans; [exact H|].
    apply Z.pow_le_mono_r; lia.
Qed.

(** Below [2^63], rounding an integer is the hardware conversion of a
    63-bit integer. *)
Lemma of_uint63_small (n : Z) :
  0 <= n < 2 ^ 63 ->
  SF2Prim (binary_normalize prec emax n 0 false) = of_uint63 (Uint63.of_Z n)
  /\ Prim2SF (of_uint63 (Uint63.of_Z n))
     = binary_normalize prec emax n 0 false.
Proof.
  intros Hn.
  assert (E : Prim2SF (of_uint63 (Uint63.of_Z n))
              = binary_normalize prec emax n 0 false).
  { rewrite of_uint63_spec. f_equal.
    change (Uint63Axioms.to_Z (Uint63.of_Z n))
      with (Uint63.to_Z (Uint63.of_Z n)).
    rewrite Uint63.of_Z_spec. apply Z.mod_small.
    change Uint63.wB with (2 ^ 63). lia. }
  split; [|exact E]. rewrite <- E. apply SF2Prim_Prim2SF.
Qed.

(** What the conversion of an [int] below [2^63] returns: a finite number
    with a clear sign bit. *)
Lemma float_of_int_small (n : Z) (x : float) :
  0 <= n < 2 ^ 63 ->
  float_of_int n = Ok x ->
  Prim2SF x = binary_normalize prec emax n 0 false
  /\ sf_signed false (Prim2SF x) /\ sf_finite (Prim2SF x).
Proof.
  intros Hn. unfold float_of_int.
  destruct (of_uint63_small n Hn) as [E1 E2]. rewrite E1.
  destruct (is_infinity _) eqn:Hinf; [discriminate|].
  intros [= <-].
  pose proof (is_infinity_false _ Hinf) as Hni. rewrite E2 in *.
  pose proof (binary_normalize_nonneg n 0 ltac:(lia)) as Hs.
  split; [reflexivity|]. split; [exact Hs|].
  destruct (binary_normalize prec emax n 0 false) as [s0|s0| |s0 m e];
    try exact I; try contradiction.
  exfalso. eapply Hni; reflexivity.
Qed.

(** Below [2^63] the conversion of an [int] succeeds. *)
Lemma float_of_int_defined (n : Z) :
  0 <= n < 2 ^ 63 -> exists x, float_of_int n = Ok x.
Proof.
  intros Hn. unfold float_of_int.
  destruct (of_uint63_small n Hn) as [E1 E2]. rewrite E1.
  assert (Hinf : is_infinity (of_uint63 (Uint63.of_Z n)) = false).
  { unfold is_infinity.
    rewrite FloatAxioms.eqb_spec, FloatAxioms.abs_spec, Prim2SF_infinity, E2.
    pose proof (binary_normalize_no_overflow n Hn) as Hno.
    destruct (binary_normalize prec emax n 0 false) as [s0|s0| |s0 m e];
      try reflexivity.
    exfalso. eapply Hno; reflexivity. }
  rewrite Hinf. eexists. reflexivity.
Qed.

(** The rate the loop computes is [>= 0.0]. *)
Lemma truediv_nonneg (n : Z) (y q : float) :
  0 <= n < 2 ^ 63 ->
  PrimFloat.leb 1 y = true ->
  truediv_int_float n y = Ok q ->
  PrimFloat.leb 0 q = true.
Proof.
  intros Hn Hy. unfold truediv_int_float.
  destruct (float_of_int n) as [x| | |] eqn:Hx; try discriminate.
  rewrite (leb_one_nonzero y Hy). intros [= <-].
  destruct (float_of_int_small n x Hn Hx) as (_ & Hsx & Hfx).
  destruct (leb_one_positive y Hy) as [Hsy Hnz].
  apply signed_leb_zero. rewrite div_spec.
  apply SFdiv_nonneg; assumption.
Qed.

Lemma SFsub_number (x y : spec_float) :
  sf_finite x -> sf_finite y -> sf_number (SFsub prec emax x y).
Proof.
  destruct x as [sx|sx| |sx mx ex], y as [sy|sy| |sy my ey]; cbn;
    intros Hx Hy; try contradiction; try exact I.
  - destruct sx, sy; exact I.
  - apply binary_normalize_number.
Qed.

Lemma SFmul_thousand_number (x : spec_float) :
  sf_number x -> sf_number (SFmul prec emax x (Prim2SF 1000)).
Proof.
  rewrite Prim2SF_thousand.
  destruct x as [sx|sx| |sx mx ex]; cbn; intros Hx; try contradiction;
    try exact I.
  pose proof (binary_round_aux_signed (xorb sx false)
                (Z.pos (mx * 8796093022208000)) (ex + -43) loc_Exact
                ltac:(lia)) as H.
  destruct (binary_round_aux _ _ _ _ _ _); exact I || exact H.
Qed.

(** [max(a, 0.0)] is [>= 0.0] for every number [a]. *)
Lemma py_max_zero_nonneg (a : float) :
  sf_number (Prim2SF a) -> PrimFloat.leb 0 (py_max a 0) = true.
Proof.
  unfold py_max. rewrite FloatAxioms.ltb_spec.
  destruct (SFltb (Prim2SF a) (Prim2SF 0)) eqn:Hlt; [reflexivity|].
  rewrite FloatAxioms.leb_spec. rewrite Prim2SF_zero in *.
  destruct (Prim2SF a) as [s|[]| |[] m e]; cbn in *; intros Hn;
    try contradiction; try discriminate; reflexivity.
Qed.

(** The latency the display records is [>= 0.0] when both readings of the
    clock are finite. *)
Lemma latency_nonneg (now timestamp : float) :
  is_finite now = true -> is_finite timestamp = true ->
  PrimFloat.leb 0 (py_max ((now - timestamp) * 1000) 0) = true.
Proof.
  intros Hnow Hts. apply py_max_zero_nonneg.
  rewrite mul_spec, sub_spec.
  apply SFmul_thousand_number, SFsub_number; apply is_finite_spec;
    assumption.
Qed.

End FloatFacts.

(** ** The read primitive *)

Section Recvall.

Implicit Types (evs : list recv_event) (data : bytes) (length : Z).

Lemma skipn_nil_length {A} (n : nat) (l : list A) :
  skipn n l = [] -> (List.length l <= n)%nat.
Proof.
  revert l; induction n as [|n IH]; intros [|a l]; simpl; intros H;
    try discriminate; try lia.
  specialize (IH l H). lia.
Qed.

Lemma skipn_cons_length {A} (n : nat) (l : list A) a l' :
  skipn n l = a :: l' -> (n < List.length l)%nat.
Proof.
  revert l; induction n as [|n IH]; intros [|b l]; simpl; intros H;
    try discriminate; try lia.
  specialize (IH l H). lia.
Qed.

(** What the loop of [_recvall] computes, for any amount of data already
    gathered, given one turn more than there are events. *)
Lemma recvall_loop_spec fuel : forall evs length data,
  (List.length evs < fuel)%nat ->
  match recvall_loop fuel evs length data with
  | (Ok (Some bs), evs') =>
      exists got,
        bs = data ++ got
        /\ leading_bytes evs = got ++ leading_bytes evs'
        /\ terminator evs' = terminator evs
        /\ Z.of_nat (List.length got)
           = Z.max 0 (length - Z.of_nat (List.length data))
  | (Ok None, _) =>
      Z.of_nat (List.length data + List.length (leading_bytes evs)) < length
      /\ (terminator evs = None \/ terminator evs = Some Timeout)
  | (Raise e, _) =>
      e = ConnectionError
      /\ Z.of_nat (List.length data + List.length (leading_bytes evs)) < length
      /\ terminator evs = Some Reset
  | (Blocks, _) | (OutOfFuel, _) => False
  end.
Proof.
  induction fuel as [|fuel IH]; intros evs length data Hfuel; [lia|].
  cbn [recvall_loop].
  destruct (Z.ltb_spec (Z.of_nat (List.length data)) length) as [Hlt|Hge].
  2:{ exists []. rewrite app_nil_r. cbn. repeat split; lia. }
  destruct evs as [|[b bs| |] rest]; cbn [recv].
  - cbn. split; [lia|now left].
  - remember (Z.to_nat (length - Z.of_nat (List.length data))) as n eqn:En.
    assert (Hn : (1 <= n)%nat) by lia.
    destruct (skipn n (b :: bs)) as [|b' bs'] eqn:Hskip.
    + apply skipn_nil_length in Hskip. cbn [List.length] in Hskip, Hfuel.
      specialize (IH rest length (data ++ b :: bs) ltac:(lia)).
      destruct (recvall_loop fuel rest length (data ++ b :: bs))
        as [[[bs0|]|e| |] evs'].
      * destruct IH as (got & -> & Hlead & Hterm & Hlen).
        exists ((b :: bs) ++ got). cbn [leading_bytes terminator].
        rewrite Hlead, <- !app_assoc. repeat split; auto.
        rewrite length_app in Hlen |- *. cbn [List.length] in *. lia.
      * cbn [leading_bytes terminator]. rewrite ?length_app in *.
        cbn [List.length] in *.
        destruct IH as [H1 H2]. split; [lia|exact H2].
      * cbn [leading_bytes terminator]. rewrite ?length_app in *.
        cbn [List.length] in *.
        destruct IH as (H0 & H1 & H2). repeat split; auto; lia.
      * exact IH.
      * exact IH.
    + pose proof (skipn_cons_length _ _ _ _ Hskip) as Hlen.
      pose proof (firstn_skipn n (b :: bs)) as Hsplit.
      rewrite Hskip in Hsplit.
      assert (Hf : List.length (firstn n (b :: bs)) = n)
        by (rewrite length_firstn; lia).
      destruct n as [|n']; [lia|]. cbn [firstn] in *.
      assert (Hdone : (Z.of_nat (List.length (data ++ b :: firstn n' bs))
                       <? length) = false).
      { apply Z.ltb_ge. rewrite length_app. cbn [List.length] in *. lia. }
      destruct fuel as [|fuel']; cbn [recvall_loop]; rewrite Hdone.
      all: exists (b :: firstn n' bs); cbn [leading_bytes terminator].
      all: repeat split; auto.
      all: try (rewrite <- Hsplit, <- app_assoc; reflexivity).
      all: cbn [List.length] in *; lia.
  - cbn. split; [|now right].
    rewrite Nat2Z.inj_add. lia.
  - cbn. repeat split; auto. rewrite Nat2Z.inj_add. lia.
Qed.

(** The same for [_recvall] itself, which starts from no data. *)
Lemma recvall_cases evs length :
  1 <= length ->
  match _recvall evs length with
  | (Ok (Some bs), evs') =>
      Z.of_nat (List.length bs) = length
      /\ leading_bytes evs = bs ++ leading_bytes evs'
      /\ terminator evs' = terminator evs
  | (Ok None, _) =>
      Z.of_nat (List.length (leading_bytes evs)) < length
      /\ (terminator evs = None \/ terminator evs = Some Timeout)
  | (Raise e, _) =>
      e = ConnectionError
      /\ Z.of_nat (List.length (leading_bytes evs)) < length
      /\ terminator evs = Some Reset
  | (Blocks, _) | (OutOfFuel, _) => False
  end.
Proof.
  intros Hlen. unfold _recvall.
  pose proof (recvall_loop_spec (S (List.length evs)) evs length []
                ltac:(lia)) as H.
  destruct (recvall_loop (S (List.length evs)) evs length [])
    as [[[bs|]|e| |] evs']; cbn [List.length app Nat.add] in H; auto.
  destruct H as (got & -> & Hlead & Hterm & Hgot).
  cbn [app]. repeat split; auto. lia.
Qed.

(** When the bytes are there, they are returned and taken off the stream,
    however they were cut into chunks. *)
Lemma recvall_enough evs length bs rest :
  1 <= length ->
  Z.of_nat (List.length bs) = length ->
  leading_bytes evs = bs ++ rest ->
  exists evs',
    _recvall evs length = (Ok (Some bs), evs')
    /\ leading_bytes evs' = rest
    /\ terminator evs' = terminator evs.
Proof.
  intros Hlen Hbs Hlead.
  pose proof (recvall_cases evs length Hlen) as H.
  destruct (_recvall evs length) as [[[bs0|]|e| |] evs'].
  - destruct H as (Hlen0 & Hlead0 & Hterm).
    rewrite Hlead in Hlead0.
    apply app_inj_1 in Hlead0 as [-> ->]; [|lia].
    exists evs'. auto.
  - destruct H as [H _]. rewrite Hlead, length_app in H. lia.
  - destruct H as (_ & H & _). rewrite Hlead, length_app in H. lia.
  - destruct H.
  - destruct H.
Qed.

End Recvall.

(** C7.  [_recvall] is all-or-nothing.  For every requested length
    [n >= 1] and every incoming stream, with [avail] the bytes that arrive
    before the stream first ends, times out or is reset:
    - if at least [n] bytes are available, the call returns exactly the first
      [n] of them, in order, whatever the chunks they came in;
    - if fewer are available and the stream then ends (EOF) or times out, the
      call returns [None];
    - if fewer are available and the connection is then reset, the exception
      of [recv] leaves the call, which returns nothing;
    - whatever the call returns as bytes has length exactly [n], and is
      followed on the stream by what the socket still holds: never a proper
      prefix of the request.
    The call always finishes. *)
Theorem recvall_all_or_nothing (evs : list recv_event) (n : Z) :
  1 <= n ->
  let avail := leading_bytes evs in
  (n <= Z.of_nat (List.length avail) ->
     fst (_recvall evs n) = Ok (Some (firstn (Z.to_nat n) avail)))
  /\ (Z.of_nat (List.length avail) < n ->
      terminator evs = None \/ terminator evs = Some Timeout ->
      fst (_recvall evs n) = Ok None)
  /\ (Z.of_nat (List.length avail) < n ->
      terminator evs = Some Reset ->
      fst (_recvall evs n) = Raise ConnectionError)
  /\ (forall bs evs',
      _recvall evs n = (Ok (Some bs), evs') ->
      Z.of_nat (List.length bs) = n /\ avail = bs ++ leading_bytes evs')
  /\ fst (_recvall evs n) <> OutOfFuel
  /\ fst (_recvall evs n) <> Blocks.
Proof.
  intros Hn avail. subst avail.
  pose proof (recvall_cases evs n Hn) as H.
  destruct (_recvall evs n) as [[[bs|]|e| |] evs'] eqn:E; cbn [fst];
    try contradiction.
  - destruct H as (Hlen & Hlead & Hterm).
    refine (conj _ (conj _ (conj _ (conj _ (conj _ _))))); try discriminate.
    + intros _. rewrite Hlead.
      replace (Z.to_nat n) with (List.length bs + 0)%nat by lia.
      rewrite firstn_app_2. cbn. now rewrite app_nil_r.
    + rewrite Hlead, length_app. lia.
    + rewrite Hlead, length_app. lia.
    + intros bs0 evs0 [= <- <-]. auto.
  - destruct H as (Hlen & Hterm).
    refine (conj _ (conj _ (conj _ (conj _ (conj _ _))))); try discriminate;
      try lia; auto.
    intros _ Hr. destruct Hterm; congruence.
  - destruct H as (-> & Hlen & Hterm).
    refine (conj _ (conj _ (conj _ (conj _ (conj _ _))))); try discriminate;
      try lia; auto.
    intros _ [H|H]; congruence.
Qed.

Lemma recvall_all_or_nothing_witness :
  1 <= 4
  /\ fst (_recvall [Chunk x00 [x00]; Chunk x00 [x02; xaa]] 4)
     = Ok (Some [x00; x00; x00; x02])
  /\ fst (_recvall [Chunk x00 [x00]; Timeout; Chunk x00 [x02; xaa]] 4)
     = Ok None.
Proof.
  split; [lia|]. split.
  - apply (recvall_all_or_nothing
             [Chunk x00 [x00]; Chunk x00 [x02; xaa]] 4); cbn; lia.
  - apply (recvall_all_or_nothing
             [Chunk x00 [x00]; Timeout; Chunk x00 [x02; xaa]] 4);
      cbn; auto; lia.
Defined.

(** ** The hand-off queue *)

Lemma queue_full_nonempty (q : Queue) :
  queue_full q = true -> items q <> [].
Proof.
  unfold queue_full, qsize. intros H E. rewrite E in H.
  apply andb_true_iff in H as [H1%Z.ltb_lt H2%Z.leb_le]. cbn in H2. lia.
Qed.

Lemma queue_full_tl (q : Queue) :
  queue_full (mkQueue (maxsize q) (tl (items q))) = true ->
  queue_full q = true.
Proof.
  unfold queue_full, qsize. cbn. intros H.
  apply andb_true_iff in H as [H1 H2%Z.leb_le]. rewrite H1. cbn.
  apply Z.leb_le. destruct (items q); cbn [tl List.length] in *; lia.
Qed.

(** [_push_frame] in closed form: it always returns, having replaced the
    queue by [pushed] and [last_updated] by the timestamp. *)
Lemma push_frame_eq (frame_data : bytes) (timestamp : float) (w : world) :
  _push_frame frame_data timestamp w
  = (Ok tt,
     set_stats
       (mkFrameStats (fps (stats w)) (latency_ms (stats w)) timestamp)
       (set_frame_queue (pushed (frame_queue w) (frame_data, timestamp)) w)).
Proof.
  unfold _push_frame, pushed, bind, get_world, try_except, get_nowait,
    put_nowait, queue_get, queue_put, modify, ret.
  destruct (queue_full (frame_queue w)) eqn:Hfull.
  - pose proof (queue_full_nonempty _ Hfull) as Hne.
    destruct (items (frame_queue w)) as [|old rest] eqn:Hitems; [easy|].
    cbn.
    destruct (queue_full (mkQueue (maxsize (frame_queue w)) rest)) eqn:Hfull';
      cbn; reflexivity.
  - cbn. rewrite Hfull. reflexivity.
Qed.

(** C3.  [_push_frame] never blocks and never raises, in any state of the
    queue and for any frame: it returns normally.  On the capacity-1 queue
    of the application, whether the slot is empty or holds an undrained
    frame, the queue afterwards holds the new pair and nothing else: an old
    occupant is discarded, never kept beside the new frame. *)
Theorem push_frame_drop_oldest (frame_data : bytes) (timestamp : float)
    (w : world) :
  fst (_push_frame frame_data timestamp w) = Ok tt
  /\ (maxsize (frame_queue w) = 1 ->
      (List.length (items (frame_queue w)) <= 1)%nat ->
      frame_queue (snd (_push_frame frame_data timestamp w))
      = mkQueue 1 [(frame_data, timestamp)]).
Proof.
  rewrite push_frame_eq. cbn [fst snd]. split; [reflexivity|].
  intros Hmax Hlen. cbn. unfold pushed, queue_full, qsize.
  destruct (frame_queue w) as [m its]. cbn in *. subst m.
  destruct its as [|old [|x rest]]; cbn in *; try lia; reflexivity.
Qed.

Lemma push_frame_drop_oldest_witness :
  let old := ([x01], 1%float) in
  let w := set_frame_queue (mkQueue 1 [old])
             (initial_world [] 5000 0 (fun _ => 0%float) None [] (fun _ => true)) in
  frame_queue (snd (_push_frame [x02] 2 w)) = mkQueue 1 [([x02], 2%float)].
Proof.
  intros old w.
  apply (push_frame_drop_oldest [x02] 2 w); cbn; [reflexivity|lia].
Defined.

(** C10.  [_push_frame] sets [stats.last_updated] to the timestamp of the
    frame on every call and leaves [fps] and [latency_ms] as they were.  This
    holds in particular when the queue is still full at insertion, where the
    new frame is discarded and the queue keeps what it had after the
    eviction: [last_updated] records that the network loop received a frame,
    not that the consumer was handed one. *)
Theorem push_frame_last_updated (frame_data : bytes) (timestamp : float)
    (w : world) :
  let w' := snd (_push_frame frame_data timestamp w) in
  last_updated (stats w') = timestamp
  /\ fps (stats w') = fps (stats w)
  /\ latency_ms (stats w') = latency_ms (stats w)
  /\ (queue_full (mkQueue (maxsize (frame_queue w)) (tl (items (frame_queue w))))
      = true ->
      queue_full (frame_queue w) = true
      /\ items (frame_queue w') = tl (items (frame_queue w))
      /\ last_updated (stats w') = timestamp).
Proof.
  rewrite push_frame_eq. cbn.
  refine (conj eq_refl (conj eq_refl (conj eq_refl _))).
  intros H. pose proof (queue_full_tl _ H) as Hf.
  refine (conj Hf (conj _ eq_refl)).
  unfold pushed. rewrite Hf, H. reflexivity.
Qed.

Lemma push_frame_last_updated_witness :
  let w := set_frame_queue (mkQueue 1 [([x01], 1%float); ([x02], 2%float)])
             (initial_world [] 5000 0 (fun _ => 0%float) None [] (fun _ => true)) in
  let w' := snd (_push_frame [x03] 3 w) in
  items (frame_queue w') = [([x02], 2%float)]
  /\ last_updated (stats w') = 3%float.
Proof.
  intros w w'.
  pose proof (push_frame_last_updated [x03] 3 w) as (_ & _ & _ & H).
  destruct H as (_ & H1 & H2); [reflexivity|].
  split; [exact H1|exact H2].
Defined.

(** ** The receive loop *)

Section ReceiveLoop.

Variables (fd : nat) (w : world) (s : socket).
Hypothesis Hsock : sockets w !! fd = Some s.
Hypothesis Hopen : closed s = false.

(** Reading [n] bytes that are there: the call hands them over and leaves
    the rest on the socket. *)
Lemma on_socket_recvall (n : Z) (bs rest : bytes) :
  1 <= n ->
  Z.of_nat (List.length bs) = n ->
  leading_bytes (incoming s) = bs ++ rest ->
  exists evs',
    on_socket fd (fun evs => _recvall evs n) w
    = (Ok (Some bs),
       set_sockets (<[fd := set_incoming s evs']> (sockets w)) w)
    /\ leading_bytes evs' = rest
    /\ terminator evs' = terminator (incoming s).
Proof.
  intros Hn Hlen Hlead.
  destruct (recvall_enough (incoming s) n bs rest Hn Hlen Hlead)
    as (evs' & Hrecv & Hrest & Hterm).
  exists evs'. unfold on_socket. rewrite Hsock, Hopen, Hrecv. auto.
Qed.

(** The header alone: four bytes are taken off the socket. *)
Lemma struct_unpack_I_length (header : bytes) (n : Z) :
  struct_unpack_I header = Ok n -> List.length header = 4%nat.
Proof.
  destruct header as [|b0 [|b1 [|b2 [|b3 [|b4 t]]]]]; cbn;
    intros H; try discriminate; reflexivity.
Qed.

End ReceiveLoop.

Lemma truediv_int_float_raises (n : Z) (y : float) (e : exn) :
  truediv_int_float n y = Raise e ->
  e = OverflowError \/ e = ZeroDivisionError.
Proof.
  unfold truediv_int_float, float_of_int.
  destruct (is_infinity _); [intros [= <-]; now left|].
  destruct (PrimFloat.eqb y 0); [intros [= <-]; now right|discriminate].
Qed.

(** One turn of the loop on a well-formed wire unit: a header that decodes
    to a valid length [n], then [n] bytes of payload. *)
Lemma loop_body_valid (fd : nat) (l : window) (w : world) (s : socket)
    (header payload rest : bytes) (n : Z) :
  sockets w !! fd = Some s ->
  closed s = false ->
  leading_bytes (incoming s) = header ++ payload ++ rest ->
  struct_unpack_I header = Ok n ->
  1 <= n <= MAX_FRAME_LENGTH ->
  Z.of_nat (List.length payload) = n ->
  exists evs',
    leading_bytes evs' = rest
    /\ terminator evs' = terminator (incoming s)
    /\ loop_body fd l w
       = window_step l (clock w (ticks w)) (after_frame fd s evs' payload w).
Proof.
  intros Hsock Hopen Hlead Hhdr Hn Hlen.
  pose proof (struct_unpack_I_length _ _ Hhdr) as Hlen4.
  destruct (on_socket_recvall fd w s Hsock Hopen 4 header (payload ++ rest)
              ltac:(lia) ltac:(lia) Hlead) as (evs1 & Hrecv1 & Hlead1 & Hterm1).
  set (w1 := set_sockets (<[fd := set_incoming s evs1]> (sockets w)) w) in *.
  assert (Hsock1 : sockets w1 !! fd = Some (set_incoming s evs1)).
  { subst w1. cbn. apply list_lookup_insert_eq.
    eapply lookup_lt_Some, Hsock. }
  destruct (on_socket_recvall fd w1 (set_incoming s evs1) Hsock1 Hopen n
              payload rest ltac:(lia) Hlen Hlead1)
    as (evs2 & Hrecv2 & Hlead2 & Hterm2).
  exists evs2. split; [exact Hlead2|]. split; [cbn in Hterm2; congruence|].
  assert (Hhne : falsy (Some header) = false)
    by (destruct header; [discriminate|reflexivity]).
  assert (Hpne : falsy (Some payload) = false).
  { destruct payload; [cbn in Hlen; lia|reflexivity]. }
  assert (Hrange : (n <=? 0) || (MAX_FRAME_LENGTH <? n) = false).
  { apply orb_false_iff. split; [apply Z.leb_gt|apply Z.ltb_ge]; lia. }
  assert (Hrf : receive_frame fd l w
                = window_step l (clock w (ticks w))
                    (after_frame fd s evs2 payload w)).
  { unfold receive_frame, bind at 1. rewrite Hrecv1, Hhne. cbv beta iota.
    unfold bind at 1, lift. simpl default. rewrite Hhdr, Hrange.
    unfold bind at 1. rewrite Hrecv2, Hpne. cbv beta iota. simpl default.
    unfold bind at 1, time_time. unfold bind at 1.
    rewrite push_frame_eq. unfold window_step, after_frame.
    subst w1. cbn [sockets set_sockets set_ticks clock ticks stats
                   frame_queue set_incoming closed incoming sent write_fails].
    rewrite list_insert_insert_eq.
    destruct (PrimFloat.leb 1 _); [|reflexivity].
    unfold bind, lift, modify, ret.
    destruct (truediv_int_float _ _); reflexivity. }
  unfold loop_body, try_except. rewrite Hrf.
  unfold window_step.
  destruct (PrimFloat.leb 1 _); [|reflexivity].
  destruct (truediv_int_float _ _) eqn:Hdiv; try reflexivity.
  apply truediv_int_float_raises in Hdiv as [-> | ->]; reflexivity.
Qed.

(** One turn of the loop on a header whose length is out of bounds: the four
    bytes of the header are taken off the socket and the loop goes on;
    nothing else is read or changed. *)
Lemma loop_body_invalid (fd : nat) (l : window) (w : world) (s : socket)
    (header rest : bytes) (n : Z) :
  sockets w !! fd = Some s ->
  closed s = false ->
  leading_bytes (incoming s) = header ++ rest ->
  struct_unpack_I header = Ok n ->
  n <= 0 \/ MAX_FRAME_LENGTH < n ->
  exists evs',
    leading_bytes evs' = rest
    /\ terminator evs' = terminator (incoming s)
    /\ loop_body fd l w
       = (Ok (Continue l),
          set_sockets (<[fd := set_incoming s evs']> (sockets w)) w).
Proof.
  intros Hsock Hopen Hlead Hhdr Hn.
  pose proof (struct_unpack_I_length _ _ Hhdr) as Hlen4.
  destruct (on_socket_recvall fd w s Hsock Hopen 4 header rest
              ltac:(lia) ltac:(lia) Hlead) as (evs1 & Hrecv1 & Hlead1 & Hterm1).
  exists evs1. split; [exact Hlead1|]. split; [exact Hterm1|].
  assert (Hhne : falsy (Some header) = false)
    by (destruct header; [discriminate|reflexivity]).
  assert (Hrange : (n <=? 0) || (MAX_FRAME_LENGTH <? n) = true).
  { apply orb_true_iff. destruct Hn; [left; apply Z.leb_le|right; apply Z.ltb_lt];
      lia. }
  unfold loop_body, try_except, receive_frame, bind at 1.
  rewrite Hrecv1, Hhne. cbv beta iota.
  unfold bind at 1, lift. simpl default. rewrite Hhdr, Hrange. reflexivity.
Qed.

(** C2.  For every valid frame length [1 <= n <= 5*1024*1024]: when the
    bytes arriving on the connection are a 4-byte big-endian header declaring
    [n], then [n] bytes of payload (then anything), however they are cut into
    chunks, one turn of the receive loop
    - leaves in the capacity-1 hand-off queue exactly one item, the payload
      byte for byte with the time of its receipt (and on a queue that is not
      full it appends exactly that one item);
    - has taken the header and the payload, and nothing more, off the
      connection, so that the next turn starts at the next wire unit and the
      payload cannot be pushed again;
    - does not end the loop, and goes on to the next turn whenever the frame
      count of the window is below [2^63 - 1]. *)
Theorem valid_frame_pushed_once (fd : nat) (l : window) (w : world)
    (s : socket) (header payload rest : bytes) (n : Z) :
  sockets w !! fd = Some s ->
  closed s = false ->
  leading_bytes (incoming s) = header ++ payload ++ rest ->
  struct_unpack_I header = Ok n ->
  1 <= n <= 5 * 1024 * 1024 ->
  Z.of_nat (List.length payload) = n ->
  let w' := snd (loop_body fd l w) in
  let now := clock w (ticks w) in
  (maxsize (frame_queue w) = 1 ->
   (List.length (items (frame_queue w)) <= 1)%nat ->
   items (frame_queue w') = [(payload, now)])
  /\ (queue_full (frame_queue w) = false ->
      items (frame_queue w') = items (frame_queue w) ++ [(payload, now)])
  /\ (exists s', sockets w' !! fd = Some s'
                 /\ leading_bytes (incoming s') = rest)
  /\ fst (loop_body fd l w) <> Ok Break
  /\ (0 <= frame_count l < 2 ^ 63 - 1 ->
      exists l', fst (loop_body fd l w) = Ok (Continue l')).
Proof.
  intros Hsock Hopen Hlead Hhdr Hn Hlen.
  destruct (loop_body_valid fd l w s header payload rest n Hsock Hopen Hlead
              Hhdr Hn Hlen) as (evs' & Hrest & _ & Hbody).
  cbv zeta. rewrite Hbody. clear Hbody.
  assert (Hq : frame_queue
                 (snd (window_step l (clock w (ticks w))
                         (after_frame fd s evs' payload w)))
               = pushed (frame_queue w) (payload, clock w (ticks w))).
  { unfold window_step.
    destruct (PrimFloat.leb 1 _); [|reflexivity].
    destruct (truediv_int_float _ _); reflexivity. }
  assert (Hs : sockets
                 (snd (window_step l (clock w (ticks w))
                         (after_frame fd s evs' payload w)))
               = <[fd := set_incoming s evs']> (sockets w)).
  { unfold window_step.
    destruct (PrimFloat.leb 1 _); [|reflexivity].
    destruct (truediv_int_float _ _); reflexivity. }
  rewrite Hq, Hs.
  refine (conj _ (conj _ (conj _ (conj _ _)))).
  - intros Hmax Hlen1. unfold pushed, queue_full, qsize.
    destruct (frame_queue w) as [m its]. cbn in *. subst m.
    destruct its as [|old [|x its]]; cbn in *; try lia; reflexivity.
  - intros Hfull. unfold pushed. rewrite Hfull. cbv zeta. rewrite Hfull.
    reflexivity.
  - exists (set_incoming s evs'). split; [|exact Hrest].
    apply list_lookup_insert_eq. eapply lookup_lt_Some, Hsock.
  - unfold window_step.
    destruct (PrimFloat.leb 1 _); [|discriminate].
    destruct (truediv_int_float _ _); discriminate.
  - intros Hcount. unfold window_step.
    destruct (PrimFloat.leb 1 _) eqn:Hle; [|eexists; reflexivity].
    unfold truediv_int_float.
    destruct (float_of_int_defined (frame_count l + 1) ltac:(lia)) as [x ->].
    rewrite (leb_one_nonzero _ Hle). eexists; reflexivity.
Qed.

Lemma valid_frame_pushed_once_witness :
  items (frame_queue (snd (loop_body 0 (mkWindow 0 0)
           (world_with_client
              [Chunk x00 [x00]; Chunk x00 [x02; xaa]; Chunk xbb [x07]]
              (mkQueue 1 [([x01], 1%float)]) (fun _ => 5%float)))))
  = [([xaa; xbb], 5%float)].
Proof.
  apply (valid_frame_pushed_once 0 (mkWindow 0 0)
           (world_with_client
              [Chunk x00 [x00]; Chunk x00 [x02; xaa]; Chunk xbb [x07]]
              (mkQueue 1 [([x01], 1%float)]) (fun _ => 5%float))
           (mkSocket [Chunk x00 [x00]; Chunk x00 [x02; xaa]; Chunk xbb [x07]]
              [] false false)
           [x00; x00; x00; x02] [xaa; xbb] [x07] 2);
    cbn; try reflexivity; lia.
Defined.

(** C1 (as the code has it).  When the header decoded by the receive loop
    declares a length that is out of bounds (at most 0, or more than
    5*1024*1024), the loop goes to its next turn having read the four bytes
    of the header and no byte of the declared payload: the connection is left
    exactly after the header, the queue, the statistics, the clock and the
    window are untouched, and the next turn decodes the following four bytes
    as a header. *)
Theorem invalid_length_reads_header_only (fd : nat) (l : window) (w : world)
    (s : socket) (header rest : bytes) (n : Z) :
  sockets w !! fd = Some s ->
  closed s = false ->
  leading_bytes (incoming s) = header ++ rest ->
  struct_unpack_I header = Ok n ->
  n <= 0 \/ 5 * 1024 * 1024 < n ->
  let w' := snd (loop_body fd l w) in
  fst (loop_body fd l w) = Ok (Continue l)
  /\ (exists s', sockets w' !! fd = Some s'
                 /\ leading_bytes (incoming s') = rest
                 /\ terminator (incoming s') = terminator (incoming s))
  /\ frame_queue w' = frame_queue w
  /\ stats w' = stats w
  /\ ticks w' = ticks w.
Proof.
  intros Hsock Hopen Hlead Hhdr Hn.
  destruct (loop_body_invalid fd l w s header rest n Hsock Hopen Hlead Hhdr Hn)
    as (evs' & Hrest & Hterm & Hbody).
  cbv zeta. rewrite Hbody. cbn [fst snd].
  refine (conj eq_refl (conj _ (conj eq_refl (conj eq_refl eq_refl)))).
  exists (set_incoming s evs'). split; [|split; [exact Hrest|exact Hterm]].
  apply list_lookup_insert_eq. eapply lookup_lt_Some, Hsock.
Qed.

(** The loop does not discard the payload of an out-of-bounds unit: on
    [oversized_unit] the five bytes after the header are all still on the
    connection after the turn. *)
Lemma oversized_unit_not_discarded :
  ~ discards_declared_payload 0 (mkWindow 0 0)
      (world_with_client oversized_unit (mkQueue 1 []) (fun _ => 5%float)).
Proof.
  intros H.
  destruct (H (mkSocket oversized_unit [] false false)
              [x00; x50; x00; x01] [x00; x00; x00; x01; xcc] 5242881
              eq_refl eq_refl eq_refl eq_refl (or_intror eq_refl))
    as (s' & Hs' & Hlead).
  rewrite skipn_all2 in Hlead by (cbn [List.length]; lia).
  vm_compute in Hs'. injection Hs' as <-. discriminate Hlead.
Qed.

(** What follows on that connection: the next turn takes [00 00 00 01] for a
    header and pushes the byte [cc] as a frame. *)
Example oversized_unit_desynchronises :
  items (frame_queue (snd (client_loop 3 0 (mkWindow 0 0)
           (world_with_client oversized_unit (mkQueue 1 []) (fun _ => 5%float)))))
  = [([xcc], 5%float)].
Proof. vm_compute. reflexivity. Qed.

Lemma invalid_length_reads_header_only_witness :
  fst (loop_body 0 (mkWindow 0 0)
         (world_with_client oversized_unit (mkQueue 1 []) (fun _ => 5%float)))
  = Ok (Continue (mkWindow 0 0)).
Proof.
  apply (invalid_length_reads_header_only 0 (mkWindow 0 0)
           (world_with_client oversized_unit (mkQueue 1 []) (fun _ => 5%float))
           (mkSocket oversized_unit [] false false)
           [x00; x50; x00; x01] [x00; x00; x00; x01; xcc] 5242881);
    try reflexivity.
  right. reflexivity.
Defined.

(** ** The frame-rate window *)

(** C5.  The frame rate is computed over discrete windows.  On every frame
    received, the count of the window is incremented and the time since the
    window started is taken:
    - while that time is below 1.0 second, [fps] is left alone, the count
      keeps its new value and the window its start;
    - once it has reached 1.0 second, [fps] becomes the count (converted to a
      float, which succeeds for every count below [2^63]) divided by the
      elapsed time, the count goes back to 0 and the window starts at the
      time of this frame.
    In particular, on a connection that delivers thirty frames, the thirtieth
    exactly 1.0 second after the window opened, [_handle_client] leaves
    [fps = 30.0]. *)
Theorem fps_windowing :
  (forall (fd : nat) (l : window) (w : world) (s : socket)
          (header payload rest : bytes) (n : Z),
      sockets w !! fd = Some s ->
      closed s = false ->
      leading_bytes (incoming s) = header ++ payload ++ rest ->
      struct_unpack_I header = Ok n ->
      1 <= n <= 5 * 1024 * 1024 ->
      Z.of_nat (List.length payload) = n ->
      let now := clock w (ticks w) in
      let elapsed := (now - window_start l)%float in
      let count := frame_count l + 1 in
      (PrimFloat.leb 1 elapsed = false ->
       fst (loop_body fd l w)
       = Ok (Continue (mkWindow count (window_start l)))
       /\ fps (stats (snd (loop_body fd l w))) = fps (stats w))
      /\ (PrimFloat.leb 1 elapsed = true ->
          0 <= count < 2 ^ 63 ->
          exists x,
            float_of_int count = Ok x
            /\ fst (loop_body fd l w) = Ok (Continue (mkWindow 0 now))
            /\ fps (stats (snd (loop_body fd l w))) = (x / elapsed)%float))
  /\ fps (stats (snd (_handle_client 31 0
            (world_with_client thirty_frames (mkQueue 1 []) thirtieths))))
     = 30%float.
Proof.
  split; [|vm_compute; reflexivity].
  intros fd l w s header payload rest n Hsock Hopen Hlead Hhdr Hn Hlen.
  destruct (loop_body_valid fd l w s header payload rest n Hsock Hopen Hlead
              Hhdr Hn Hlen) as (evs' & _ & _ & Hbody).
  cbv zeta. rewrite Hbody. unfold window_step. split.
  - intros ->. split; reflexivity.
  - intros Hle Hcount. rewrite Hle. unfold truediv_int_float.
    destruct (float_of_int_defined _ Hcount) as [x Hx]. exists x.
    rewrite Hx, (leb_one_nonzero _ Hle). auto.
Qed.

Lemma fps_windowing_witness :
  fps (stats (snd (loop_body 0 (mkWindow 29 1000)
         (world_with_client [Chunk x00 [x00; x00; x01; xaa]] (mkQueue 1 [])
            (fun _ => 1001%float)))))
  = (30 / (1001 - 1000))%float.
Proof.
  destruct fps_windowing as [H _].
  destruct (H 0%nat (mkWindow 29 1000)
              (world_with_client [Chunk x00 [x00; x00; x01; xaa]]
                 (mkQueue 1 []) (fun _ => 1001%float))
              (mkSocket [Chunk x00 [x00; x00; x01; xaa]] [] false false)
              [x00; x00; x00; x01] [xaa] [] 1
              eq_refl eq_refl eq_refl eq_refl ltac:(cbn; lia) eq_refl)
    as [_ H2].
  destruct (H2 eq_refl ltac:(cbn; lia)) as (x & Hx & _ & Hfps).
  vm_compute in Hx. injection Hx as <-. exact Hfps.
Defined.

(** ** The status shown by the display *)

Lemma SFcompare_antisym (x y : spec_float) :
  SFcompare y x = option_map CompOpp (SFcompare x y).
Proof.
  destruct x as [sx|sx| |sx mx ex], y as [sy|sy| |sy my ey]; cbn;
    try reflexivity; try (destruct sx; reflexivity);
    try (destruct sy; reflexivity); try (destruct sx, sy; reflexivity).
  destruct sx, sy; cbn; try reflexivity;
    rewrite (Z.compare_antisym ex ey); destruct (ex ?= ey); cbn;
    try reflexivity; f_equal.
  - f_equal. symmetry. apply (Pos.compare_cont_antisym mx my Eq).
  - symmetry. apply (Pos.compare_cont_antisym mx my Eq).
Qed.

(** [x <= y] excludes [y < x]. *)
Lemma leb_not_ltb (x y : float) :
  PrimFloat.leb x y = true -> PrimFloat.ltb y x = false.
Proof.
  rewrite FloatAxioms.leb_spec, FloatAxioms.ltb_spec.
  unfold SFleb, SFltb. rewrite (SFcompare_antisym (Prim2SF x) (Prim2SF y)).
  destruct (SFcompare (Prim2SF x) (Prim2SF y)) as [[]|]; cbn; congruence.
Qed.

(** C8.  At a tick of [_refresh_stats], when the time elapsed since
    [stats.last_updated] (the last frame received) is at least 2 seconds,
    the status is the waiting indicator, not "streaming active", and the
    frame rate and the latency are shown as idle ("--"), whatever [fps] the
    statistics still hold. *)
Theorem stale_stream_shows_idle (w : world) :
  let now := clock w (ticks w) in
  PrimFloat.leb 2 (now - last_updated (stats w)) = true ->
  let w' := snd (_refresh_stats w) in
  status_var (viewer w') = WaitingForStream
  /\ fps_var (viewer w') = FpsIdle
  /\ latency_var (viewer w') = LatencyIdle
  /\ fst (_refresh_stats w) = Ok tt.
Proof.
  intros now Hstale w'. subst w' now.
  unfold _refresh_stats, bind, time_time, get_world, modify.
  cbn [stats set_ticks clock ticks].
  rewrite (leb_not_ltb _ _ Hstale). cbn. auto.
Qed.

Lemma stale_stream_shows_idle_witness :
  status_var (viewer (snd (_refresh_stats stale_world))) = WaitingForStream
  /\ fps_var (viewer (snd (_refresh_stats stale_world))) = FpsIdle
  /\ latency_var (viewer (snd (_refresh_stats stale_world))) = LatencyIdle
  /\ fst (_refresh_stats stale_world) = Ok tt.
Proof.
  apply (stale_stream_shows_idle stale_world). reflexivity.
Defined.

(** ** The invariants of the statistics *)

Lemma on_socket_stats {A} (fd : nat)
    (f : list recv_event -> outcome A * list recv_event) (w : world) :
  stats (snd (on_socket fd f w)) = stats w.
Proof.
  unfold on_socket. destruct (sockets w !! fd) as [s|]; [|reflexivity].
  destruct (closed s); [reflexivity|]. destruct (f (incoming s)); reflexivity.
Qed.

Ltac loop_leaf E S :=
  cbn in E;
  repeat match type of E with
         | context [if ?b then _ else _] => destruct b; cbn in E
         end;
  injection E as <- <-; cbn; rewrite ?S;
  (split; [reflexivity|split; [now left|]]);
  intros l' Hl'; try discriminate Hl'; injection Hl' as <-; cbn; lia.

(** What one turn of the loop can do to the statistics and to the window, in
    any world: [latency_ms] is never touched; [fps] is either left alone or
    set to the quotient of the incremented count by an elapsed time of at
    least 1.0; the count moves by at most one. *)
Lemma loop_body_stats (fd : nat) (l : window) (w : world) r w' :
  loop_body fd l w = (r, w') ->
  latency_ms (stats w') = latency_ms (stats w)
  /\ (fps (stats w') = fps (stats w)
      \/ exists now q,
           PrimFloat.leb 1 (now - window_start l) = true
           /\ truediv_int_float (frame_count l + 1) (now - window_start l)
              = Ok q
           /\ fps (stats w') = q)
  /\ (forall l', r = Ok (Continue l') ->
      0 <= frame_count l -> 0 <= frame_count l' <= frame_count l + 1).
Proof.
  intros E. unfold loop_body, try_except, receive_frame in E.
  unfold bind at 1 in E.
  pose proof (on_socket_stats fd (fun evs => _recvall evs 4) w) as S1.
  destruct (on_socket fd (fun evs => _recvall evs 4) w) as [r1 w1].
  cbn [snd] in S1.
  destruct r1 as [h|e| |]; try (loop_leaf E S1).
  destruct (falsy h); [loop_leaf E S1|].
  unfold bind at 1, lift in E.
  destruct (struct_unpack_I (default [] h)) as [n|e| |]; try (loop_leaf E S1).
  destruct ((n <=? 0) || (MAX_FRAME_LENGTH <? n)); [loop_leaf E S1|].
  unfold bind at 1 in E.
  pose proof (on_socket_stats fd (fun evs => _recvall evs n) w1) as S2.
  destruct (on_socket fd (fun evs => _recvall evs n) w1) as [r2 w2].
  cbn [snd] in S2. rewrite S1 in S2.
  destruct r2 as [p|e| |]; try (loop_leaf E S2).
  destruct (falsy p); [loop_leaf E S2|].
  unfold bind at 1, time_time in E. unfold bind at 1 in E.
  rewrite push_frame_eq in E. cbv beta iota in E.
  destruct (PrimFloat.leb 1 _) eqn:Hle; [|loop_leaf E S2].
  unfold bind, lift, modify, ret in E.
  destruct (truediv_int_float _ _) as [q|e| |] eqn:Hdiv;
    try (loop_leaf E S2).
  injection E as <- <-. cbn. rewrite S2. split; [reflexivity|]. split.
  - right. exists (clock w2 (ticks w2)), q. auto.
  - intros l' [= <-]. cbn. lia.
Qed.

Lemma push_frame_stats_ok (frame_data : bytes) (timestamp : float) (w : world) :
  stats_ok (stats w) ->
  stats_ok (stats (snd (_push_frame frame_data timestamp w))).
Proof. rewrite push_frame_eq. intros H. exact H. Qed.

Lemma loop_body_stats_ok (fd : nat) (l : window) (w : world) :
  0 <= frame_count l < 2 ^ 63 - 1 ->
  stats_ok (stats w) ->
  stats_ok (stats (snd (loop_body fd l w))).
Proof.
  intros Hc [Hfps Hlat].
  destruct (loop_body fd l w) as [r w'] eqn:E.
  destruct (loop_body_stats fd l w r w' E) as (Hl & Hf & _).
  cbn [snd]. split; [|now rewrite Hl].
  destruct Hf as [-> | (now & q & Hle & Hdiv & ->)]; [exact Hfps|].
  eapply truediv_nonneg; [|exact Hle|exact Hdiv]. lia.
Qed.

Lemma client_loop_stats_ok (fuel : nat) : forall (fd : nat) (l : window)
    (w : world),
  0 <= frame_count l ->
  frame_count l + Z.of_nat fuel < 2 ^ 63 ->
  stats_ok (stats w) ->
  stats_ok (stats (snd (client_loop fuel fd l w))).
Proof.
  induction fuel as [|fuel IH]; intros fd l w Hc Hb Hok;
    cbn [client_loop]; unfold bind at 1, get_world;
    destruct (_should_run (server w)); try exact Hok.
  unfold bind.
  pose proof (loop_body_stats_ok fd l w ltac:(lia) Hok) as Hok1.
  destruct (loop_body fd l w) as [r w1] eqn:E. cbn [snd] in Hok1.
  destruct (loop_body_stats fd l w r w1 E) as (_ & _ & Hl).
  destruct r as [[l'|]| e | |]; try exact Hok1.
  specialize (Hl l' eq_refl Hc). apply IH; [lia|lia|exact Hok1].
Qed.

Lemma close_socket_stats (fd : nat) (w : world) :
  stats (close_socket fd w) = stats w.
Proof. unfold close_socket. destruct (sockets w !! fd); reflexivity. Qed.

Lemma handle_client_stats_ok (fuel : nat) (client_socket : nat) (w : world) :
  Z.of_nat fuel < 2 ^ 63 ->
  stats_ok (stats w) ->
  stats_ok (stats (snd (_handle_client fuel client_socket w))).
Proof.
  intros Hfuel Hok. unfold _handle_client, try_finally.
  unfold bind at 1, modify. unfold bind at 1, time_time.
  unfold bind at 1.
  set (w0 := set_ticks _ _).
  pose proof (client_loop_stats_ok fuel client_socket
                (mkWindow 0 (clock (set_server (with_client_output_stream
                   (Some client_socket)) w) (ticks (set_server
                   (with_client_output_stream (Some client_socket)) w))))
                w0 ltac:(cbn; lia) ltac:(cbn; lia) Hok) as H.
  destruct (client_loop _ _ _ w0) as [r w1]. cbn [snd] in H.
  destruct r; cbn; rewrite close_socket_stats; exact H.
Qed.

Lemma display_frame_stats_ok (frame_data : bytes) (timestamp : float)
    (w : world) :
  is_finite timestamp = true ->
  is_finite (clock w (ticks w)) = true ->
  stats_ok (stats w) ->
  stats_ok (stats (snd (_display_frame frame_data timestamp w))).
Proof.
  intros Hts Hnow [Hfps Hlat]. unfold _display_frame, bind, get_world.
  destruct (image_ok w frame_data); [|split; assumption].
  cbn. split; [exact Hfps|]. apply latency_nonneg; assumption.
Qed.

Lemma poll_frames_stats_ok (w : world) :
  Forall (fun item => is_finite (snd item) = true) (items (frame_queue w)) ->
  is_finite (clock w (ticks w)) = true ->
  stats_ok (stats w) ->
  stats_ok (stats (snd (_poll_frames w))).
Proof.
  intros Hq Hnow Hok.
  unfold _poll_frames, try_except, bind, get_nowait, queue_get.
  destruct (items (frame_queue w)) as [|[frame_data timestamp] rest] eqn:Hi;
    [exact Hok|].
  apply Forall_cons_iff in Hq as [Hts _]. cbn [fst snd] in *.
  set (w1 := set_frame_queue _ w).
  pose proof (display_frame_stats_ok frame_data timestamp w1 Hts Hnow Hok) as H.
  destruct (_display_frame frame_data timestamp w1) as [r w2].
  cbn [snd] in H. destruct r as [u|e| |]; try exact H.
  destruct (is_exn QueueEmpty e); exact H.
Qed.

Lemma refresh_stats_keeps_stats (w : world) :
  stats (snd (_refresh_stats w)) = stats w.
Proof.
  unfold _refresh_stats, bind, time_time, get_world, modify. cbn.
  destruct (_ && _); reflexivity.
Qed.

(** C9.  [fps >= 0] and [latency_ms >= 0] hold of a new [FrameStats] and are
    kept by everything that writes to the statistics:
    - [_push_frame], which only writes [last_updated];
    - a turn of the receive loop, and [_handle_client] as a whole: when [fps]
      is written it is the frame count, which is at least 0, divided by an
      elapsed time that is at least 1.0 (the count being below [2^63], as
      any count reached in fewer than [2^63] turns is);
    - [_display_frame], alone and called from [_poll_frames]: when the frame
      is shown, [latency_ms] is [max((now - timestamp) * 1000.0, 0.0)], which
      is at least 0.0 for finite readings of the clock;
    - [_refresh_stats], which writes nothing. *)
Theorem stats_invariants :
  (forall t, stats_ok (new_FrameStats t))
  /\ (forall frame_data timestamp w,
      stats_ok (stats w) ->
      stats_ok (stats (snd (_push_frame frame_data timestamp w))))
  /\ (forall fd l w,
      0 <= frame_count l < 2 ^ 63 - 1 ->
      stats_ok (stats w) ->
      stats_ok (stats (snd (loop_body fd l w))))
  /\ (forall fd l w,
      fps (stats (snd (loop_body fd l w))) = fps (stats w)
      \/ exists now q,
           PrimFloat.leb 1 (now - window_start l) = true
           /\ truediv_int_float (frame_count l + 1) (now - window_start l)
              = Ok q
           /\ fps (stats (snd (loop_body fd l w))) = q)
  /\ (forall fuel client_socket w,
      Z.of_nat fuel < 2 ^ 63 ->
      stats_ok (stats w) ->
      stats_ok (stats (snd (_handle_client fuel client_socket w))))
  /\ (forall frame_data timestamp w,
      is_finite timestamp = true ->
      is_finite (clock w (ticks w)) = true ->
      stats_ok (stats w) ->
      stats_ok (stats (snd (_display_frame frame_data timestamp w))))
  /\ (forall frame_data timestamp w,
      image_ok w frame_data = true ->
      latency_ms (stats (snd (_display_frame frame_data timestamp w)))
      = py_max ((clock w (ticks w) - timestamp) * 1000) 0)
  /\ (forall w,
      Forall (fun item => is_finite (snd item) = true)
        (items (frame_queue w)) ->
      is_finite (clock w (ticks w)) = true ->
      stats_ok (stats w) ->
      stats_ok (stats (snd (_poll_frames w))))
  /\ (forall w, stats (snd (_refresh_stats w)) = stats w).
Proof.
  refine (conj _ (conj push_frame_stats_ok (conj loop_body_stats_ok
           (conj _ (conj handle_client_stats_ok (conj display_frame_stats_ok
           (conj _ (conj poll_frames_stats_ok refresh_stats_keeps_stats)))))))).
  - intros t. split; reflexivity.
  - intros fd l w. destruct (loop_body fd l w) as [r w'] eqn:E.
    apply (loop_body_stats fd l w r w' E).
  - intros frame_data timestamp w Himg.
    unfold _display_frame, bind, get_world. rewrite Himg. reflexivity.
Qed.

(** Thirty frames received and the last of them displayed half a second
    after its receipt. *)
Lemma stats_invariants_witness :
  stats_ok (stats (snd (_handle_client 31 0
     (world_with_client thirty_frames (mkQueue 1 []) thirtieths))))
  /\ stats_ok (stats (snd (_display_frame [xaa] 1001
        (set_stats (mkFrameStats 30 0 1001)
           (world_with_client [] (mkQueue 1 []) (fun _ => 1001.5%float)))))).
Proof.
  destruct stats_invariants as (_ & _ & _ & _ & Hclient & Hdisplay & _).
  split.
  - apply Hclient; [reflexivity|]. split; reflexivity.
  - apply Hdisplay; try reflexivity. split; reflexivity.
Defined.

(** ** The control channel *)

Lemma encode_utf8_raises (command : list Z) :
  match encode_utf8 command with
  | Ok _ | Raise _ => True
  | _ => False
  end.
Proof.
  induction command as [|c rest IH]; cbn; [exact I|].
  assert (Hc : match utf8_encode_char c with
               | Ok _ | Raise _ => True
               | _ => False
               end).
  { unfold utf8_encode_char.
    repeat match goal with
           | |- context [if ?b then _ else _] => destruct b
           end; exact I. }
  destruct (utf8_encode_char c), (encode_utf8 rest); auto.
Qed.

(** C6.  [send_control_command] never raises, for any command and in any
    state.  With no producer connected it does nothing at all: the world is
    left as it was (nothing sent, nothing printed).  With a producer
    connected on a healthy socket, and a command that has a UTF-8 encoding,
    one [sendall] call is made on that socket and its argument is the UTF-8
    bytes of the command followed by the single byte [0x0A]; nothing else
    changes.  For ["ZOOM:2.50"] these are the ten bytes [ZOOM:2.50\n]. *)
Theorem control_command_sent :
  (forall command w, fst (send_control_command command w) = Ok tt)
  /\ (forall command w,
      _client_output_stream (server w) = None ->
      send_control_command command w = (Ok tt, w))
  /\ (forall command w fd s data,
      _client_output_stream (server w) = Some fd ->
      sockets w !! fd = Some s ->
      closed s = false ->
      write_fails s = false ->
      encode_utf8 command = Ok data ->
      send_control_command command w
      = (Ok tt,
         set_sockets
           (<[fd := mkSocket (incoming s) (sent s ++ [data ++ [x0a]])
                      false false]> (sockets w)) w))
  /\ encode_utf8 ZOOM_2_50 = Ok [x5a; x4f; x4f; x4d; x3a; x32; x2e; x35; x30].
Proof.
  refine (conj _ (conj _ (conj _ eq_refl))).
  - intros command w. unfold send_control_command, bind, get_world.
    destruct (_client_output_stream (server w)) as [fd|]; [|reflexivity].
    unfold try_except, bind, lift, sendall.
    pose proof (encode_utf8_raises command) as He.
    destruct (encode_utf8 command) as [data|e| |]; try contradiction;
      [|reflexivity].
    destruct (sockets w !! fd) as [s|]; [|reflexivity].
    destruct (closed s); [reflexivity|].
    destruct (write_fails s); reflexivity.
  - intros command w Hnone. unfold send_control_command, bind, get_world.
    rewrite Hnone. reflexivity.
  - intros command w fd s data Hfd Hsock Hopen Hwr Henc.
    unfold send_control_command, bind, get_world. rewrite Hfd.
    unfold try_except, bind, lift, sendall.
    rewrite Henc, Hsock, Hopen, Hwr. reflexivity.
Qed.

Lemma control_command_sent_witness :
  send_control_command ZOOM_2_50 connected_world
  = (Ok tt,
     set_sockets
       [mkSocket [] [[x5a; x4f; x4f; x4d; x3a; x32; x2e; x35; x30; x0a]]
          false false]
       connected_world).
Proof.
  destruct control_command_sent as (_ & _ & H & _).
  apply (H ZOOM_2_50 connected_world 0%nat (mkSocket [] [] false false)
           [x5a; x4f; x4f; x4d; x3a; x32; x2e; x35; x30]); reflexivity.
Defined.

(** ** Starting the server *)

(** [start] returns normally in every world: it binds nothing itself. *)
Lemma start_returns (w : world) : fst (start w) = Ok tt.
Proof.
  unfold start, bind, get_world.
  destruct (_server_thread (server w)) as [t|]; [|reflexivity].
  destruct (is_alive t); reflexivity.
Qed.

Lemma start_never_reports_bind_failure : ~ start_reports_bind_failure.
Proof. intros (w & e & _ & H). apply H, start_returns. Qed.

(** C4 (as the code has it).  [start] never raises, whether or not the
    address can be bound.  When no server thread is alive, it starts one and
    returns; a failure of [bind] is raised inside that thread: it ends the
    thread before any connection is accepted and goes to the standard error
    of the threading machinery, not to the caller of [start].  An error of
    [accept] other than a timeout ends the accept loop and the thread
    quietly. *)
Theorem bind_failure_ends_server_thread :
  (forall w, fst (start w) = Ok tt)
  /\ (forall w e fuel client_fuel,
      bind_error w = Some e ->
      _server_thread (server w) = None ->
      let w1 := snd (start w) in
      let w2 := server_thread_main fuel client_fuel w1 in
      _server_thread (server w1) = Some Alive
      /\ _server_thread (server w2) = Some (Crashed e)
      /\ stderr w2 = stderr w ++ [e]
      /\ accepts w2 = accepts w
      /\ sockets w2 = sockets w)
  /\ (forall w rest fuel client_fuel,
      bind_error w = None ->
      _server_thread (server w) = None ->
      accepts w = AcceptError :: rest ->
      let w2 := server_thread_main (S fuel) client_fuel (snd (start w)) in
      _server_thread (server w2) = Some Finished
      /\ stderr w2 = stderr w
      /\ accepts w2 = rest).
Proof.
  refine (conj start_returns (conj _ _)).
  - intros w e fuel client_fuel Hbind Hthread. cbv zeta.
    unfold start, bind, get_world. rewrite Hthread.
    unfold server_thread_main, _run_server, bind, bind_listener, modify,
      spawn_server_thread.
    cbn. rewrite Hbind. cbn. auto.
  - intros w rest fuel client_fuel Hbind Hthread Hacc. cbv zeta.
    unfold start, bind, get_world. rewrite Hthread.
    unfold server_thread_main, _run_server, bind, bind_listener, modify,
      spawn_server_thread.
    cbn. rewrite Hbind. cbn. unfold try_except, bind, accept. cbn.
    rewrite Hacc. cbn. auto.
Qed.

Lemma bind_failure_ends_server_thread_witness :
  fst (start unbindable_world) = Ok tt
  /\ _server_thread (server (server_thread_main 1 1 (snd (start unbindable_world))))
     = Some (Crashed OSError)
  /\ stderr (server_thread_main 1 1 (snd (start unbindable_world))) = [OSError].
Proof.
  destruct bind_failure_ends_server_thread as (H1 & H2 & _).
  split; [apply H1|].
  destruct (H2 unbindable_world OSError 1%nat 1%nat eq_refl eq_refl)
    as (_ & Hcrash & Herr & _).
  split; [exact Hcrash|exact Herr].
Defined.


(** ** The loops finish on a finite stream *)

Lemma recv_size (evs : list recv_event) (bufsize : Z) :
  (stream_size (snd (recv evs bufsize)) <= stream_size evs)%nat
  /\ (forall c cs, fst (recv evs bufsize) = Ok (c :: cs) ->
      (stream_size (snd (recv evs bufsize)) < stream_size evs)%nat).
Proof.
  destruct evs as [|[b bs| |] rest]; cbn [recv].
  - cbn. split; [lia|discriminate].
  - destruct (skipn (Z.to_nat bufsize) (b :: bs)) as [|b' bs'] eqn:Hskip;
      cbn [fst snd stream_size].
    + split; [lia|intros; lia].
    + pose proof (f_equal (@List.length byte) Hskip) as Hlen.
      rewrite length_skipn in Hlen. cbn [List.length] in Hlen.
      split; [lia|].
      intros c cs Hc. destruct (Z.to_nat bufsize) as [|k]; [discriminate Hc|].
      lia.
  - cbn. split; [lia|discriminate].
  - cbn. split; [lia|discriminate].
Qed.

Lemma recvall_loop_size (fuel : nat) : forall evs length data,
  let r := recvall_loop fuel evs length data in
  (stream_size (snd r) <= stream_size evs)%nat
  /\ (forall bs, fst r = Ok (Some bs) ->
      Z.of_nat (List.length data) < length ->
      (stream_size (snd r) < stream_size evs)%nat).
Proof.
  induction fuel as [|fuel IH]; intros evs length data; cbn [recvall_loop];
    destruct (Z.ltb_spec (Z.of_nat (List.length data)) length) as [Hlt|Hge];
    cbn zeta; cbn [fst snd]; try (split; [lia|intros; try discriminate; lia]).
  destruct (recv_size evs (length - Z.of_nat (List.length data))) as [Hle Hstrict].
  destruct (recv evs (length - Z.of_nat (List.length data))) as [r evs'].
  cbn [fst snd] in *.
  destruct r as [[|c cs]|e| |]; cbn [fst snd];
    try (split; [lia|intros; discriminate]).
  - specialize (Hstrict c cs eq_refl).
    destruct (IH evs' length (data ++ c :: cs)) as [IH1 IH2].
    split; [lia|intros; lia].
  - destruct e; cbn [fst snd]; split; try lia; intros; discriminate.
Qed.

(** A read through [on_socket] never grows the stream, shrinks it when it
    returns bytes, and always finishes. *)
Lemma on_socket_recvall_size (fd : nat) (n : Z) (w : world) :
  1 <= n ->
  let r := on_socket fd (fun evs => _recvall evs n) w in
  (sock_size fd (snd r) <= sock_size fd w)%nat
  /\ (forall bs, fst r = Ok (Some bs) ->
      (sock_size fd (snd r) < sock_size fd w)%nat)
  /\ fst r <> OutOfFuel.
Proof.
  intros Hn. unfold on_socket, sock_size.
  destruct (sockets w !! fd) as [s|] eqn:Hs; cbn zeta;
    [|cbn; rewrite Hs; repeat split; try lia; discriminate].
  destruct (closed s);
    [cbn; rewrite Hs; repeat split; try lia; discriminate|].
  pose proof (recvall_loop_size (S (List.length (incoming s))) (incoming s) n [])
    as [Hle Hstrict].
  pose proof (recvall_cases (incoming s) n Hn) as Hcases.
  unfold _recvall in *.
  destruct (recvall_loop _ (incoming s) n []) as [r evs'].
  cbn [fst snd] in *. cbn [sockets set_sockets].
  rewrite list_lookup_insert_eq by (eapply lookup_lt_Some, Hs).
  cbn [incoming set_incoming].
  split; [exact Hle|]. split.
  - intros bs ->. apply (Hstrict bs eq_refl). cbn. lia.
  - intros ->. exact Hcases.
Qed.

Lemma struct_unpack_I_outcome (header : bytes) :
  match struct_unpack_I header with
  | Ok _ | Raise StructError => True
  | _ => False
  end.
Proof.
  destruct header as [|b0 [|b1 [|b2 [|b3 [|b4 t]]]]]; exact I.
Qed.

Ltac progress_leaf E :=
  cbn in E;
  repeat match type of E with
         | context [if ?b then _ else _] => destruct b; cbn in E
         end;
  injection E as <- <-;
  (split; [discriminate|]); intros l' Hl'; discriminate Hl'.

(** A turn of the loop finishes, and a turn after which the loop goes on has
    taken something off the connection. *)
Lemma loop_body_progress (fd : nat) (l : window) (w : world) r w' :
  loop_body fd l w = (r, w') ->
  r <> OutOfFuel
  /\ (forall l', r = Ok (Continue l') ->
      (sock_size fd w' < sock_size fd w)%nat).
Proof.
  intros E. unfold loop_body, try_except, receive_frame in E.
  unfold bind at 1 in E.
  destruct (on_socket_recvall_size fd 4 w ltac:(lia)) as (_ & Hs1 & Hf1).
  destruct (on_socket fd (fun evs => _recvall evs 4) w) as [r1 w1].
  cbn [fst snd] in *.
  destruct r1 as [h|e| |]; try (progress_leaf E); try (exfalso; now apply Hf1).
  destruct h as [h|]; [|progress_leaf E].
  specialize (Hs1 h eq_refl).
  destruct (falsy (Some h)); [progress_leaf E|].
  unfold bind at 1, lift in E.
  pose proof (struct_unpack_I_outcome (default [] (Some h))) as Hu.
  destruct (struct_unpack_I (default [] (Some h))) as [n|e| |];
    try contradiction; try (progress_leaf E).
  destruct ((n <=? 0) || (MAX_FRAME_LENGTH <? n)) eqn:Hrange.
  { cbn in E. injection E as <- <-. split; [discriminate|].
    intros l' _. exact Hs1. }
  apply orb_false_iff in Hrange as [Hlo%Z.leb_gt _].
  unfold bind at 1 in E.
  destruct (on_socket_recvall_size fd n w1 ltac:(lia)) as (Hs2 & _ & Hf2).
  destruct (on_socket fd (fun evs => _recvall evs n) w1) as [r2 w2].
  cbn [fst snd] in *.
  destruct r2 as [p|e| |]; try (progress_leaf E); try (exfalso; now apply Hf2).
  destruct (falsy p); [progress_leaf E|].
  unfold bind at 1, time_time in E. unfold bind at 1 in E.
  rewrite push_frame_eq in E. cbv beta iota in E.
  destruct (PrimFloat.leb 1 _).
  - unfold bind, lift, modify, ret in E.
    destruct (truediv_int_float _ _) as [q|e| |] eqn:Hdiv.
    + injection E as <- <-. split; [discriminate|].
      intros l' _. unfold sock_size in *. cbn. lia.
    + apply truediv_int_float_raises in Hdiv as [-> | ->]; progress_leaf E.
    + unfold truediv_int_float, float_of_int in Hdiv.
      destruct (is_infinity _); [discriminate|].
      destruct (PrimFloat.eqb _ 0); discriminate.
    + unfold truediv_int_float, float_of_int in Hdiv.
      destruct (is_infinity _); [discriminate|].
      destruct (PrimFloat.eqb _ 0); discriminate.
  - cbn in E. injection E as <- <-. split; [discriminate|].
    intros l' _. unfold sock_size in *. cbn. lia.
Qed.

(** With more turns allowed than the connection has events and bytes
    pending, the receive loop ends by itself: the bound on the number of
    turns is never what stops it. *)
Lemma client_loop_finishes (fuel : nat) : forall (fd : nat) (l : window)
    (w : world),
  (sock_size fd w < fuel)%nat ->
  fst (client_loop fuel fd l w) <> OutOfFuel.
Proof.
  induction fuel as [|fuel IH]; intros fd l w Hsize; [lia|].
  cbn [client_loop]. unfold bind at 1, get_world.
  destruct (_should_run (server w)); [|discriminate].
  unfold bind.
  destruct (loop_body fd l w) as [r w1] eqn:E.
  destruct (loop_body_progress fd l w r w1 E) as [Hfin Hdec].
  destruct r as [[l'|]|e| |]; cbn [fst]; try discriminate;
    try (exfalso; now apply Hfin).
  apply IH. specialize (Hdec l' eq_refl). lia.
Qed.


(** * Further properties of the code *)

(** ** The hand-off between the two threads *)

(** X1.  On a queue that is within its capacity (or unbounded),
    [_push_frame] always stores the new pair, as the newest item: the queue
    afterwards is the old one, less its oldest item if it was full, followed
    by the new pair, and it is still within capacity.  The [queue.Full]
    handler is never reached. *)
Theorem push_frame_always_stores (frame_data : bytes) (timestamp : float)
    (w : world) :
  maxsize (frame_queue w) <= 0
  \/ qsize (frame_queue w) <= maxsize (frame_queue w) ->
  let q := frame_queue w in
  let q' := frame_queue (snd (_push_frame frame_data timestamp w)) in
  items q'
  = (if queue_full q then tl (items q) else items q)
      ++ [(frame_data, timestamp)]
  /\ maxsize q' = maxsize q
  /\ (maxsize q' <= 0 \/ qsize q' <= maxsize q').
Proof.
  intros Hcap. rewrite push_frame_eq. cbn [snd frame_queue set_stats
    set_frame_queue]. cbv zeta. unfold pushed.
  destruct (frame_queue w) as [m its]. unfold queue_full, qsize in *.
  cbn [maxsize items] in *.
  destruct (0 <? m) eqn:Hm; cbn [andb].
  - pose proof (proj1 (Z.ltb_lt _ _) Hm) as Hpos.
    destruct (m <=? Z.of_nat (List.length its)) eqn:Hfull.
    + apply Z.leb_le in Hfull. cbn [maxsize items]. rewrite Hm.
      destruct its as [|old rest]; cbn [tl List.length] in *; [lia|].
      assert (Hnf : (m <=? Z.of_nat (List.length rest)) = false)
        by (apply Z.leb_gt; lia).
      rewrite Hnf. cbn [andb maxsize items].
      rewrite length_app. cbn [List.length]. repeat split; lia.
    + cbn [maxsize items]. rewrite Hm, Hfull. cbn [andb maxsize items].
      apply Z.leb_gt in Hfull.
      rewrite length_app. cbn [List.length]. repeat split; lia.
  - cbn [maxsize items]. rewrite Hm. cbn [andb maxsize items].
    apply Z.ltb_ge in Hm. repeat split; lia.
Qed.

Lemma push_frame_always_stores_witness :
  items (frame_queue (snd (_push_frame [x04] 4
     (world_with_client []
        (mkQueue 3 [([x01], 1%float); ([x02], 2%float); ([x03], 3%float)])
        (fun _ => 0%float)))))
  = [([x02], 2%float); ([x03], 3%float); ([x04], 4%float)].
Proof.
  apply (push_frame_always_stores [x04] 4
           (world_with_client []
              (mkQueue 3 [([x01], 1%float); ([x02], 2%float); ([x03], 3%float)])
              (fun _ => 0%float))).
  right. vm_compute. discriminate.
Defined.

(** X2.  [_poll_frames] never raises and never blocks.  On an empty queue it
    changes nothing.  A frame that cannot be decoded or shown is taken off
    the queue and dropped: nothing is displayed, and the statistics, the
    clock and the status are left as they were. *)
Theorem poll_frames_edge_cases (w : world) :
  fst (_poll_frames w) = Ok tt
  /\ (items (frame_queue w) = [] -> _poll_frames w = (Ok tt, w))
  /\ (forall frame_data timestamp rest,
      items (frame_queue w) = (frame_data, timestamp) :: rest ->
      image_ok w frame_data = false ->
      snd (_poll_frames w)
      = set_frame_queue (mkQueue (maxsize (frame_queue w)) rest) w).
Proof.
  unfold _poll_frames, try_except, bind, get_nowait, queue_get.
  refine (conj _ (conj _ _)).
  - destruct (items (frame_queue w)) as [|[frame_data timestamp] rest];
      [reflexivity|].
    unfold _display_frame, bind, get_world. cbn.
    destruct (image_ok w frame_data); reflexivity.
  - intros ->. reflexivity.
  - intros frame_data timestamp rest -> Himg.
    unfold _display_frame, bind, get_world. cbn. rewrite Himg. reflexivity.
Qed.

Lemma poll_frames_edge_cases_witness :
  snd (_poll_frames
         (mkWorld (new_VideoServer [] 5000) (mkQueue 1 [([x01], 1%float)])
            (new_FrameStats 0) []
            (mkViewerApp FpsIdle LatencyIdle WaitingForConnection 0 None)
            (fun _ => 0%float) 0 None [] [] [] (fun _ => false)))
  = mkWorld (new_VideoServer [] 5000) (mkQueue 1 [])
      (new_FrameStats 0) []
      (mkViewerApp FpsIdle LatencyIdle WaitingForConnection 0 None)
      (fun _ => 0%float) 0 None [] [] [] (fun _ => false).
Proof.
  destruct (poll_frames_edge_cases
              (mkWorld (new_VideoServer [] 5000) (mkQueue 1 [([x01], 1%float)])
                 (new_FrameStats 0) []
                 (mkViewerApp FpsIdle LatencyIdle WaitingForConnection 0 None)
                 (fun _ => 0%float) 0 None [] [] [] (fun _ => false)))
    as (_ & _ & H).
  apply (H [x01] 1%float []); reflexivity.
Defined.

Lemma pushed_capacity_one (q : Queue) (item : bytes * float) :
  maxsize q = 1 ->
  (List.length (items q) <= 1)%nat ->
  pushed q item = mkQueue 1 [item].
Proof.
  intros Hmax Hlen. unfold pushed, queue_full, qsize.
  destruct q as [m its]. cbn [maxsize items] in *. subst m.
  destruct its as [|old [|x rest]]; cbn [List.length] in Hlen; try lia;
    reflexivity.
Qed.

(** X3.  The hand-off is a round trip on the capacity-1 queue of the
    application.  A frame pushed by the network side and then polled by the
    display side is shown byte for byte, with the latency computed from the
    timestamp it was pushed with, and the queue is empty again.  When two
    frames are pushed before the display polls, the poll shows the second
    and the first is never shown. *)
Theorem handoff_round_trip (w : world) (f1 f2 : bytes) (t1 t2 : float) :
  maxsize (frame_queue w) = 1 ->
  (List.length (items (frame_queue w)) <= 1)%nat ->
  image_ok w f2 = true ->
  let now := clock w (ticks w) in
  let w1 := snd (_poll_frames (snd (_push_frame f2 t2 w))) in
  let w2 := snd (_poll_frames
                   (snd (_push_frame f2 t2 (snd (_push_frame f1 t1 w))))) in
  (shown (viewer w1) = Some f2
   /\ items (frame_queue w1) = []
   /\ latency_ms (stats w1) = py_max ((now - t2) * 1000) 0
   /\ last_updated (stats w1) = t2)
  /\ (shown (viewer w2) = Some f2
      /\ items (frame_queue w2) = []
      /\ latency_ms (stats w2) = py_max ((now - t2) * 1000) 0).
Proof.
  intros Hmax Hlen Himg. cbv zeta. rewrite !push_frame_eq. cbn [snd].
  cbn [frame_queue set_stats set_frame_queue].
  rewrite (pushed_capacity_one (frame_queue w) (f1, t1) Hmax Hlen).
  rewrite (pushed_capacity_one (frame_queue w) (f2, t2) Hmax Hlen).
  rewrite (pushed_capacity_one (mkQueue 1 [(f1, t1)]) (f2, t2) eq_refl
             ltac:(cbn; lia)).
  unfold _poll_frames, try_except, bind, get_nowait, queue_get,
    _display_frame, get_world, time_time, modify.
  cbn. rewrite Himg. cbn. auto.
Qed.

Lemma handoff_round_trip_witness :
  shown (viewer (snd (_poll_frames (snd (_push_frame [x02] 2
     (snd (_push_frame [x01] 1
        (world_with_client [] (mkQueue 1 []) (fun _ => 3%float)))))))))
  = Some [x02].
Proof.
  apply (handoff_round_trip
           (world_with_client [] (mkQueue 1 []) (fun _ => 3%float))
           [x01] [x02] 1 2); cbn; try reflexivity; lia.
Defined.

(** ** More on the read primitive *)

(** Where the loop of [_recvall] leaves the stream: after a successful read
    the events behind the first failure are untouched; after a failed read
    the stream stands right behind that failure. *)
Lemma recvall_loop_residue (fuel : nat) : forall evs length data,
  (List.length evs < fuel)%nat ->
  match fst (recvall_loop fuel evs length data) with
  | Ok (Some _) =>
      after_terminator (snd (recvall_loop fuel evs length data))
      = after_terminator evs
  | _ => snd (recvall_loop fuel evs length data) = after_terminator evs
  end.
Proof.
  induction fuel as [|fuel IH]; intros evs length data Hfuel; [lia|].
  cbn [recvall_loop].
  destruct (Z.ltb_spec (Z.of_nat (List.length data)) length) as [Hlt|Hge];
    [|reflexivity].
  destruct evs as [|[b bs| |] rest]; cbn [recv]; try reflexivity.
  remember (Z.to_nat (length - Z.of_nat (List.length data))) as n eqn:En.
  destruct (skipn n (b :: bs)) as [|b' bs'] eqn:Hskip.
  - cbn [List.length] in Hfuel.
    specialize (IH rest length (data ++ b :: bs) ltac:(lia)).
    cbn [after_terminator]. exact IH.
  - pose proof (skipn_cons_length _ _ _ _ Hskip) as Hlen.
    assert (Hf : List.length (firstn n (b :: bs)) = n)
      by (rewrite length_firstn; lia).
    destruct n as [|n']; [lia|]. cbn [firstn] in *.
    assert (Hdone : (Z.of_nat (List.length (data ++ b :: firstn n' bs))
                     <? length) = false).
    { apply Z.ltb_ge. rewrite length_app. cbn [List.length] in *. lia. }
    destruct fuel as [|fuel']; cbn [recvall_loop]; rewrite Hdone;
      reflexivity.
Qed.



(** X5.  Reads compose.  When [n + m] bytes are available, reading [n] bytes
    and then [m] bytes returns the same bytes, in the same order, as one read
    of [n + m] bytes, and both leave the same bytes on the connection. *)
Theorem recvall_reads_compose (evs : list recv_event) (n m : Z)
    (bs1 bs2 rest : bytes) :
  1 <= n -> 1 <= m ->
  Z.of_nat (List.length bs1) = n ->
  Z.of_nat (List.length bs2) = m ->
  leading_bytes evs = bs1 ++ bs2 ++ rest ->
  exists evs1 evs2 evs12,
    _recvall evs n = (Ok (Some bs1), evs1)
    /\ _recvall evs1 m = (Ok (Some bs2), evs2)
    /\ _recvall evs (n + m) = (Ok (Some (bs1 ++ bs2)), evs12)
    /\ leading_bytes evs2 = rest
    /\ leading_bytes evs12 = rest
    /\ terminator evs2 = terminator evs12.
Proof.
  intros Hn Hm Hl1 Hl2 Hlead.
  destruct (recvall_enough evs n bs1 (bs2 ++ rest) Hn Hl1 Hlead)
    as (evs1 & E1 & Hlead1 & Hterm1).
  destruct (recvall_enough evs1 m bs2 rest Hm Hl2 Hlead1)
    as (evs2 & E2 & Hlead2 & Hterm2).
  destruct (recvall_enough evs (n + m) (bs1 ++ bs2) rest ltac:(lia)
              ltac:(rewrite length_app; lia)
              ltac:(rewrite <- app_assoc; exact Hlead))
    as (evs12 & E12 & Hlead12 & Hterm12).
  exists evs1, evs2, evs12. repeat split; auto. congruence.
Qed.

Lemma recvall_reads_compose_witness :
  exists evs1 evs2 evs12,
    _recvall [Chunk x01 [x02; x03]; Chunk x04 [x05]] 2
    = (Ok (Some [x01; x02]), evs1)
    /\ _recvall evs1 2 = (Ok (Some [x03; x04]), evs2)
    /\ _recvall [Chunk x01 [x02; x03]; Chunk x04 [x05]] (2 + 2)
       = (Ok (Some ([x01; x02] ++ [x03; x04])), evs12)
    /\ leading_bytes evs2 = [x05]
    /\ leading_bytes evs12 = [x05]
    /\ terminator evs2 = terminator evs12.
Proof.
  apply (recvall_reads_compose [Chunk x01 [x02; x03]; Chunk x04 [x05]] 2 2
           [x01; x02] [x03; x04] [x05]); try reflexivity; lia.
Defined.

(** ** Broken streams *)

Lemma on_socket_eq {A} (fd : nat)
    (f : list recv_event -> outcome A * list recv_event) (w : world)
    (s : socket) :
  sockets w !! fd = Some s ->
  closed s = false ->
  on_socket fd f w
  = (fst (f (incoming s)),
     set_sockets (<[fd := set_incoming s (snd (f (incoming s)))]> (sockets w))
       w).
Proof.
  intros Hs Ho. unfold on_socket. rewrite Hs, Ho.
  destruct (f (incoming s)); reflexivity.
Qed.

(** A read of [n] bytes on a stream that is too short: no bytes come back
    (the call returns [None] or raises [ConnectionError]) and the stream is
    left behind its first failure. *)
Lemma recvall_short (evs : list recv_event) (n : Z) :
  1 <= n ->
  Z.of_nat (List.length (leading_bytes evs)) < n ->
  (fst (_recvall evs n) = Ok None
   \/ fst (_recvall evs n) = Raise ConnectionError)
  /\ snd (_recvall evs n) = after_terminator evs.
Proof.
  intros Hn Hshort.
  pose proof (recvall_cases evs n Hn) as Hc.
  pose proof (recvall_loop_residue (S (List.length evs)) evs n []
                ltac:(lia)) as Hr.
  unfold _recvall in *.
  destruct (recvall_loop (S (List.length evs)) evs n []) as [r evs'].
  cbn [fst snd] in *.
  destruct r as [[bs|]|e| |]; try contradiction.
  - destruct Hc as (Hlen & Hlead & _).
    rewrite Hlead, length_app in Hshort. lia.
  - split; [now left|exact Hr].
  - destruct Hc as (-> & _). split; [now right|exact Hr].
Qed.

(** X6.  A wire unit that is cut short is never delivered.  When the
    connection ends, times out or is reset before the four bytes of a header
    have arrived, or after a valid header but before all of the payload it
    declares, the turn of the receive loop ends the loop; the queue, the
    statistics and the clock are as they were, and the bytes that had arrived
    are consumed. *)
Theorem truncated_unit_ends_loop (fd : nat) (l : window) (w : world)
    (s : socket) :
  sockets w !! fd = Some s ->
  closed s = false ->
  Z.of_nat (List.length (leading_bytes (incoming s))) < 4
  \/ (exists header partial n,
        leading_bytes (incoming s) = header ++ partial
        /\ struct_unpack_I header = Ok n
        /\ 1 <= n <= 5 * 1024 * 1024
        /\ Z.of_nat (List.length partial) < n) ->
  let w' := snd (loop_body fd l w) in
  fst (loop_body fd l w) = Ok Break
  /\ frame_queue w' = frame_queue w
  /\ stats w' = stats w
  /\ ticks w' = ticks w
  /\ exists s', sockets w' !! fd = Some s'
                /\ incoming s' = after_terminator (incoming s).
Proof.
  intros Hsock Hopen Hcut. cbv zeta.
  pose proof (lookup_lt_Some _ _ _ Hsock) as Hfd.
  assert (E : loop_body fd l w
              = (Ok Break,
                 set_sockets
                   (<[fd := set_incoming s (after_terminator (incoming s))]>
                      (sockets w)) w)).
  { destruct Hcut
      as [Hshort|(header & partial & n & Hlead & Hhdr & Hn & Hpart)].
    - destruct (recvall_short (incoming s) 4 ltac:(lia) Hshort) as [Hr Hres].
      unfold loop_body, try_except, receive_frame, bind at 1.
      rewrite (on_socket_eq fd _ w s Hsock Hopen). rewrite Hres.
      destruct Hr as [-> | ->]; reflexivity.
    - pose proof (struct_unpack_I_length _ _ Hhdr) as Hlen4.
      destruct (recvall_enough (incoming s) 4 header partial ltac:(lia)
                  ltac:(lia) Hlead) as (evs1 & E1 & Hlead1 & Hterm1).
      pose proof (recvall_loop_residue (S (List.length (incoming s)))
                    (incoming s) 4 [] ltac:(lia)) as Hres1.
      unfold _recvall in E1. rewrite E1 in Hres1. cbn [fst snd] in Hres1.
      fold (_recvall (incoming s) 4) in E1.
      destruct (recvall_short evs1 n ltac:(lia) ltac:(rewrite Hlead1; lia))
        as [Hr Hres].
      assert (Hhne : falsy (Some header) = false)
        by (destruct header; [discriminate|reflexivity]).
      assert (Hrange : (n <=? 0) || (MAX_FRAME_LENGTH <? n) = false).
      { apply orb_false_iff. split; [apply Z.leb_gt|apply Z.ltb_ge];
          unfold MAX_FRAME_LENGTH; lia. }
      unfold loop_body, try_except, receive_frame, bind at 1.
      rewrite (on_socket_eq fd _ w s Hsock Hopen), E1. cbn [fst snd].
      rewrite Hhne. unfold bind at 1, lift. simpl default.
      rewrite Hhdr, Hrange. unfold bind at 1.
      rewrite (on_socket_eq fd _
                 (set_sockets (<[fd := set_incoming s evs1]> (sockets w)) w)
                 (set_incoming s evs1)
                 ltac:(cbn; apply list_lookup_insert_eq; exact Hfd) Hopen).
      cbn [incoming set_incoming]. rewrite Hres, Hres1.
      cbn [sockets set_sockets]. rewrite list_insert_insert_eq.
      destruct Hr as [-> | ->]; reflexivity. }
  rewrite E. cbn [fst snd].
  refine (conj eq_refl (conj eq_refl (conj eq_refl (conj eq_refl
            (ex_intro _ (set_incoming s (after_terminator (incoming s)))
               (conj _ eq_refl)))))).
  apply list_lookup_insert_eq; exact Hfd.
Qed.

Lemma truncated_unit_ends_loop_witness :
  fst (loop_body 0 (mkWindow 0 0)
         (world_with_client [Chunk x00 [x00; x00; x03; xaa; xbb]; Timeout]
            (mkQueue 1 []) (fun _ => 5%float)))
  = Ok Break.
Proof.
  apply (truncated_unit_ends_loop 0 (mkWindow 0 0)
           (world_with_client [Chunk x00 [x00; x00; x03; xaa; xbb]; Timeout]
              (mkQueue 1 []) (fun _ => 5%float))
           (mkSocket [Chunk x00 [x00; x00; x03; xaa; xbb]; Timeout] []
              false false)); try reflexivity.
  right. exists [x00; x00; x00; x03], [xaa; xbb], 3.
  repeat split; try reflexivity; cbn; lia.
Defined.

(** ** The length prefix *)

Lemma byte_to_Z_range (b : byte) : 0 <= byte_to_Z b < 256.
Proof.
  unfold byte_to_Z. pose proof (Byte.to_N_bounded b) as H. lia.
Qed.

Lemma byte_to_Z_inj (b b' : byte) : byte_to_Z b = byte_to_Z b' -> b = b'.
Proof.
  unfold byte_to_Z. intros H. apply N2Z.inj in H.
  pose proof (Byte.of_to_N b) as H1. pose proof (Byte.of_to_N b') as H2.
  rewrite H in H1. congruence.
Qed.

Lemma byte_to_Z_of_Z (z : Z) : byte_to_Z (byte_of_Z z) = z mod 256.
Proof.
  unfold byte_to_Z, byte_of_Z.
  pose proof (Z.mod_pos_bound z 256 ltac:(lia)) as Hb.
  destruct (Byte.of_N (Z.to_N (z mod 256))) as [b|] eqn:E.
  - apply Byte.to_of_N in E. cbn [default from_option id]. rewrite E. lia.
  - apply Byte.of_N_None_iff in E. lia.
Qed.

(** Putting a value of [m] bits below a shifted one is adding it. *)
Lemma lor_shiftl_add (a b m : Z) :
  0 <= m -> 0 <= b < 2 ^ m -> Z.lor (Z.shiftl a m) b = a * 2 ^ m + b.
Proof.
  intros Hm Hb. rewrite Z.shiftl_mul_pow2 by lia.
  assert (Hland : Z.land (a * 2 ^ m) b = 0).
  { apply Z.bits_inj'. intros k Hk. rewrite Z.land_spec, Z.bits_0.
    destruct (Z.lt_ge_cases k m) as [Hlt|Hge].
    - rewrite Z.mul_pow2_bits_low by lia. reflexivity.
    - rewrite <- (Z.mod_small b (2 ^ m)) by lia.
      rewrite Z.mod_pow2_bits_high by lia. apply andb_false_r. }
  rewrite <- Z.lxor_lor by exact Hland.
  symmetry. apply Z.add_nocarry_lxor. exact Hland.
Qed.

(** The value [struct.unpack('>I', ...)] gives to four bytes. *)
Lemma struct_unpack_I_value (b0 b1 b2 b3 : byte) :
  struct_unpack_I [b0; b1; b2; b3]
  = Ok (byte_to_Z b0 * 2 ^ 24 + byte_to_Z b1 * 2 ^ 16
        + byte_to_Z b2 * 2 ^ 8 + byte_to_Z b3).
Proof.
  pose proof (byte_to_Z_range b0). pose proof (byte_to_Z_range b1).
  pose proof (byte_to_Z_range b2). pose proof (byte_to_Z_range b3).
  cbn [struct_unpack_I]. f_equal.
  rewrite (lor_shiftl_add (byte_to_Z b2) (byte_to_Z b3) 8) by lia.
  rewrite (lor_shiftl_add (byte_to_Z b1) _ 16) by lia.
  rewrite (lor_shiftl_add (byte_to_Z b0) _ 24) by lia.
  lia.
Qed.

Lemma struct_unpack_I_be32 (n : Z) :
  0 <= n < 2 ^ 32 -> struct_unpack_I (be32 n) = Ok n.
Proof.
  intros Hn. unfold be32. rewrite struct_unpack_I_value. f_equal.
  rewrite !byte_to_Z_of_Z, !Z.shiftr_div_pow2 by lia.
  change (2 ^ 24) with (256 * 256 * 256). change (2 ^ 16) with (256 * 256).
  change (2 ^ 8) with 256. change (2 ^ 32) with 4294967296 in Hn.
  rewrite <- !Z.div_div by lia.
  set (q1 := n / 256). set (q2 := q1 / 256). set (q3 := q2 / 256).
  pose proof (Z.div_mod n 256 ltac:(lia)) as E1. fold q1 in E1.
  pose proof (Z.div_mod q1 256 ltac:(lia)) as E2. fold q2 in E2.
  pose proof (Z.div_mod q2 256 ltac:(lia)) as E3. fold q3 in E3.
  pose proof (Z.mod_pos_bound n 256 ltac:(lia)).
  pose proof (Z.mod_pos_bound q1 256 ltac:(lia)).
  pose proof (Z.mod_pos_bound q2 256 ltac:(lia)).
  assert (Hq3 : 0 <= q3 < 256) by lia.
  rewrite (Z.mod_small q3 256) by exact Hq3. lia.
Qed.

(** X7.  The length prefix is the big-endian reading of exactly four bytes.
    Anything but four bytes is a [struct.error]; four bytes decode to
    [b0*2^24 + b1*2^16 + b2*2^8 + b3], a value in [0, 2^32); two different
    headers never decode to the same length; and every length in [0, 2^32)
    is decoded back from its four big-endian bytes. *)
Theorem struct_unpack_I_codec :
  (forall header, List.length header <> 4%nat ->
     struct_unpack_I header = Raise StructError)
  /\ (forall b0 b1 b2 b3,
      exists n,
        struct_unpack_I [b0; b1; b2; b3] = Ok n
        /\ n = byte_to_Z b0 * 2 ^ 24 + byte_to_Z b1 * 2 ^ 16
               + byte_to_Z b2 * 2 ^ 8 + byte_to_Z b3
        /\ 0 <= n < 2 ^ 32)
  /\ (forall header header' n,
      struct_unpack_I header = Ok n ->
      struct_unpack_I header' = Ok n ->
      header = header')
  /\ (forall n, 0 <= n < 2 ^ 32 -> struct_unpack_I (be32 n) = Ok n).
Proof.
  refine (conj _ (conj _ (conj _ _))).
  - intros header Hlen.
    destruct header as [|b0 [|b1 [|b2 [|b3 [|b4 t]]]]]; cbn in *;
      try reflexivity. congruence.
  - intros b0 b1 b2 b3. eexists. split; [apply struct_unpack_I_value|].
    split; [reflexivity|].
    pose proof (byte_to_Z_range b0). pose proof (byte_to_Z_range b1).
    pose proof (byte_to_Z_range b2). pose proof (byte_to_Z_range b3). lia.
  - intros header header' n H1 H2.
    destruct header as [|b0 [|b1 [|b2 [|b3 [|b4 t]]]]]; try discriminate H1.
    destruct header' as [|c0 [|c1 [|c2 [|c3 [|c4 t']]]]]; try discriminate H2.
    rewrite struct_unpack_I_value in H1, H2.
    injection H1 as H1. injection H2 as H2.
    pose proof (byte_to_Z_range b0). pose proof (byte_to_Z_range b1).
    pose proof (byte_to_Z_range b2). pose proof (byte_to_Z_range b3).
    pose proof (byte_to_Z_range c0). pose proof (byte_to_Z_range c1).
    pose proof (byte_to_Z_range c2). pose proof (byte_to_Z_range c3).
    assert (byte_to_Z b0 = byte_to_Z c0) by lia.
    assert (byte_to_Z b1 = byte_to_Z c1) by lia.
    assert (byte_to_Z b2 = byte_to_Z c2) by lia.
    assert (byte_to_Z b3 = byte_to_Z c3) by lia.
    f_equal; [|f_equal; [|f_equal; [|f_equal]]]; now apply byte_to_Z_inj.
  - exact struct_unpack_I_be32.
Qed.

Lemma struct_unpack_I_codec_witness :
  struct_unpack_I (be32 5242880) = Ok 5242880
  /\ struct_unpack_I [x00; x50; x00] = Raise StructError.
Proof.
  destruct struct_unpack_I_codec as (Hshort & _ & _ & Hround).
  split; [apply Hround; lia|apply Hshort; cbn; lia].
Defined.

(** ** A whole connection *)

Lemma loop_body_short_header (fd : nat) (l : window) (w : world) (s : socket) :
  sockets w !! fd = Some s ->
  closed s = false ->
  Z.of_nat (List.length (leading_bytes (incoming s))) < 4 ->
  loop_body fd l w
  = (Ok Break,
     set_sockets
       (<[fd := set_incoming s (after_terminator (incoming s))]> (sockets w))
       w).
Proof.
  intros Hsock Hopen Hshort.
  destruct (recvall_short (incoming s) 4 ltac:(lia) Hshort) as [Hr Hres].
  unfold loop_body, try_except, receive_frame, bind at 1.
  rewrite (on_socket_eq fd _ w s Hsock Hopen). rewrite Hres.
  destruct Hr as [-> | ->]; reflexivity.
Qed.

(** With a frame count below [2^63 - 1], the window arithmetic sends the
    loop to its next turn and touches nothing but [fps]. *)
Lemma window_step_continues (l : window) (now : float) (w3 : world) :
  0 <= frame_count l < 2 ^ 63 - 1 ->
  exists l' w',
    window_step l now w3 = (Ok (Continue l'), w')
    /\ 0 <= frame_count l' <= frame_count l + 1
    /\ server w' = server w3
    /\ frame_queue w' = frame_queue w3
    /\ sockets w' = sockets w3
    /\ ticks w' = ticks w3
    /\ clock w' = clock w3
    /\ last_updated (stats w') = last_updated (stats w3).
Proof.
  intros Hc. unfold window_step.
  destruct (PrimFloat.leb 1 _) eqn:Hle.
  - unfold truediv_int_float.
    destruct (float_of_int_defined (frame_count l + 1) ltac:(lia)) as [x ->].
    rewrite (leb_one_nonzero _ Hle).
    eexists _, _. split; [reflexivity|]. cbn. repeat split; lia.
  - eexists _, _. split; [reflexivity|]. cbn. repeat split; lia.
Qed.

Lemma wire_valid_head (p : bytes) :
  valid_payload p ->
  struct_unpack_I (be32 (Z.of_nat (List.length p)))
  = Ok (Z.of_nat (List.length p)).
Proof.
  intros Hp. apply struct_unpack_I_be32. unfold valid_payload in Hp.
  change (2 ^ 32) with 4294967296. lia.
Qed.

Lemma last_cons_default {A} (l : list A) : forall x d : A,
  List.last (x :: l) d = List.last l x.
Proof.
  induction l as [|y l IH]; intros x d; [reflexivity|].
  change (List.last (x :: y :: l) d) with (List.last (y :: l) d).
  now rewrite !IH.
Qed.

(** The receive loop on a connection that delivers the wire form of a list
    of valid payloads and then ends, times out or is reset. *)
Lemma client_loop_frames (fd : nat) (payloads : list bytes) :
  forall (fuel : nat) (l : window) (w : world) (s : socket),
    sockets w !! fd = Some s ->
    closed s = false ->
    _should_run (server w) = true ->
    Forall valid_payload payloads ->
    leading_bytes (incoming s) = wire payloads ->
    0 <= frame_count l ->
    frame_count l + Z.of_nat (List.length payloads) < 2 ^ 63 - 1 ->
    (List.length payloads < fuel)%nat ->
    let r := client_loop fuel fd l w in
    fst r = Ok tt
    /\ frame_queue (snd r)
       = fold_left pushed (stamp (clock w) (ticks w) payloads) (frame_queue w)
    /\ ticks (snd r) = (ticks w + List.length payloads)%nat
    /\ last_updated (stats (snd r))
       = List.last (map snd (stamp (clock w) (ticks w) payloads))
           (last_updated (stats w)).
Proof.
  induction payloads as [|p rest IH];
    intros fuel l w s Hsock Hopen Hrun Hvalid Hlead Hc Hbound Hfuel;
    (destruct fuel as [|fuel]; [cbn in Hfuel; lia|]); cbv zeta.
  - assert (E : client_loop (S fuel) fd l w
                = (Ok tt,
                   set_sockets
                     (<[fd := set_incoming s (after_terminator (incoming s))]>
                        (sockets w)) w)).
    { cbn [client_loop]. unfold bind at 1, get_world. rewrite Hrun.
      unfold bind.
      rewrite (loop_body_short_header fd l w s Hsock Hopen)
        by (rewrite Hlead; cbn; lia).
      reflexivity. }
    rewrite E. cbn. repeat split; lia.
  - apply Forall_cons_iff in Hvalid as [Hp Hvalid].
    cbn [wire] in Hlead.
    destruct (loop_body_valid fd l w s (be32 (Z.of_nat (List.length p))) p
                (wire rest) (Z.of_nat (List.length p)) Hsock Hopen Hlead
                (wire_valid_head p Hp) Hp eq_refl)
      as (evs' & Hrest & _ & Hbody).
    cbn [List.length] in Hbound, Hfuel.
    destruct (window_step_continues l (clock w (ticks w))
                (after_frame fd s evs' p w) ltac:(lia))
      as (l' & w1 & Hstep & Hl' & Hsrv & Hq & Hso & Htk & Hck & Hlu).
    assert (E : client_loop (S fuel) fd l w = client_loop fuel fd l' w1).
    { cbn [client_loop]. unfold bind at 1, get_world. rewrite Hrun.
      unfold bind. rewrite Hbody, Hstep. reflexivity. }
    rewrite E.
    assert (Hsock1 : sockets w1 !! fd = Some (set_incoming s evs')).
    { rewrite Hso. cbn. apply list_lookup_insert_eq.
      eapply lookup_lt_Some, Hsock. }
    specialize (IH fuel l' w1 (set_incoming s evs') Hsock1 Hopen
                  ltac:(rewrite Hsrv; exact Hrun) Hvalid Hrest
                  ltac:(lia) ltac:(lia) ltac:(lia)).
    cbv zeta in IH. destruct IH as (Hr & Hfq & Hticks & Hlast).
    rewrite Hr, Hfq, Hticks, Hlast, Hq, Htk, Hck, Hlu.
    cbn [after_frame frame_queue set_stats set_frame_queue set_ticks
         set_sockets ticks clock stats last_updated stamp fold_left map snd
         List.length].
    repeat split; try lia.
    symmetry. apply last_cons_default.
Qed.

Lemma fold_pushed_unbounded (l : list (bytes * float)) : forall q : Queue,
  maxsize q <= 0 ->
  fold_left pushed l q = mkQueue (maxsize q) (items q ++ l).
Proof.
  induction l as [|item l IH]; intros q Hq; cbn [fold_left].
  - rewrite app_nil_r. destruct q; reflexivity.
  - assert (Hp : pushed q item = mkQueue (maxsize q) (items q ++ [item])).
    { unfold pushed, queue_full.
      replace (0 <? maxsize q) with false by (symmetry; apply Z.ltb_ge; lia).
      cbn [andb]. cbv zeta.
      replace (0 <? maxsize q) with false by (symmetry; apply Z.ltb_ge; lia).
      reflexivity. }
    rewrite Hp, IH by exact Hq. cbn [maxsize items].
    now rewrite <- app_assoc.
Qed.

Lemma fold_pushed_capacity_one (l : list (bytes * float)) : forall q : Queue,
  maxsize q = 1 ->
  (List.length (items q) <= 1)%nat ->
  forall item, last l = Some item ->
  fold_left pushed l q = mkQueue 1 [item].
Proof.
  induction l as [|x l IH]; intros q Hmax Hlen item Hlast; [discriminate|].
  cbn [fold_left]. rewrite (pushed_capacity_one q x Hmax Hlen).
  destruct l as [|y l'].
  - cbn in Hlast. injection Hlast as <-. reflexivity.
  - apply IH; [reflexivity|cbn; lia|]. exact Hlast.
Qed.

Lemma last_stamp (clock : nat -> float) (payloads : list bytes) :
  forall (t : nat) (p : bytes),
    last payloads = Some p ->
    last (stamp clock t payloads)
    = Some (p, clock (t + List.length payloads - 1)%nat).
Proof.
  induction payloads as [|x rest IH]; intros t p Hlast; [discriminate|].
  destruct rest as [|y rest'].
  - cbn in Hlast. injection Hlast as <-. cbn. do 3 f_equal. lia.
  - cbn [stamp]. change (last (x :: y :: rest')) with (last (y :: rest')) in Hlast.
    specialize (IH (S t) p Hlast). cbn [stamp] in IH.
    change (last ((x, clock t) :: (y, clock (S t)) :: stamp clock (S (S t)) rest'))
      with (last ((y, clock (S t)) :: stamp clock (S (S t)) rest')).
    rewrite IH. do 3 f_equal. cbn [List.length]. lia.
Qed.

Lemma on_socket_sockets_length {A} (fd : nat)
    (f : list recv_event -> outcome A * list recv_event) (w : world) :
  List.length (sockets (snd (on_socket fd f w))) = List.length (sockets w).
Proof.
  unfold on_socket. destruct (sockets w !! fd) as [s|]; [|reflexivity].
  destruct (closed s); [reflexivity|]. destruct (f (incoming s)).
  cbn. apply length_insert.
Qed.

Ltac sockets_leaf E S :=
  cbn in E;
  repeat match type of E with
         | context [if ?b then _ else _] => destruct b; cbn in E
         end;
  injection E as <- <-; cbn; rewrite ?S; reflexivity.

(** No turn of the receive loop opens or forgets a socket. *)
Lemma loop_body_sockets_length (fd : nat) (l : window) (w : world) r w' :
  loop_body fd l w = (r, w') ->
  List.length (sockets w') = List.length (sockets w).
Proof.
  intros E. unfold loop_body, try_except, receive_frame in E.
  unfold bind at 1 in E.
  pose proof (on_socket_sockets_length fd (fun evs => _recvall evs 4) w) as S1.
  destruct (on_socket fd (fun evs => _recvall evs 4) w) as [r1 w1].
  cbn [snd] in S1.
  destruct r1 as [h|e| |]; try (sockets_leaf E S1).
  destruct (falsy h); [sockets_leaf E S1|].
  unfold bind at 1, lift in E.
  destruct (struct_unpack_I (default [] h)) as [n|e| |];
    try (sockets_leaf E S1).
  destruct ((n <=? 0) || (MAX_FRAME_LENGTH <? n)); [sockets_leaf E S1|].
  unfold bind at 1 in E.
  pose proof (on_socket_sockets_length fd (fun evs => _recvall evs n) w1)
    as S2.
  destruct (on_socket fd (fun evs => _recvall evs n) w1) as [r2 w2].
  cbn [snd] in S2. rewrite S1 in S2.
  destruct r2 as [p|e| |]; try (sockets_leaf E S2).
  destruct (falsy p); [sockets_leaf E S2|].
  unfold bind at 1, time_time in E. unfold bind at 1 in E.
  rewrite push_frame_eq in E. cbv beta iota in E.
  destruct (PrimFloat.leb 1 _); [|sockets_leaf E S2].
  unfold bind, lift, modify, ret in E.
  destruct (truediv_int_float _ _) as [q|e| |]; sockets_leaf E S2.
Qed.

Lemma client_loop_sockets_length (fuel : nat) : forall (fd : nat) (l : window)
    (w : world),
  List.length (sockets (snd (client_loop fuel fd l w)))
  = List.length (sockets w).
Proof.
  induction fuel as [|fuel IH]; intros fd l w; cbn [client_loop];
    unfold bind at 1, get_world; destruct (_should_run (server w));
    try reflexivity.
  unfold bind. destruct (loop_body fd l w) as [r w1] eqn:E.
  pose proof (loop_body_sockets_length fd l w r w1 E) as H1.
  destruct r as [[l'|]|e| |]; cbn [snd]; try exact H1.
  rewrite IH. exact H1.
Qed.

Lemma close_socket_closes (fd : nat) (w : world) :
  (fd < List.length (sockets w))%nat ->
  exists s', sockets (close_socket fd w) !! fd = Some s' /\ closed s' = true.
Proof.
  intros Hfd. unfold close_socket.
  destruct (lookup_lt_is_Some_2 (sockets w) fd Hfd) as [s Hs]. rewrite Hs.
  eexists. split; [cbn; apply list_lookup_insert_eq; exact Hfd|reflexivity].
Qed.

(** X8.  A whole connection.  When a producer sends the wire form of a list
    of payloads of valid sizes and the stream then ends, times out or is
    reset, [_handle_client] returns normally, having read the clock once for
    the window and once for each frame, and
    - on a queue without bound, every payload has been appended, in the
      order sent, byte for byte, each with the time of its receipt;
    - on the capacity-1 queue of the application, with no consumer polling,
      the queue holds the last payload sent, and only it;
    - [last_updated] is the time of receipt of the last payload;
    - the control channel is disconnected again and the socket is closed. *)
Theorem handle_client_delivers_frames (fuel : nat) (fd : nat) (w : world)
    (s : socket) (payloads : list bytes) :
  sockets w !! fd = Some s ->
  closed s = false ->
  _should_run (server w) = true ->
  Forall valid_payload payloads ->
  leading_bytes (incoming s) = wire payloads ->
  Z.of_nat (List.length payloads) < 2 ^ 63 - 1 ->
  (List.length payloads < fuel)%nat ->
  let r := _handle_client fuel fd w in
  let w' := snd r in
  fst r = Ok tt
  /\ ticks w' = S (ticks w + List.length payloads)
  /\ (maxsize (frame_queue w) <= 0 ->
      items (frame_queue w')
      = items (frame_queue w) ++ stamp (clock w) (S (ticks w)) payloads)
  /\ (forall p,
      maxsize (frame_queue w) = 1 ->
      (List.length (items (frame_queue w)) <= 1)%nat ->
      last payloads = Some p ->
      items (frame_queue w')
      = [(p, clock w (ticks w + List.length payloads)%nat)]
      /\ last_updated (stats w')
         = clock w (ticks w + List.length payloads)%nat)
  /\ _client_output_stream (server w') = None
  /\ (exists s', sockets w' !! fd = Some s' /\ closed s' = true).
Proof.
  intros Hsock Hopen Hrun Hvalid Hlead Hbound Hfuel. cbv zeta.
  set (w0 := set_ticks (S (ticks w))
               (set_server (with_client_output_stream (Some fd)) w)).
  pose proof (client_loop_frames fd payloads fuel
                (mkWindow 0 (clock w (ticks w))) w0 s Hsock Hopen Hrun Hvalid
                Hlead ltac:(cbn; lia) ltac:(cbn; lia) Hfuel) as H.
  cbv zeta in H. destruct H as (Hr & Hfq & Hticks & Hlast).
  pose proof (client_loop_sockets_length fuel fd
                (mkWindow 0 (clock w (ticks w))) w0) as Hslen.
  assert (E : _handle_client fuel fd w
              = (Ok tt,
                 close_socket fd
                   (set_server (with_client_output_stream None)
                      (snd (client_loop fuel fd
                              (mkWindow 0 (clock w (ticks w))) w0))))).
  { unfold _handle_client, try_finally. unfold bind at 1, modify.
    unfold bind at 1, time_time. unfold bind at 1.
    change (client_loop fuel fd _ _)
      with (client_loop fuel fd (mkWindow 0 (clock w (ticks w))) w0).
    destruct (client_loop fuel fd (mkWindow 0 (clock w (ticks w))) w0)
      as [r w1]. cbn [fst snd] in *. subst r. reflexivity. }
  rewrite E. cbn [fst snd].
  set (w1 := snd (client_loop fuel fd (mkWindow 0 (clock w (ticks w))) w0))
    in *.
  assert (Hclose : forall w2,
            frame_queue (close_socket fd w2) = frame_queue w2
            /\ ticks (close_socket fd w2) = ticks w2
            /\ server (close_socket fd w2) = server w2
            /\ stats (close_socket fd w2) = stats w2).
  { intros w2. unfold close_socket. destruct (sockets w2 !! fd); auto. }
  destruct (Hclose (set_server (with_client_output_stream None) w1))
    as (Hcq & Hct & Hcs & Hcst).
  rewrite Hcq, Hct, Hcs, Hcst.
  cbn [frame_queue ticks server stats set_server with_client_output_stream
       _client_output_stream].
  rewrite Hfq, Hticks, Hlast.
  cbn [frame_queue ticks clock stats w0 set_ticks set_server].
  refine (conj eq_refl (conj _ (conj _ (conj _ (conj eq_refl _))))).
  - lia.
  - intros Hmax. rewrite fold_pushed_unbounded by exact Hmax. reflexivity.
  - intros p Hmax Hlen Hp.
    pose proof (last_stamp (clock w) payloads (S (ticks w)) p Hp) as Hls.
    rewrite (fold_pushed_capacity_one _ _ Hmax Hlen _ Hls). cbn [items].
    replace (S (ticks w) + List.length payloads - 1)%nat
      with (ticks w + List.length payloads)%nat by lia.
    split; [reflexivity|].
    destruct payloads as [|x rest]; [discriminate|].
    cbn [stamp map snd]. rewrite last_cons_default.
    clear - Hp. revert x Hp.
    generalize (ticks w). induction rest as [|y rest IH]; intros t x Hp.
    + cbn. f_equal. lia.
    + cbn [stamp map snd]. rewrite last_cons_default.
      change (last (x :: y :: rest)) with (last (y :: rest)) in Hp.
      rewrite (IH (S t) y Hp). f_equal. cbn [List.length]. lia.
  - apply close_socket_closes. cbn [sockets set_server].
    rewrite Hslen. cbn. eapply lookup_lt_Some, Hsock.
Qed.

Lemma handle_client_delivers_frames_witness :
  items (frame_queue (snd (_handle_client 3 0
     (world_with_client
        [Chunk x00 [x00; x00; x01; xaa; x00; x00]; Chunk x00 [x02; xbb; xcc]]
        (mkQueue 1 []) (fun k => if Nat.eqb k 2 then 7%float else 0%float)))))
  = [([xbb; xcc], 7%float)].
Proof.
  destruct (handle_client_delivers_frames 3 0
              (world_with_client
                 [Chunk x00 [x00; x00; x01; xaa; x00; x00];
                  Chunk x00 [x02; xbb; xcc]]
                 (mkQueue 1 [])
                 (fun k => if Nat.eqb k 2 then 7%float else 0%float))
              (mkSocket
                 [Chunk x00 [x00; x00; x01; xaa; x00; x00];
                  Chunk x00 [x02; xbb; xcc]] [] false false)
              [[xaa]; [xbb; xcc]]
              eq_refl eq_refl eq_refl
              ltac:(repeat constructor; unfold valid_payload; cbn; lia)
              eq_refl ltac:(cbn; lia) ltac:(cbn; lia))
    as (_ & _ & _ & H & _).
  destruct (H [xbb; xcc] eq_refl ltac:(cbn; lia) eq_refl) as [Hq _].
  exact Hq.
Defined.

(** X9.  [_handle_client] cleans up however the connection ends.  The client
    socket is closed when the method is left, whether it returns or an
    exception leaves it, and no socket is opened or forgotten.  When it
    returns normally the control channel is disconnected:
    [_client_output_stream] is [None] and a command sent afterwards does
    nothing. *)
Theorem handle_client_cleanup (fuel : nat) (fd : nat) (w : world) :
  (fd < List.length (sockets w))%nat ->
  let r := _handle_client fuel fd w in
  (exists s', sockets (snd r) !! fd = Some s' /\ closed s' = true)
  /\ List.length (sockets (snd r)) = List.length (sockets w)
  /\ (fst r = Ok tt ->
      _client_output_stream (server (snd r)) = None
      /\ forall command,
           send_control_command command (snd r) = (Ok tt, snd r)).
Proof.
  intros Hfd. cbv zeta.
  set (w0 := set_ticks (S (ticks w))
               (set_server (with_client_output_stream (Some fd)) w)).
  pose proof (client_loop_sockets_length fuel fd
                (mkWindow 0 (clock w (ticks w))) w0) as Hslen.
  assert (E : _handle_client fuel fd w
              = let '(r1, w1) := client_loop fuel fd
                                   (mkWindow 0 (clock w (ticks w))) w0 in
                match r1 with
                | Ok _ =>
                    (Ok tt,
                     close_socket fd
                       (set_server (with_client_output_stream None) w1))
                | Raise e => (Raise e, close_socket fd w1)
                | Blocks => (Blocks, close_socket fd w1)
                | OutOfFuel => (OutOfFuel, close_socket fd w1)
                end).
  { unfold _handle_client, try_finally. unfold bind at 1, modify.
    unfold bind at 1, time_time. unfold bind at 1.
    change (client_loop fuel fd _ _)
      with (client_loop fuel fd (mkWindow 0 (clock w (ticks w))) w0).
    destruct (client_loop fuel fd (mkWindow 0 (clock w (ticks w))) w0)
      as [[u|e| |] w1]; reflexivity. }
  rewrite E. clear E.
  destruct (client_loop fuel fd (mkWindow 0 (clock w (ticks w))) w0)
    as [r1 w1]. cbn [snd] in Hslen.
  assert (Hlen1 : List.length (sockets w1) = List.length (sockets w))
    by (rewrite Hslen; reflexivity).
  assert (Hclose : forall w2,
            List.length (sockets (close_socket fd w2))
            = List.length (sockets w2)
            /\ server (close_socket fd w2) = server w2).
  { intros w2. unfold close_socket.
    destruct (sockets w2 !! fd); [|auto]. cbn. split; [|reflexivity].
    apply length_insert. }
  destruct r1 as [u|e| |]; cbn [fst snd].
  - refine (conj _ (conj _ _)).
    + apply close_socket_closes. cbn. lia.
    + rewrite (proj1 (Hclose _)). cbn. exact Hlen1.
    + intros _.
      assert (Hnone : _client_output_stream
                        (server (close_socket fd
                           (set_server (with_client_output_stream None) w1)))
                      = None)
        by (rewrite (proj2 (Hclose _)); reflexivity).
      split; [exact Hnone|].
      intros command. unfold send_control_command, bind, get_world.
      rewrite Hnone. reflexivity.
  - refine (conj _ (conj _ _)); [apply close_socket_closes; lia| |discriminate].
    rewrite (proj1 (Hclose _)). exact Hlen1.
  - refine (conj _ (conj _ _)); [apply close_socket_closes; lia| |discriminate].
    rewrite (proj1 (Hclose _)). exact Hlen1.
  - refine (conj _ (conj _ _)); [apply close_socket_closes; lia| |discriminate].
    rewrite (proj1 (Hclose _)). exact Hlen1.
Qed.

Lemma handle_client_cleanup_witness :
  exists s',
    sockets (snd (_handle_client 2 0
       (world_with_client [Chunk x00 [x00]; Reset] (mkQueue 1 [])
          (fun _ => 0%float)))) !! 0%nat = Some s'
    /\ closed s' = true.
Proof.
  apply (handle_client_cleanup 2 0
           (world_with_client [Chunk x00 [x00]; Reset] (mkQueue 1 [])
              (fun _ => 0%float))).
  cbn. lia.
Defined.

(** ** Failures of the control channel *)

(** X10.  A command that cannot be sent is reported and nothing else
    happens.  With [_client_output_stream] set, when the command has no UTF-8
    encoding, or the socket is closed, or the write fails,
    [send_control_command] returns normally, prints one "Failed to send"
    line carrying the exception, and records nothing on any socket. *)
Theorem send_failure_is_printed (command : list Z) (w : world) (fd : nat) :
  _client_output_stream (server w) = Some fd ->
  (forall e, encode_utf8 command = Raise e ->
     send_control_command command w
     = (Ok tt, set_stdout (stdout w ++ [FailedToSend e]) w))
  /\ (forall data, encode_utf8 command = Ok data ->
      (sockets w !! fd = None
       \/ exists s, sockets w !! fd = Some s /\ closed s = true) ->
      send_control_command command w
      = (Ok tt, set_stdout (stdout w ++ [FailedToSend OSError]) w))
  /\ (forall data s, encode_utf8 command = Ok data ->
      sockets w !! fd = Some s ->
      closed s = false ->
      write_fails s = true ->
      send_control_command command w
      = (Ok tt, set_stdout (stdout w ++ [FailedToSend ConnectionError]) w)).
Proof.
  intros Hfd. unfold send_control_command, bind, get_world. rewrite Hfd.
  unfold try_except, bind, lift, sendall, print, modify.
  refine (conj _ (conj _ _)).
  - intros e ->. reflexivity.
  - intros data -> [Hnone|(s & Hs & Hc)].
    + rewrite Hnone. reflexivity.
    + rewrite Hs, Hc. reflexivity.
  - intros data s -> Hs Hc Hw. rewrite Hs, Hc, Hw. reflexivity.
Qed.

Lemma send_failure_is_printed_witness :
  send_control_command [55357] connected_world
  = (Ok tt,
     set_stdout [FailedToSend UnicodeEncodeError] connected_world).
Proof.
  destruct (send_failure_is_printed [55357] connected_world 0 eq_refl)
    as (H & _).
  apply (H UnicodeEncodeError). reflexivity.
Defined.

(** ** Starting and stopping *)

Lemma start_alive (w : world) :
  _server_thread (server w) = Some Alive -> start w = (Ok tt, w).
Proof.
  intros H. unfold start, bind, get_world. rewrite H. reflexivity.
Qed.

Lemma start_makes_alive (w : world) :
  _server_thread (server (snd (start w))) = Some Alive.
Proof.
  unfold start, bind, get_world, modify, spawn_server_thread.
  destruct (_server_thread (server w)) as [[| |e]|] eqn:H; cbn;
    try reflexivity; exact H.
Qed.

(** X11.  [start] is idempotent.  While the server thread is alive, [start]
    changes nothing; calling it twice in a row is the same as calling it
    once.  After the thread has ended (normally or by an exception), [start]
    sets the run flag and starts a new thread. *)
Theorem start_is_idempotent (w : world) :
  (_server_thread (server w) = Some Alive -> start w = (Ok tt, w))
  /\ snd (start (snd (start w))) = snd (start w)
  /\ (forall t, _server_thread (server w) = Some t -> is_alive t = false ->
      _server_thread (server (snd (start w))) = Some Alive
      /\ _should_run (server (snd (start w))) = true).
Proof.
  refine (conj (start_alive w) (conj _ _)).
  - rewrite (start_alive (snd (start w)) (start_makes_alive w)). reflexivity.
  - intros t Ht Hdead.
    unfold start, bind, get_world, modify, spawn_server_thread.
    rewrite Ht, Hdead. cbn. auto.
Qed.

Lemma start_is_idempotent_witness :
  _server_thread (server (snd (start
     (server_thread_main 1 1 (snd (start unbindable_world))))))
  = Some Alive.
Proof.
  destruct (start_is_idempotent
              (server_thread_main 1 1 (snd (start unbindable_world))))
    as (_ & _ & H).
  apply (H (Crashed OSError)); reflexivity.
Defined.

Lemma shutdown_and_close_server (fd : nat) (w : world) :
  server (shutdown_and_close fd w) = server w.
Proof.
  unfold shutdown_and_close. destruct (sockets w !! fd) as [s|]; [|reflexivity].
  destruct (closed s); reflexivity.
Qed.

(** The world [stop] leaves when a client socket is held. *)
Lemma stop_eq (w : world) :
  stop w
  = (Ok tt,
     match _client_socket (server w) with
     | Some fd =>
         set_server (with_client_socket None)
           (shutdown_and_close fd (set_server (with_should_run false) w))
     | None => set_server (with_should_run false) w
     end).
Proof.
  unfold stop, bind, get_world, modify.
  cbn [server set_server with_should_run _client_socket].
  destruct (_client_socket (server w)); reflexivity.
Qed.

Lemma stop_closes_client (w : world) (fd : nat) (s : socket) :
  _client_socket (server w) = Some fd ->
  sockets w !! fd = Some s ->
  _client_output_stream (server (snd (stop w)))
  = _client_output_stream (server w)
  /\ exists s', sockets (snd (stop w)) !! fd = Some s' /\ closed s' = true.
Proof.
  intros Hcs Hs. rewrite stop_eq, Hcs. cbn [snd].
  split.
  - cbn [server set_server]. rewrite shutdown_and_close_server. reflexivity.
  - cbn [sockets set_server]. unfold shutdown_and_close.
    cbn [sockets set_server]. rewrite Hs. destruct (closed s) eqn:Hc.
    + exists s. cbn. auto.
    + eexists. split;
        [cbn; apply list_lookup_insert_eq; eapply lookup_lt_Some, Hs|].
      reflexivity.
Qed.

(** X12.  [stop] never raises.  It clears the run flag and forgets
    [_client_socket], whose socket, if there was one, is closed; it leaves
    [_client_output_stream] as it was.  Calling it again changes nothing
    more, and once it has been called a receive loop ends at its next test
    of the flag without reading anything. *)
Theorem stop_is_safe (w : world) :
  let w' := snd (stop w) in
  fst (stop w) = Ok tt
  /\ _should_run (server w') = false
  /\ _client_socket (server w') = None
  /\ _client_output_stream (server w') = _client_output_stream (server w)
  /\ (forall fd s, _client_socket (server w) = Some fd ->
      sockets w !! fd = Some s ->
      exists s', sockets w' !! fd = Some s' /\ closed s' = true)
  /\ snd (stop w') = w'
  /\ (forall fuel fd l, client_loop fuel fd l w' = (Ok tt, w')).
Proof.
  cbv zeta. rewrite stop_eq. cbn [fst snd].
  destruct (_client_socket (server w)) as [fd|] eqn:Hcs.
  - refine (conj eq_refl (conj _ (conj eq_refl (conj _ (conj _ (conj _ _)))))).
    + cbn [server set_server]. rewrite shutdown_and_close_server. reflexivity.
    + cbn [server set_server]. rewrite shutdown_and_close_server. reflexivity.
    + intros fd0 s [= <-] Hs.
      destruct (stop_closes_client w fd s Hcs Hs) as (_ & H).
      rewrite stop_eq, Hcs in H. exact H.
    + pose proof (shutdown_and_close_server fd
                    (set_server (with_should_run false) w)) as HX.
      set (X := shutdown_and_close fd (set_server (with_should_run false) w))
        in *.
      rewrite stop_eq.
      cbn [snd server set_server with_client_socket _client_socket].
      unfold set_server. cbn [server frame_queue stats sockets viewer clock
        ticks bind_error accepts stdout stderr image_ok].
      rewrite HX. reflexivity.
    + intros fuel fd0 l. destruct fuel; cbn [client_loop];
        unfold bind, get_world; cbn [server set_server];
        rewrite shutdown_and_close_server; reflexivity.
  - refine (conj eq_refl (conj eq_refl (conj _ (conj eq_refl
              (conj _ (conj _ _)))))).
    + cbn. exact Hcs.
    + intros fd s Hfd. discriminate Hfd.
    + rewrite stop_eq. cbn. rewrite Hcs. reflexivity.
    + intros fuel fd0 l. destruct fuel; reflexivity.
Qed.

Lemma stop_is_safe_witness :
  exists s',
    sockets (snd (stop (set_server (with_client_socket (Some 0%nat))
                          connected_world))) !! 0%nat = Some s'
    /\ closed s' = true.
Proof.
  destruct (stop_is_safe (set_server (with_client_socket (Some 0%nat))
                            connected_world))
    as (_ & _ & _ & _ & H & _).
  apply (H 0%nat (mkSocket [] [] false false)); reflexivity.
Defined.

(** X13.  A command sent after [stop] is a reported failure.  [stop] closes
    the client socket but keeps [_client_output_stream]; a command issued
    while that field still names the closed socket is not written anywhere:
    [send_control_command] prints "Failed to send" with an [OSError] and
    returns normally. *)
Theorem send_after_stop_fails_quietly (command : list Z) (data : bytes)
    (w : world) (fd : nat) (s : socket) :
  _client_socket (server w) = Some fd ->
  _client_output_stream (server w) = Some fd ->
  sockets w !! fd = Some s ->
  encode_utf8 command = Ok data ->
  let w1 := snd (stop w) in
  send_control_command command w1
  = (Ok tt, set_stdout (stdout w1 ++ [FailedToSend OSError]) w1).
Proof.
  intros Hcs Hout Hs Henc. cbv zeta.
  destruct (stop_closes_client w fd s Hcs Hs) as (Hout' & s' & Hs' & Hc').
  unfold send_control_command, bind, get_world. rewrite Hout', Hout.
  unfold try_except, bind, lift, sendall, print, modify.
  rewrite Henc, Hs', Hc'. reflexivity.
Qed.

Lemma send_after_stop_fails_quietly_witness :
  send_control_command ZOOM_2_50
    (snd (stop (set_server (with_client_socket (Some 0%nat)) connected_world)))
  = (Ok tt,
     set_stdout [FailedToSend OSError]
       (snd (stop (set_server (with_client_socket (Some 0%nat))
                     connected_world)))).
Proof.
  apply (send_after_stop_fails_quietly ZOOM_2_50
           [x5a; x4f; x4f; x4d; x3a; x32; x2e; x35; x30]
           (set_server (with_client_socket (Some 0%nat)) connected_world)
           0%nat (mkSocket [] [] false false)); reflexivity.
Defined.

(** ** The bytes of a command *)

Lemma byte_of_Z_high (k v : Z) :
  Z.testbit k 7 = true -> byte_of_Z (Z.lor k v) <> x0a.
Proof.
  intros Hk E. apply (f_equal byte_to_Z) in E.
  rewrite byte_to_Z_of_Z in E. change (byte_to_Z x0a) with 10 in E.
  assert (Hbit : Z.testbit (Z.lor k v mod 2 ^ 8) 7 = Z.testbit 10 7)
    by (change (2 ^ 8) with 256; now rewrite E).
  rewrite Z.mod_pow2_bits_low, Z.lor_spec, Hk in Hbit by lia.
  discriminate Hbit.
Qed.

Lemma byte_of_Z_low (c : Z) :
  0 <= c < 256 -> (byte_of_Z c = x0a <-> c = 10).
Proof.
  intros Hc. split; [|intros ->; reflexivity].
  intros E. apply (f_equal byte_to_Z) in E.
  rewrite byte_to_Z_of_Z, Z.mod_small in E by lia. exact E.
Qed.

Lemma utf8_encode_char_newline (c : Z) (bs : bytes) :
  utf8_encode_char c = Ok bs -> (In x0a bs <-> c = 10).
Proof.
  unfold utf8_encode_char.
  destruct ((c <? 0) || (1114111 <? c)) eqn:Hrange; [discriminate|].
  apply orb_false_iff in Hrange as [Hlo%Z.ltb_ge Hhi%Z.ltb_ge].
  destruct ((55296 <=? c) && (c <=? 57343)); [discriminate|].
  destruct (Z.ltb_spec c 128) as [H1|H1].
  { intros [= <-]. cbn [In]. rewrite <- (byte_of_Z_low c) by lia.
    split; [intros [H|[]]; exact H|intros H; now left]. }
  assert (Hne : c <> 10) by lia.
  pose proof (fun v => byte_of_Z_high 128 v eq_refl) as B128.
  pose proof (fun v => byte_of_Z_high 192 v eq_refl) as B192.
  pose proof (fun v => byte_of_Z_high 224 v eq_refl) as B224.
  pose proof (fun v => byte_of_Z_high 240 v eq_refl) as B240.
  destruct (c <? 2048); [|destruct (c <? 65536)]; intros [= <-]; cbn [In];
    (split; [|intros ->; contradiction]);
    intros H; exfalso;
    repeat (destruct H as [H|H];
            [revert H; first [apply B128|apply B192|apply B224|apply B240]|]);
    exact H.
Qed.

Lemma encode_utf8_cons (c : Z) (rest : list Z) (data : bytes) :
  encode_utf8 (c :: rest) = Ok data ->
  exists bs bs',
    utf8_encode_char c = Ok bs /\ encode_utf8 rest = Ok bs'
    /\ data = bs ++ bs'.
Proof.
  cbn [encode_utf8].
  destruct (utf8_encode_char c) as [bs|e| |]; try discriminate;
    destruct (encode_utf8 rest) as [bs'|e'| |]; try discriminate.
  intros [= <-]. eauto.
Qed.

(** X14.  The newline that ends a command on the wire is the only one unless
    the command itself holds one.  The UTF-8 bytes of a command contain the
    byte [0x0A] exactly when the command contains the character U+000A: a
    command without a line feed is written as one line, and one with a line
    feed is written, unchecked, as several. *)
Theorem command_newline_bytes (command : list Z) (data : bytes) :
  encode_utf8 command = Ok data ->
  (In x0a data <-> In 10 command).
Proof.
  revert data. induction command as [|c rest IH]; intros data Henc.
  - cbn in Henc. injection Henc as <-. reflexivity.
  - destruct (encode_utf8_cons c rest data Henc)
      as (bs & bs' & Hc & Hrest & ->).
    rewrite in_app_iff, (utf8_encode_char_newline c bs Hc), (IH bs' Hrest).
    cbn [In]. split; intros [H|H]; auto.
Qed.

Lemma command_newline_bytes_witness :
  In x0a [x5a; x4f; x4f; x4d; x3a; x32; x2e; x35; x30] <-> In 10 ZOOM_2_50.
Proof.
  apply (command_newline_bytes ZOOM_2_50). reflexivity.
Defined.

(** X15.  An ASCII command is written as it is: when every character of the
    command is below U+0080, its encoding has one byte for each character,
    the byte of that code point; so the message on the wire is those bytes
    and the line feed.  In general the encoding has between one and four
    bytes for each character. *)
Theorem ascii_command_bytes (command : list Z) :
  (Forall (fun c => 0 <= c < 128) command ->
   encode_utf8 command = Ok (map byte_of_Z command)
   /\ map byte_to_Z (map byte_of_Z command) = command)
  /\ (forall data, encode_utf8 command = Ok data ->
      (List.length command <= List.length data <= 4 * List.length command)%nat).
Proof.
  split.
  - induction 1 as [|c rest Hc _ [IH1 IH2]]; [split; reflexivity|].
    cbn [encode_utf8 map]. rewrite IH1, IH2.
    unfold utf8_encode_char.
    replace ((c <? 0) || (1114111 <? c)) with false
      by (symmetry; apply orb_false_iff; split;
          [apply Z.ltb_ge|apply Z.ltb_ge]; lia).
    replace ((55296 <=? c) && (c <=? 57343)) with false
      by (symmetry; apply andb_false_iff; left; apply Z.leb_gt; lia).
    replace (c <? 128) with true by (symmetry; apply Z.ltb_lt; lia).
    split; [reflexivity|].
    rewrite byte_to_Z_of_Z, Z.mod_small by lia. reflexivity.
  - induction command as [|c rest IH]; intros data Henc.
    + cbn in Henc. injection Henc as <-. cbn. lia.
    + destruct (encode_utf8_cons c rest data Henc)
        as (bs & bs' & Hc & Hrest & ->).
      specialize (IH bs' Hrest). rewrite length_app. cbn [List.length].
      assert (Hbs : (1 <= List.length bs <= 4)%nat).
      { unfold utf8_encode_char in Hc.
        repeat match type of Hc with
               | context [if ?b then _ else _] => destruct b
               end; try discriminate; injection Hc as <-; cbn; lia. }
      lia.
Qed.

Lemma ascii_command_bytes_witness :
  encode_utf8 ZOOM_2_50 = Ok (map byte_of_Z ZOOM_2_50)
  /\ map byte_to_Z (map byte_of_Z ZOOM_2_50) = ZOOM_2_50.
Proof.
  apply (ascii_command_bytes ZOOM_2_50).
  repeat constructor; lia.
Defined.

(** ** The status line after a stop *)

Lemma stop_keeps_stats (w : world) :
  stats (snd (stop w)) = stats w
  /\ clock (snd (stop w)) = clock w
  /\ ticks (snd (stop w)) = ticks w
  /\ viewer (snd (stop w)) = viewer w.
Proof.
  rewrite stop_eq. cbn [snd].
  destruct (_client_socket (server w)) as [fd|]; [|auto].
  unfold shutdown_and_close. cbn [sockets set_server].
  destruct (sockets w !! fd) as [s|]; [|auto]. destruct (closed s); auto.
Qed.

(** X16.  "Server stopped" does not outlast a refresh.  [_stop_server] never
    raises and shows the status "Server stopped"; every tick of
    [_refresh_stats] writes the status anew, as "Streaming active" or
    "Waiting for stream", so the next tick replaces the stopped status; and
    when the last frame is less than 2 seconds old and [fps] is positive,
    the status after stopping the server reads "Streaming active". *)
Theorem stopped_status_is_overwritten (w : world) :
  fst (_stop_server w) = Ok tt
  /\ status_var (viewer (snd (_stop_server w))) = ServerStopped
  /\ (forall w2,
      status_var (viewer (snd (_refresh_stats w2))) = StreamingActive
      \/ status_var (viewer (snd (_refresh_stats w2))) = WaitingForStream)
  /\ (PrimFloat.ltb (clock w (ticks w) - last_updated (stats w)) 2 = true ->
      PrimFloat.ltb 0 (fps (stats w)) = true ->
      status_var (viewer (snd (_refresh_stats (snd (_stop_server w)))))
      = StreamingActive).
Proof.
  assert (E : _stop_server w
              = (Ok tt,
                 set_viewer
                   (mkViewerApp (fps_var (viewer (snd (stop w))))
                      (latency_var (viewer (snd (stop w)))) ServerStopped
                      (_current_image_ts (viewer (snd (stop w))))
                      (shown (viewer (snd (stop w))))) (snd (stop w)))).
  { unfold _stop_server, bind, modify. rewrite stop_eq. reflexivity. }
  rewrite E. cbn [fst snd].
  refine (conj eq_refl (conj eq_refl (conj _ _))).
  - intros w2. unfold _refresh_stats, bind, time_time, get_world, modify.
    cbn. destruct (_ && _); cbn; auto.
  - intros Hfresh Hfps.
    destruct (stop_keeps_stats w) as (Hst & Hck & Htk & _).
    unfold _refresh_stats, bind, time_time, get_world, modify.
    cbn [stats clock ticks set_viewer set_ticks fst snd].
    rewrite Hst, Hck, Htk, Hfresh, Hfps. reflexivity.
Qed.

Lemma stopped_status_is_overwritten_witness :
  status_var (viewer (snd (_refresh_stats (snd (_stop_server
     (set_stats (mkFrameStats 25 40 100)
        (world_with_client [] (mkQueue 1 []) (fun _ => 101%float))))))))
  = StreamingActive.
Proof.
  destruct (stopped_status_is_overwritten
              (set_stats (mkFrameStats 25 40 100)
                 (world_with_client [] (mkQueue 1 []) (fun _ => 101%float))))
    as (_ & _ & _ & H).
  apply H; reflexivity.
Defined.

(** ** The accept loop *)

(** X17.  A timeout of [accept] keeps the server listening and an error
    stops it.  When [accept] times out [k] times and then fails with another
    [OSError], the accept loop makes [k + 1] turns and ends normally: no
    connection has been handled, the run flag is still set, and whatever
    would have come next on the listening socket is never accepted. *)
Theorem accept_timeouts_then_error (k : nat) : forall (fuel client_fuel : nat)
    (w : world) (rest : list accept_event),
  _should_run (server w) = true ->
  accepts w = repeat AcceptTimeout k ++ AcceptError :: rest ->
  (k < fuel)%nat ->
  accept_loop fuel client_fuel w = (Ok tt, set_accepts rest w).
Proof.
  induction k as [|k IH]; intros fuel client_fuel w rest Hrun Hacc Hfuel;
    (destruct fuel as [|fuel]; [lia|]);
    cbn [accept_loop]; unfold bind at 1, get_world; rewrite Hrun;
    unfold bind at 1, try_except; unfold bind at 1, accept;
    rewrite Hacc; cbn [repeat app is_OSError is_exn negb ret].
  - reflexivity.
  - rewrite (IH fuel client_fuel
               (set_accepts (repeat AcceptTimeout k ++ AcceptError :: rest) w)
               rest Hrun eq_refl ltac:(lia)).
    reflexivity.
Qed.

Lemma accept_timeouts_then_error_witness :
  accept_loop 3 1
    (set_accepts [AcceptTimeout; AcceptTimeout; AcceptError;
                  AcceptConn (mkSocket [] [] false false)]
       (world_with_client [] (mkQueue 1 []) (fun _ => 0%float)))
  = (Ok tt,
     set_accepts [AcceptConn (mkSocket [] [] false false)]
       (set_accepts [AcceptTimeout; AcceptTimeout; AcceptError;
                     AcceptConn (mkSocket [] [] false false)]
          (world_with_client [] (mkQueue 1 []) (fun _ => 0%float)))).
Proof.
  apply (accept_timeouts_then_error 2 3 1
           (set_accepts [AcceptTimeout; AcceptTimeout; AcceptError;
                         AcceptConn (mkSocket [] [] false false)]
              (world_with_client [] (mkQueue 1 []) (fun _ => 0%float)))
           [AcceptConn (mkSocket [] [] false false)]);
    [reflexivity|reflexivity|lia].
Defined.

(** ** What a connection leaves alone *)

Lemma on_socket_outside {A} (fd : nat)
    (f : list recv_event -> outcome A * list recv_event) (w : world) :
  outside_receive_loop (snd (on_socket fd f w)) = outside_receive_loop w.
Proof.
  unfold on_socket. destruct (sockets w !! fd) as [s|]; [|reflexivity].
  destruct (closed s); [reflexivity|]. destruct (f (incoming s)).
  reflexivity.
Qed.

Ltac outside_leaf E S :=
  cbn in E;
  repeat match type of E with
         | context [if ?b then _ else _] => destruct b; cbn in E
         end;
  injection E as <- <-; rewrite <- S; reflexivity.

Lemma loop_body_outside (fd : nat) (l : window) (w : world) r w' :
  loop_body fd l w = (r, w') ->
  outside_receive_loop w' = outside_receive_loop w.
Proof.
  intros E. unfold loop_body, try_except, receive_frame in E.
  unfold bind at 1 in E.
  pose proof (on_socket_outside fd (fun evs => _recvall evs 4) w) as S1.
  destruct (on_socket fd (fun evs => _recvall evs 4) w) as [r1 w1].
  cbn [snd] in S1.
  destruct r1 as [h|e| |]; try (outside_leaf E S1).
  destruct (falsy h); [outside_leaf E S1|].
  unfold bind at 1, lift in E.
  destruct (struct_unpack_I (default [] h)) as [n|e| |];
    try (outside_leaf E S1).
  destruct ((n <=? 0) || (MAX_FRAME_LENGTH <? n)); [outside_leaf E S1|].
  unfold bind at 1 in E.
  pose proof (on_socket_outside fd (fun evs => _recvall evs n) w1) as S2.
  destruct (on_socket fd (fun evs => _recvall evs n) w1) as [r2 w2].
  cbn [snd] in S2. rewrite S1 in S2.
  destruct r2 as [p|e| |]; try (outside_leaf E S2).
  destruct (falsy p); [outside_leaf E S2|].
  unfold bind at 1, time_time in E. unfold bind at 1 in E.
  rewrite push_frame_eq in E. cbv beta iota in E.
  destruct (PrimFloat.leb 1 _); [|outside_leaf E S2].
  unfold bind, lift, modify, ret in E.
  destruct (truediv_int_float _ _) as [q|e| |]; outside_leaf E S2.
Qed.

Lemma client_loop_outside (fuel : nat) : forall (fd : nat) (l : window)
    (w : world),
  outside_receive_loop (snd (client_loop fuel fd l w))
  = outside_receive_loop w.
Proof.
  induction fuel as [|fuel IH]; intros fd l w; cbn [client_loop];
    unfold bind at 1, get_world; destruct (_should_run (server w));
    try reflexivity.
  unfold bind. destruct (loop_body fd l w) as [r w1] eqn:E.
  pose proof (loop_body_outside fd l w r w1 E) as H1.
  destruct r as [[l'|]|e| |]; cbn [snd]; try exact H1.
  rewrite IH. exact H1.
Qed.

Lemma handle_client_eq (fuel : nat) (fd : nat) (w : world) :
  _handle_client fuel fd w
  = let '(r1, w1) :=
      client_loop fuel fd (mkWindow 0 (clock w (ticks w)))
        (set_ticks (S (ticks w))
           (set_server (with_client_output_stream (Some fd)) w)) in
    match r1 with
    | Ok _ =>
        (Ok tt,
         close_socket fd (set_server (with_client_output_stream None) w1))
    | Raise e => (Raise e, close_socket fd w1)
    | Blocks => (Blocks, close_socket fd w1)
    | OutOfFuel => (OutOfFuel, close_socket fd w1)
    end.
Proof.
  unfold _handle_client, try_finally. unfold bind at 1, modify.
  unfold bind at 1, time_time. unfold bind at 1.
  change (client_loop fuel fd _ _)
    with (client_loop fuel fd (mkWindow 0 (clock w (ticks w)))
            (set_ticks (S (ticks w))
               (set_server (with_client_output_stream (Some fd)) w))).
  destruct (client_loop fuel fd (mkWindow 0 (clock w (ticks w)))
              (set_ticks (S (ticks w))
                 (set_server (with_client_output_stream (Some fd)) w)))
    as [[u|e| |] w1]; reflexivity.
Qed.

Lemma close_socket_outside (fd : nat) (w : world) :
  outside_receive_loop (close_socket fd w) = outside_receive_loop w.
Proof.
  unfold close_socket. destruct (sockets w !! fd); reflexivity.
Qed.

Lemma handle_client_outside (fuel : nat) (fd : nat) (w : world) :
  let w' := snd (_handle_client fuel fd w) in
  _should_run (server w') = _should_run (server w)
  /\ _server_thread (server w') = _server_thread (server w)
  /\ _client_socket (server w') = _client_socket (server w)
  /\ accepts w' = accepts w
  /\ viewer w' = viewer w
  /\ stdout w' = stdout w
  /\ stderr w' = stderr w
  /\ (fst (_handle_client fuel fd w) = Ok tt ->
      _client_output_stream (server w') = None).
Proof.
  cbv zeta. rewrite handle_client_eq.
  pose proof (client_loop_outside fuel fd (mkWindow 0 (clock w (ticks w)))
                (set_ticks (S (ticks w))
                   (set_server (with_client_output_stream (Some fd)) w)))
    as H.
  destruct (client_loop fuel fd (mkWindow 0 (clock w (ticks w)))
              (set_ticks (S (ticks w))
                 (set_server (with_client_output_stream (Some fd)) w)))
    as [r1 w1].
  cbn [snd] in H. unfold outside_receive_loop in H. cbn in H.
  injection H as Hsrv Hacc Hview Hout Herr.
  destruct r1 as [u|e| |]; cbn [fst snd];
    pose proof (close_socket_outside fd w1) as Hc1;
    pose proof (close_socket_outside fd
                  (set_server (with_client_output_stream None) w1)) as Hc2;
    unfold outside_receive_loop in Hc1, Hc2; cbn in Hc1, Hc2;
    injection Hc1 as Hs1 Ha1 Hv1 Ho1 He1;
    injection Hc2 as Hs2 Ha2 Hv2 Ho2 He2.
  - rewrite Hs2, Ha2, Hv2, Ho2, He2, Hacc, Hview, Hout, Herr. cbn.
    rewrite Hsrv. cbn. repeat split; reflexivity.
  - rewrite Hs1, Ha1, Hv1, Ho1, He1, Hacc, Hview, Hout, Herr, Hsrv. cbn.
    repeat split; discriminate.
  - rewrite Hs1, Ha1, Hv1, Ho1, He1, Hacc, Hview, Hout, Herr, Hsrv. cbn.
    repeat split; discriminate.
  - rewrite Hs1, Ha1, Hv1, Ho1, He1, Hacc, Hview, Hout, Herr, Hsrv. cbn.
    repeat split; discriminate.
Qed.

(** X18.  What a connection leaves alone.  Whatever a client sends and however
    the connection ends, [_handle_client] does not change the run flag, the
    server thread or the socket recorded in [_client_socket] (which goes on
    naming the connection after it is closed), takes no connection off the
    listening socket, does not touch the display and prints nothing. *)
Theorem handle_client_leaves_alone (fuel : nat) (fd : nat) (w : world) :
  _should_run (server (snd (_handle_client fuel fd w)))
  = _should_run (server w)
  /\ _server_thread (server (snd (_handle_client fuel fd w)))
     = _server_thread (server w)
  /\ _client_socket (server (snd (_handle_client fuel fd w)))
     = _client_socket (server w)
  /\ accepts (snd (_handle_client fuel fd w)) = accepts w
  /\ viewer (snd (_handle_client fuel fd w)) = viewer w
  /\ stdout (snd (_handle_client fuel fd w)) = stdout w
  /\ stderr (snd (_handle_client fuel fd w)) = stderr w.
Proof.
  destruct (handle_client_outside fuel fd w)
    as (H1 & H2 & H3 & H4 & H5 & H6 & H7 & _).
  auto 10.
Qed.

Lemma handle_client_closes (fuel : nat) (fd : nat) (w : world) :
  (fd < List.length (sockets w))%nat ->
  exists s',
    sockets (snd (_handle_client fuel fd w)) !! fd = Some s'
    /\ closed s' = true.
Proof.
  intros Hfd. rewrite handle_client_eq.
  pose proof (client_loop_sockets_length fuel fd
                (mkWindow 0 (clock w (ticks w)))
                (set_ticks (S (ticks w))
                   (set_server (with_client_output_stream (Some fd)) w)))
    as Hlen.
  destruct (client_loop fuel fd (mkWindow 0 (clock w (ticks w)))
              (set_ticks (S (ticks w))
                 (set_server (with_client_output_stream (Some fd)) w)))
    as [r1 w1].
  cbn in Hlen.
  destruct r1 as [u|e| |]; cbn [snd]; apply close_socket_closes; cbn; lia.
Qed.

(** ** One connection after another *)

(** X19.  The server serves one connection at a time and then listens again.
    When [accept] yields a connection, the accept loop records its socket in
    [_client_socket] and hands it to [_handle_client]; when that returns, the
    loop goes on to the next [accept] with the run flag still set and the
    connections still to come untouched.  The control channel is
    disconnected and the socket is closed, but [_client_socket] is not
    reset: it goes on naming the closed socket. *)
Theorem accept_loop_serves_connection (fuel client_fuel : nat) (w : world)
    (s : socket) (rest : list accept_event) :
  _should_run (server w) = true ->
  accepts w = AcceptConn s :: rest ->
  let fd := List.length (sockets w) in
  let r := _handle_client client_fuel fd
             (set_server (with_client_socket (Some fd))
                (set_sockets (sockets w ++ [s]) (set_accepts rest w))) in
  fst r = Ok tt ->
  accept_loop (S fuel) client_fuel w = accept_loop fuel client_fuel (snd r)
  /\ _should_run (server (snd r)) = true
  /\ accepts (snd r) = rest
  /\ _client_socket (server (snd r)) = Some fd
  /\ _client_output_stream (server (snd r)) = None
  /\ (exists s', sockets (snd r) !! fd = Some s' /\ closed s' = true).
Proof.
  intros Hrun Hacc fd r Hok.
  destruct (handle_client_outside client_fuel fd
              (set_server (with_client_socket (Some fd))
                 (set_sockets (sockets w ++ [s]) (set_accepts rest w))))
    as (H1 & _ & H3 & H4 & _ & _ & _ & H8).
  fold r in H1, H3, H4, H8. cbn in H1, H3, H4.
  refine (conj _ (conj _ (conj H4 (conj H3 (conj (H8 Hok) _))))).
  - cbn [accept_loop]. unfold bind at 1, get_world. rewrite Hrun.
    unfold bind at 1, try_except. unfold bind at 1, accept. rewrite Hacc.
    unfold bind at 1, modify. unfold bind at 1.
    change (_handle_client client_fuel (List.length (sockets w)) _) with r.
    destruct r as [r1 w2]. cbn [fst snd] in *. subst r1. reflexivity.
  - rewrite H1. exact Hrun.
  - apply handle_client_closes. cbn. rewrite length_app. cbn. lia.
Qed.

Lemma accept_loop_serves_connection_witness :
  accept_loop 2 2
    (set_accepts [AcceptConn (mkSocket [Reset] [] false false); AcceptError]
       (world_with_client [] (mkQueue 1 []) (fun _ => 0%float)))
  = accept_loop 1 2
      (snd (_handle_client 2 1
         (set_server (with_client_socket (Some 1%nat))
            (set_sockets
               (sockets (world_with_client [] (mkQueue 1 [])
                           (fun _ => 0%float))
                ++ [mkSocket [Reset] [] false false])
               (set_accepts [AcceptError]
                  (set_accepts
                     [AcceptConn (mkSocket [Reset] [] false false);
                      AcceptError]
                     (world_with_client [] (mkQueue 1 [])
                        (fun _ => 0%float)))))))).
Proof.
  apply (accept_loop_serves_connection 1 2
           (set_accepts
              [AcceptConn (mkSocket [Reset] [] false false); AcceptError]
              (world_with_client [] (mkQueue 1 []) (fun _ => 0%float)))
           (mkSocket [Reset] [] false false) [AcceptError]);
    reflexivity.
Defined.

(** ** The addresses shown to the user *)

Lemma str_le_total : Total str_le.
Proof.
  intros s. unfold str_le.
  induction s as [|c s IH]; intros [|d t]; cbn; auto.
  destruct (Z.ltb_spec c d), (Z.ltb_spec d c); auto; lia.
Qed.

Lemma str_le_trans : Transitive str_le.
Proof.
  intros s. unfold str_le.
  induction s as [|c s IH]; intros [|d t] [|e u]; cbn; auto; try discriminate.
  destruct (Z.ltb_spec c d), (Z.ltb_spec d c), (Z.ltb_spec d e),
    (Z.ltb_spec e d), (Z.ltb_spec c e), (Z.ltb_spec e c);
    auto; try discriminate; try lia.
  apply IH.
Qed.

Lemma str_le_antisym : AntiSymm eq str_le.
Proof.
  intros s. unfold str_le.
  induction s as [|c s IH]; intros [|d t]; cbn; auto; try discriminate.
  destruct (Z.ltb_spec c d), (Z.ltb_spec d c); try discriminate; try lia.
  intros H1 H2. f_equal; [lia|]. now apply IH.
Qed.

Lemma sorted_set_spec (ips : list (list Z)) :
  StronglySorted str_le (merge_sort str_le (remove_dups ips))
  /\ NoDup (merge_sort str_le (remove_dups ips))
  /\ (forall a, In a (merge_sort str_le (remove_dups ips)) <-> In a ips).
Proof.
  pose proof (merge_sort_Permutation str_le (remove_dups ips)) as HP.
  split; [|split].
  - apply (@StronglySorted_merge_sort _ str_le _ str_le_trans str_le_total).
  - rewrite HP. apply NoDup_remove_dups.
  - intros a. rewrite <- !list_elem_of_In, HP. apply elem_of_remove_dups.
Qed.

Lemma sorted_set_canonical (l1 l2 : list (list Z)) :
  (forall a, In a l1 <-> In a l2) ->
  merge_sort str_le (remove_dups l1) = merge_sort str_le (remove_dups l2).
Proof.
  intros H.
  destruct (sorted_set_spec l1) as (S1 & N1 & M1).
  destruct (sorted_set_spec l2) as (S2 & N2 & M2).
  apply (@StronglySorted_unique _ str_le str_le_antisym); [assumption..|].
  apply NoDup_Permutation; [assumption..|].
  intros a. rewrite !list_elem_of_In, M1, M2. apply H.
Qed.

Lemma get_local_ip_addresses_eq (resolved : option (list (list Z)))
    (outbound : option (list Z)) :
  exists ips,
    (forall a, In a ips <-> collected resolved outbound a)
    /\ get_local_ip_addresses resolved outbound
       = match merge_sort str_le (remove_dups ips) with
         | [] => [LOCALHOST]
         | a :: s => a :: s
         end.
Proof.
  unfold get_local_ip_addresses, collected.
  eexists. split; [|reflexivity].
  intros a. destruct resolved as [addrs|], outbound as [o|];
    rewrite ?in_app_iff, ?filter_In; cbn; split.
  - intros [[Hin Hs]|[<-|[]]]; [left|now right].
    exists addrs. apply negb_true_iff in Hs. auto.
  - intros [(l & [= <-] & Hin & Hs)|[= <-]]; [left|right; now left].
    split; [assumption|]. now apply negb_true_iff.
  - intros [Hin Hs]. left. exists addrs. apply negb_true_iff in Hs. auto.
  - intros [(l & [= <-] & Hin & Hs)|[=]]. split; [assumption|].
    now apply negb_true_iff.
  - intros [[]|[<-|[]]]. now right.
  - intros [(l & [=] & _)|[= <-]]. right. now left.
  - intros [].
  - intros [(l & [=] & _)|[=]].
Qed.


(** X21.  The address list depends only on the set of collected addresses:
    neither the order in which the host name's addresses are listed, nor
    repetitions, nor which of the two lookups found an address changes the
    result. *)
Theorem local_ips_depend_on_set (r1 r2 : option (list (list Z)))
    (o1 o2 : option (list Z)) :
  (forall a, collected r1 o1 a <-> collected r2 o2 a) ->
  get_local_ip_addresses r1 o1 = get_local_ip_addresses r2 o2.
Proof.
  intros H.
  destruct (get_local_ip_addresses_eq r1 o1) as (l1 & H1 & ->).
  destruct (get_local_ip_addresses_eq r2 o2) as (l2 & H2 & ->).
  rewrite (sorted_set_canonical l1 l2); [reflexivity|].
  intros a. rewrite H1, H2. apply H.
Qed.

Lemma local_ips_depend_on_set_witness :
  get_local_ip_addresses
    (Some [ADDR_192_168_1_7; ADDR_127_0_1_1; ADDR_10_0_0_5; ADDR_192_168_1_7])
    (Some ADDR_10_0_0_5)
  = get_local_ip_addresses (Some [ADDR_10_0_0_5]) (Some ADDR_192_168_1_7).
Proof.
  apply local_ips_depend_on_set. intros a. unfold collected. split.
  - intros [(l & [= <-] & Hin & Hs)|[= <-]].
    + destruct Hin as [<-|[<-|[<-|[<-|[]]]]].
      * now right.
      * vm_compute in Hs. discriminate Hs.
      * left. exists [ADDR_10_0_0_5]. repeat split. now left.
      * now right.
    + left. exists [ADDR_10_0_0_5]. repeat split. now left.
  - intros [(l & [= <-] & Hin & Hs)|[= <-]].
    + destruct Hin as [<-|[]]. now right.
    + left. eexists. split; [reflexivity|]. split; [now left|reflexivity].
Defined.

(** ** The cache of the display size *)

Lemma size_eqb_eq (a b : Z * Z) : size_eqb a b = true <-> a = b.
Proof.
  destruct a as [a1 a2], b as [b1 b2]. unfold size_eqb. cbn [fst snd].
  rewrite andb_true_iff, !Z.eqb_eq. split; [intros [-> ->]|intros [= -> ->]];
    auto.
Qed.

Lemma compute_display_size_hit (winfo_width winfo_height : Z)
    (image_size : Z * Z) (c : display_cache) (cached : Z * Z) :
  _cached_display_size c = Some cached ->
  _last_label_size c = label_size winfo_width winfo_height ->
  _compute_display_size winfo_width winfo_height image_size c
  = (inr cached, c).
Proof.
  intros Hc Hl. unfold _compute_display_size. rewrite Hc.
  change (int_max winfo_width 320, int_max winfo_height 240)
    with (label_size winfo_width winfo_height).
  rewrite (proj2 (size_eqb_eq _ _) Hl). reflexivity.
Qed.

Lemma truediv_int_int_zero_division (a b : Z) :
  truediv_int_int a b = inl SizeZeroDivision <-> b = 0.
Proof.
  unfold truediv_int_int. destruct (Z.eqb_spec b 0) as [->|Hb].
  - split; reflexivity.
  - destruct (is_infinity _); split; try discriminate; intros; contradiction.
Qed.

Lemma mul_int_float_error (a : Z) (y : float) (e : size_error) :
  mul_int_float a y = inl e -> e <> SizeZeroDivision.
Proof.
  unfold mul_int_float. destruct (float_of_int a); intros [= <-]; discriminate.
Qed.

Lemma int_of_float_error (x : float) (e : size_error) :
  int_of_float x = inl e -> e <> SizeZeroDivision.
Proof.
  unfold int_of_float. destruct (Prim2SF x); intros [= <-]; discriminate.
Qed.

(** What a computation of the size anew leaves behind. *)
Lemma compute_display_size_miss (winfo_width winfo_height : Z)
    (image_size : Z * Z) (c : display_cache) r c' :
  cache_miss winfo_width winfo_height c ->
  _compute_display_size winfo_width winfo_height image_size c = (r, c') ->
  match r with
  | inr size =>
      c' = mkDisplayCache (Some size) (label_size winfo_width winfo_height)
  | inl e =>
      _cached_display_size c' = _cached_display_size c
      /\ (e = SizeZeroDivision ->
          c' = c /\ (fst image_size = 0 \/ snd image_size = 0))
  end.
Proof.
  intros Hmiss H. unfold _compute_display_size in H.
  change (int_max winfo_width 320, int_max winfo_height 240)
    with (label_size winfo_width winfo_height) in H.
  assert (Hgo :
    (let '(image_width, image_height) := image_size in
     match truediv_int_int (int_max winfo_width 320) image_width with
     | inl e => (inl e, c)
     | inr width_ratio =>
         match truediv_int_int (int_max winfo_height 240) image_height with
         | inl e => (inl e, c)
         | inr height_ratio =>
             let scale := py_min width_ratio height_ratio in
             let c1 := mkDisplayCache (_cached_display_size c)
                         (label_size winfo_width winfo_height) in
             match mul_int_float image_width scale with
             | inl e => (inl e, c1)
             | inr fw =>
                 match int_of_float fw with
                 | inl e => (inl e, c1)
                 | inr w =>
                     match mul_int_float image_height scale with
                     | inl e => (inl e, c1)
                     | inr fh =>
                         match int_of_float fh with
                         | inl e => (inl e, c1)
                         | inr h =>
                             (inr (w, h),
                              mkDisplayCache (Some (w, h))
                                (label_size winfo_width winfo_height))
                         end
                     end
                 end
             end
         end
     end) = (r, c')).
  { cbv zeta in H. destruct (_cached_display_size c) as [cached|] eqn:Hc.
    - destruct (size_eqb (_last_label_size c)
                  (label_size winfo_width winfo_height)) eqn:Heq.
      + apply size_eqb_eq in Heq. destruct Hmiss as [Hn|Hn];
          [congruence|contradiction].
      + exact H.
    - exact H. }
  clear H. destruct image_size as [image_width image_height].
  cbv zeta in Hgo. cbn [fst snd].
  destruct (truediv_int_int (int_max winfo_width 320) image_width)
    as [e1|width_ratio] eqn:E1.
  { injection Hgo as <- <-. split; [reflexivity|]. intros ->.
    split; [reflexivity|]. left.
    now apply (truediv_int_int_zero_division (int_max winfo_width 320)). }
  destruct (truediv_int_int (int_max winfo_height 240) image_height)
    as [e2|height_ratio] eqn:E2.
  { injection Hgo as <- <-. split; [reflexivity|]. intros ->.
    split; [reflexivity|]. right.
    now apply (truediv_int_int_zero_division (int_max winfo_height 240)). }
  destruct (mul_int_float image_width (py_min width_ratio height_ratio))
    as [e3|fw] eqn:E3.
  { injection Hgo as <- <-. split; [reflexivity|]. intros ->.
    now apply mul_int_float_error in E3. }
  destruct (int_of_float fw) as [e4|w] eqn:E4.
  { injection Hgo as <- <-. split; [reflexivity|]. intros ->.
    now apply int_of_float_error in E4. }
  destruct (mul_int_float image_height (py_min width_ratio height_ratio))
    as [e5|fh] eqn:E5.
  { injection Hgo as <- <-. split; [reflexivity|]. intros ->.
    now apply mul_int_float_error in E5. }
  destruct (int_of_float fh) as [e6|h] eqn:E6.
  { injection Hgo as <- <-. split; [reflexivity|]. intros ->.
    now apply int_of_float_error in E6. }
  injection Hgo as <- <-. reflexivity.
Qed.

(** X22.  The display size is cached on the size of the label alone.  After
    a call of [_compute_display_size] that returns a size, the cache holds
    that size and the size of the label (at least 320 by 240); and every
    later call for a label of the same size returns the cached size and
    leaves the cache as it is, whatever the size of the image, also an image
    of another shape or one of width zero. *)
Theorem display_size_is_cached (winfo_width winfo_height : Z)
    (image_size : Z * Z) (c c' : display_cache) (size : Z * Z) :
  _compute_display_size winfo_width winfo_height image_size c
  = (inr size, c') ->
  _cached_display_size c' = Some size
  /\ _last_label_size c' = label_size winfo_width winfo_height
  /\ (forall winfo_width' winfo_height' image_size',
      label_size winfo_width' winfo_height'
      = label_size winfo_width winfo_height ->
      _compute_display_size winfo_width' winfo_height' image_size' c'
      = (inr size, c')).
Proof.
  intros H.
  assert (Hc : _cached_display_size c' = Some size
               /\ _last_label_size c' = label_size winfo_width winfo_height).
  { destruct (_cached_display_size c) as [cached|] eqn:Hcached.
    - destruct (size_eqb (_last_label_size c)
                  (label_size winfo_width winfo_height)) eqn:Heq.
      + pose proof (proj1 (size_eqb_eq _ _) Heq) as Hl.
        rewrite (compute_display_size_hit _ _ _ _ _ Hcached Hl) in H.
        injection H as <- <-. auto.
      + assert (Hmiss : cache_miss winfo_width winfo_height c).
        { right. intros Hl. apply size_eqb_eq in Hl. congruence. }
        pose proof (compute_display_size_miss _ _ _ _ _ _ Hmiss H) as ->.
        auto.
    - pose proof (compute_display_size_miss _ _ _ _ _ _ (or_introl Hcached) H)
        as ->.
      auto. }
  destruct Hc as [Hc Hl]. refine (conj Hc (conj Hl _)).
  intros winfo_width' winfo_height' image_size' Hsame.
  apply compute_display_size_hit; [exact Hc|]. now rewrite Hsame.
Qed.

Lemma display_size_is_cached_witness :
  _compute_display_size 1 1 (0, 0)
    (mkDisplayCache (Some (320, 180)) (320, 240))
  = (inr (320, 180), mkDisplayCache (Some (320, 180)) (320, 240)).
Proof.
  destruct (display_size_is_cached 200 100 (1920, 1080) new_display_cache
              (mkDisplayCache (Some (320, 180)) (320, 240)) (320, 180)
              ltac:(vm_compute; reflexivity)) as (_ & _ & H).
  apply (H 1 1 (0, 0)). reflexivity.
Defined.

(** A division that raises leaves the method at once. *)
Lemma compute_display_size_division (winfo_width winfo_height : Z)
    (image_size : Z * Z) (c : display_cache) :
  cache_miss winfo_width winfo_height c ->
  (forall e,
    truediv_int_int (int_max winfo_width 320) (fst image_size) = inl e ->
    _compute_display_size winfo_width winfo_height image_size c = (inl e, c))
  /\ (forall q e,
      truediv_int_int (int_max winfo_width 320) (fst image_size) = inr q ->
      truediv_int_int (int_max winfo_height 240) (snd image_size) = inl e ->
      _compute_display_size winfo_width winfo_height image_size c
      = (inl e, c)).
Proof.
  intros Hmiss. unfold _compute_display_size.
  change (int_max winfo_width 320, int_max winfo_height 240)
    with (label_size winfo_width winfo_height).
  destruct image_size as [image_width image_height]. cbv zeta. cbn [fst snd].
  assert (Hif : forall (cached : Z * Z) (X : (size_error + Z * Z) * display_cache),
            _cached_display_size c = Some cached ->
            (if size_eqb (_last_label_size c)
                  (label_size winfo_width winfo_height)
             then (inr cached, c) else X) = X).
  { intros cached X Hc.
    destruct (size_eqb (_last_label_size c)
                (label_size winfo_width winfo_height)) eqn:Heq; [|reflexivity].
    apply size_eqb_eq in Heq. destruct Hmiss as [Hn|Hn];
      [congruence|contradiction]. }
  split.
  - intros e E1. rewrite E1.
    destruct (_cached_display_size c) as [cached|] eqn:Hc; [|reflexivity].
    now apply Hif.
  - intros q e E1 E2. rewrite E1, E2.
    destruct (_cached_display_size c) as [cached|] eqn:Hc; [|reflexivity].
    now apply Hif.
Qed.

(** X23.  Errors of [_compute_display_size].  When the size has to be
    computed anew, an image of width zero raises [ZeroDivisionError], and one
    of height zero raises too, both leaving the cache as it was.  A call
    raises only when the size is computed anew; a call that raises never
    changes the cached size, and [ZeroDivisionError] is raised only for an
    image with a dimension of zero. *)
Theorem display_size_errors (winfo_width winfo_height : Z)
    (image_size : Z * Z) (c : display_cache) :
  (cache_miss winfo_width winfo_height c ->
   fst image_size = 0 ->
   _compute_display_size winfo_width winfo_height image_size c
   = (inl SizeZeroDivision, c))
  /\ (cache_miss winfo_width winfo_height c ->
      snd image_size = 0 ->
      exists e,
        _compute_display_size winfo_width winfo_height image_size c
        = (inl e, c))
  /\ (forall e c',
      _compute_display_size winfo_width winfo_height image_size c
      = (inl e, c') ->
      cache_miss winfo_width winfo_height c
      /\ _cached_display_size c' = _cached_display_size c
      /\ (e = SizeZeroDivision ->
          c' = c /\ (fst image_size = 0 \/ snd image_size = 0))).
Proof.
  refine (conj _ (conj _ _)).
  - intros Hmiss Hw.
    apply (proj1 (compute_display_size_division _ _ _ _ Hmiss)).
    rewrite Hw. now apply truediv_int_int_zero_division.
  - intros Hmiss Hh.
    destruct (compute_display_size_division _ _ image_size _ Hmiss)
      as [H1 H2].
    destruct (truediv_int_int (int_max winfo_width 320) (fst image_size))
      as [e|q] eqn:E1.
    + exists e. now apply H1.
    + exists SizeZeroDivision. apply (H2 q); [reflexivity|].
      rewrite Hh. now apply truediv_int_int_zero_division.
  - intros e c' H.
    assert (Hmiss : cache_miss winfo_width winfo_height c).
    { destruct (_cached_display_size c) as [cached|] eqn:Hc; [|now left].
      right. intros Hl.
      rewrite (compute_display_size_hit _ _ _ _ _ Hc Hl) in H.
      discriminate H. }
    split; [exact Hmiss|].
    exact (compute_display_size_miss _ _ _ _ _ _ Hmiss H).
Qed.

Lemma display_size_errors_witness :
  _compute_display_size 640 480 (0, 1080) new_display_cache
  = (inl SizeZeroDivision, new_display_cache).
Proof.
  apply (proj1 (display_size_errors 640 480 (0, 1080) new_display_cache));
    [left|]; reflexivity.
Defined.
